(** * mcufont: dictionary encoder and optimizer

    A shallow embedding of [encode.cc] and [optimize.cc].  Containers are
    lists, [size_t] positions and lengths are [nat] (a container never holds
    2^64 elements), bytes and C [int]s are [Z] with the narrowing conversions
    written out, and a call that may throw returns an [option] or a
    [result]. *)

From Stdlib Require Import ZArith List Bool Arith Lia Permutation.
From Equations Require Import Equations.
Import ListNotations.

(** ** encode.cc *)

Module Encode.

Definition bitstring_t := list bool.
Definition rlestring_t := list Z.
Definition refstring_t := list Z.

(** Narrowing conversion to [uint8_t]. *)
Definition to_uint8 (z : Z) : Z := z mod 256.

(** Narrowing conversion of a [size_t] value to a 32-bit [int]. *)
Definition to_int (z : Z) : Z := (z + 2 ^ 31) mod 2 ^ 32 - 2 ^ 31.

(** Modelled from the spec: [DataFile::dictentry_t] is declared in
    datafile.hh.  A slot has its replacement bits, a signed score
    ([update_scores] tests [d.score > 0] and documents negative scores) and
    the coding flag. *)
Record dictentry_t : Type := mk_dictentry {
  replacement : bitstring_t;
  score : Z;
  ref_encode : bool
}.

(** Value-initialised entry ([dictentry_t dummy = {}]). *)
Definition empty_dictentry : dictentry_t := mk_dictentry [] 0 false.

(** Modelled from the spec: [DataFile::glyphentry_t] (datafile.hh), the
    glyph pixels and the advance width. *)
Record glyphentry_t : Type := mk_glyphentry {
  data : bitstring_t;
  width : Z
}.

(** Modelled from the spec: [DataFile::fontinfo_t] (datafile.hh); only the
    two dimensions are read by this code. *)
Record fontinfo_t : Type := mk_fontinfo {
  max_width : nat;
  max_height : nat
}.

(** Modelled from the spec: the [DataFile] class (datafile.hh) holds the
    glyph table, the dictionary slots, the font info and the RNG seed. *)
Record DataFile : Type := mk_DataFile {
  dictionary : list dictentry_t;
  glyphtable : list glyphentry_t;
  fontinfo : fontinfo_t;
  seed : Z
}.

(** Modelled from the spec: [encoded_font_t] (encode.hh), three sequences
    of byte strings. *)
Record encoded_font_t : Type := mk_encoded_font {
  rle_dictionary : list rlestring_t;
  ref_dictionary : list refstring_t;
  glyphs : list refstring_t
}.

(** *** encode_rle *)

(** The inner [while] of [encode_rle]: extend the run while it stays inside
    the string, is shorter than 127 and repeats [bit]. *)
Equations? run_count (bits : bitstring_t) (pos : nat) (bit : bool)
  (count : nat) : nat by wf (length bits - (pos + count)) lt :=
run_count bits pos bit count with lt_dec (pos + count) (length bits) := {
  | right _ => count
  | left Hpos with lt_dec count 127 := {
    | right _ => count
    | left _ with bool_dec (nth (pos + count) bits false) bit := {
      | left _ => run_count bits pos bit (S count)
      | right _ => count } } }.
Proof. lia. Qed.

Lemma run_count_ge bits pos bit count : count <= run_count bits pos bit count.
Proof.
  funelim (run_count bits pos bit count); lia.
Qed.

(** [uint8_t byte = (bit ? 0x80 : 0x00) | count]. *)
Definition rle_byte (bit : bool) (count : nat) : Z :=
  to_uint8 (Z.lor (if bit then 128 else 0) (Z.of_nat count)).

(** The outer [while (pos < bits.size())] of [encode_rle]; the bytes pushed
    from position [pos] on. *)
Equations? encode_rle_from (bits : bitstring_t) (pos : nat) : rlestring_t
  by wf (length bits - pos) lt :=
encode_rle_from bits pos with lt_dec pos (length bits) := {
  | right _ => []
  | left Hpos =>
      rle_byte (nth pos bits false) (run_count bits pos (nth pos bits false) 1)
      :: encode_rle_from bits
           (pos + run_count bits pos (nth pos bits false) 1) }.
Proof.
  pose proof (run_count_ge bits pos (nth pos bits false) 1). lia.
Qed.

Definition encode_rle (bits : bitstring_t) : rlestring_t :=
  encode_rle_from bits 0.

(** *** The lookup tree *)

#[local] Unset Elimination Schemes.
(** [dicttree_t]; a [ptr] is [None] when null. *)
Inductive dicttree_t : Type := mk_dicttree {
  index : Z;
  zero : option dicttree_t;
  one : option dicttree_t;
  ref : bool
}.
#[local] Set Elimination Schemes.

(** [dicttree_t()] *)
Definition new_dicttree : dicttree_t := mk_dicttree (-1) None None false.

(** [ptr &walk(bool b)], read. *)
Definition walk (node : dicttree_t) (b : bool) : option dicttree_t :=
  if b then one node else zero node.

(** [ptr &walk(bool b)], assigned through the reference. *)
Definition set_walk (node : dicttree_t) (b : bool) (branch : dicttree_t)
  : dicttree_t :=
  if b then mk_dicttree (index node) (zero node) (Some branch) (ref node)
  else mk_dicttree (index node) (Some branch) (one node) (ref node).

(** The body of the [for (d : dictionary)] loop of [construct_tree]:
    descend along the bits, creating missing branches, and give the node
    reached the next index when it has none.  Returns the updated node and
    counter [i]. *)
Fixpoint insert_entry (node : dicttree_t) (bits : bitstring_t) (i : nat)
  (ref_enc : bool) {struct bits} : dicttree_t * nat :=
  match bits with
  | [] =>
      if index node <? 0
      then (mk_dicttree (to_int (Z.of_nat i + 4)) (zero node) (one node)
              ref_enc, S i)
      else (node, i)
  | b :: bits' =>
      let branch :=
        match walk node b with Some n => n | None => new_dicttree end in
      let '(branch', i') := insert_entry branch bits' i ref_enc in
      (set_walk node b branch', i')
  end%Z.

(** The root with the hardcoded 0 and 1 entries. *)
Definition hardcoded_root : dicttree_t :=
  mk_dicttree (-1) (Some (mk_dicttree 0 None None false))
    (Some (mk_dicttree 1 None None false)) false.

Definition construct_step (st : dicttree_t * nat) (d : dictentry_t)
  : dicttree_t * nat :=
  insert_entry (fst st) (replacement d) (snd st) (ref_encode d).

Definition construct_tree (dictionary : list dictentry_t) : dicttree_t :=
  fst (fold_left construct_step dictionary (hardcoded_root, 0)).

(** *** walk_tree *)

(** The [while (bits != bitsend)] loop of [walk_tree]; returns the final
    [best_length] and [index]. *)
Fixpoint walk_tree_loop (node : dicttree_t) (bits : bitstring_t)
  (is_glyph : bool) (length best_length : nat) (idx : Z) {struct bits}
  : nat * Z :=
  match bits with
  | [] => (best_length, idx)
  | b :: bits' =>
      match walk node b with
      | None => (best_length, idx)
      | Some node' =>
          if (is_glyph || negb (ref node')) && (0 <=? index node')
          then walk_tree_loop node' bits' is_glyph (S length) (S length)
                 (index node')
          else walk_tree_loop node' bits' is_glyph (S length) best_length idx
      end
  end%Z.

(** [walk_tree]; [None] is the thrown [std::logic_error].  The result is
    the returned length and the index written through the reference. *)
Definition walk_tree (tree : dicttree_t) (bits : bitstring_t)
  (is_glyph : bool) : option (nat * Z) :=
  let '(best_length, idx) := walk_tree_loop tree bits is_glyph 0 0 (-1) in
  if (idx <? 0)%Z then None else Some (best_length, idx).

Lemma walk_tree_loop_bounds node bits g len best idx :
  ((0 <= idx)%Z -> 1 <= best <= len) ->
  (0 <= snd (walk_tree_loop node bits g len best idx))%Z ->
  1 <= fst (walk_tree_loop node bits g len best idx) <= len + length bits.
Proof.
  revert node len best idx.
  induction bits as [|b bits IH]; intros node len best idx Hinv; simpl.
  - intros H. apply Hinv in H. lia.
  - destruct (walk node b) as [node'|]; simpl.
    + destruct ((g || negb (ref node')) && (0 <=? index node')%Z).
      * intros H. apply IH in H; lia.
      * intros H. apply IH in H; lia.
    + intros H. apply Hinv in H. lia.
Qed.

Lemma walk_tree_some tree bits g len idx :
  walk_tree tree bits g = Some (len, idx) ->
  1 <= len <= length bits /\ (0 <= idx)%Z.
Proof.
  unfold walk_tree.
  pose proof (@walk_tree_loop_bounds tree bits g 0 0 (-1)%Z) as H.
  destruct (walk_tree_loop tree bits g 0 0 (-1)) as [best i]; simpl in H.
  destruct (Z.ltb_spec i 0); [discriminate|].
  intros E; inversion E; subst. split; [apply H; lia | assumption].
Qed.

(** *** encode_ref *)

(** [while (end > 0 && bits.at(end - 1) != true) end--;] *)
Fixpoint strip_zeroes (bits : bitstring_t) (end_ : nat) : nat :=
  match end_ with
  | 0 => 0
  | S e => if nth e bits false then S e else strip_zeroes bits e
  end.

(** A value together with the equation that names it, for the loop below
    to know what [walk_tree] returned. *)
Definition inspect {A : Type} (a : A) : {b : A | a = b} :=
  exist _ a eq_refl.

(** The [while (i < end)] loop of [encode_ref]: the codes pushed from
    position [i] on, and the final [i].  [None] when [walk_tree] throws. *)
Equations? encode_ref_loop (tree : dicttree_t) (bits : bitstring_t)
  (is_glyph : bool) (end_ i : nat) : option (refstring_t * nat)
  by wf (end_ - i) lt :=
encode_ref_loop tree bits is_glyph end_ i with lt_dec i end_ := {
  | right _ => Some ([], i)
  | left Hi with inspect (walk_tree tree (skipn i bits) is_glyph) := {
    | exist _ None _ => None
    | exist _ (Some (len, idx)) Hwalk =>
        option_map (fun r => (to_uint8 idx :: fst r, snd r))
          (encode_ref_loop tree bits is_glyph end_ (i + len)) } }.
Proof. apply walk_tree_some in Hwalk. lia. Qed.

Definition encode_ref (bits : bitstring_t) (tree : dicttree_t)
  (is_glyph : bool) : option refstring_t :=
  let end_ :=
    if is_glyph then strip_zeroes bits (length bits) else length bits in
  match encode_ref_loop tree bits is_glyph end_ 0 with
  | None => None
  | Some (result, i) =>
      Some (if i <? length bits then result ++ [2%Z] else result)
  end.

(** *** encode_font *)

Definition cmp_dict_coding (a b : dictentry_t) : bool :=
  if (length (replacement a) =? 0) && negb (length (replacement b) =? 0)
  then false
  else if negb (length (replacement a) =? 0) && (length (replacement b) =? 0)
  then true
  else if negb (ref_encode a) && ref_encode b
  then true
  else false.

(** [std::stable_sort] with a comparator, as a stable insertion sort: an
    element moves in front of the sorted tail's elements it is strictly
    less than and stays behind everything else. *)
Section StableSort.
Context {A : Type}.
Variable less : A -> A -> bool.

Fixpoint stable_insert (x : A) (l : list A) : list A :=
  match l with
  | [] => [x]
  | y :: l' => if less y x then y :: stable_insert x l' else x :: y :: l'
  end.

Fixpoint stable_sort (l : list A) : list A :=
  match l with
  | [] => []
  | x :: l' => stable_insert x (stable_sort l')
  end.

End StableSort.

(** The dictionary loop of [encode_font]; [None] when [encode_ref] throws. *)
Fixpoint encode_dictionary (tree : dicttree_t) (sorted_dict : list dictentry_t)
  (rle : list rlestring_t) (refd : list refstring_t)
  : option (list rlestring_t * list refstring_t) :=
  match sorted_dict with
  | [] => Some (rle, refd)
  | d :: rest =>
      if length (replacement d) =? 0
      then encode_dictionary tree rest rle refd
      else if ref_encode d
      then match encode_ref (replacement d) tree false with
           | None => None
           | Some r => encode_dictionary tree rest rle (refd ++ [r])
           end
      else encode_dictionary tree rest
             (rle ++ [encode_rle (replacement d)]) refd
  end.

(** The glyph loop of [encode_font]. *)
Fixpoint encode_glyphs (tree : dicttree_t) (table : list glyphentry_t)
  (out : list refstring_t) : option (list refstring_t) :=
  match table with
  | [] => Some out
  | g :: rest =>
      match encode_ref (data g) tree true with
      | None => None
      | Some r => encode_glyphs tree rest (out ++ [r])
      end
  end.

Definition encode_font (datafile : DataFile) : option encoded_font_t :=
  let sorted_dict := stable_sort cmp_dict_coding (dictionary datafile) in
  let tree := construct_tree sorted_dict in
  match encode_dictionary tree sorted_dict [] [] with
  | None => None
  | Some (rle, refd) =>
      match encode_glyphs tree (glyphtable datafile) [] with
      | None => None
      | Some gl => Some (mk_encoded_font rle refd gl)
      end
  end.

(** *** get_encoded_size *)

Definition get_encoded_size (encoded : encoded_font_t) : nat :=
  let total := 0 in
  let total :=
    fold_left (fun total r =>
                 total + length r + (if negb (length r =? 0) then 2 else 0))
      (rle_dictionary encoded) total in
  let total :=
    fold_left (fun total r =>
                 total + length r + (if negb (length r =? 0) then 2 else 0))
      (ref_dictionary encoded) total in
  fold_left (fun total r => total + length r + 2 + 1) (glyphs encoded) total.

(** *** decode_glyph *)

(** A decoding either yields a value, throws [std::out_of_range] from
    [at()], or recurses deeper than the depth the model was given. *)
Inductive result (A : Type) : Type :=
| Ok (a : A)
| OutOfRange
| OutOfDepth.
Arguments Ok {A} a.
Arguments OutOfRange {A}.
Arguments OutOfDepth {A}.

(** The RLE branch for one byte: [rle & 0x7F] copies of [rle & 0x80]. *)
Definition decode_rle_byte (rle : Z) : bitstring_t :=
  repeat (negb (Z.land rle 128 =? 0)%Z) (Z.to_nat (Z.land rle 127)).

Definition decode_rle (r : rlestring_t) : bitstring_t :=
  flat_map decode_rle_byte r.

(** [std::vector::resize(n, false)] *)
Definition resize (n : nat) (bits : bitstring_t) : bitstring_t :=
  firstn n bits ++ repeat false (n - length bits).

(** The [for (uint8_t ref : refstring)] loop of [decode_glyph], with the
    recursive call passed in as [recurse]. *)
Fixpoint decode_refs (recurse : refstring_t -> result bitstring_t)
  (encoded : encoded_font_t) (fontinfo : fontinfo_t)
  (refstring : refstring_t) (result_ : bitstring_t) : result bitstring_t :=
  match refstring with
  | [] => Ok result_
  | r :: rest =>
      if r =? 0 then
        decode_refs recurse encoded fontinfo rest (result_ ++ [false])
      else if r =? 1 then
        decode_refs recurse encoded fontinfo rest (result_ ++ [true])
      else if r =? 2 then
        decode_refs recurse encoded fontinfo rest
          (resize (max_width fontinfo * max_height fontinfo) result_)
      else if r =? 3 then
        decode_refs recurse encoded fontinfo rest result_
      else if r - 4 <? to_int (Z.of_nat (length (rle_dictionary encoded))) then
        match nth_error (rle_dictionary encoded) (Z.to_nat (r - 4)) with
        | None => OutOfRange
        | Some rle =>
            decode_refs recurse encoded fontinfo rest
              (result_ ++ decode_rle rle)
        end
      else
        match nth_error (ref_dictionary encoded)
                (Z.to_nat (r - 4 - Z.of_nat (length (rle_dictionary encoded))))
        with
        | None => OutOfRange
        | Some sub =>
            match recurse sub with
            | Ok part =>
                decode_refs recurse encoded fontinfo rest (result_ ++ part)
            | OutOfRange => OutOfRange
            | OutOfDepth => OutOfDepth
            end
        end
  end%Z.

(** [decode_glyph(encoded, refstring, fontinfo)], allowed [depth] nested
    calls. *)
Fixpoint decode_glyph (depth : nat) (encoded : encoded_font_t)
  (refstring : refstring_t) (fontinfo : fontinfo_t) : result bitstring_t :=
  match depth with
  | 0 => OutOfDepth
  | S depth' =>
      decode_refs (fun sub => decode_glyph depth' encoded sub fontinfo)
        encoded fontinfo refstring []
  end.

(** [decode_glyph(encoded, index, fontinfo)] *)
Definition decode_glyph_at (depth : nat) (encoded : encoded_font_t)
  (index : nat) (fontinfo : fontinfo_t) : result bitstring_t :=
  match nth_error (glyphs encoded) index with
  | None => OutOfRange
  | Some refstring => decode_glyph depth encoded refstring fontinfo
  end.

(** *** Notions used to state properties *)

(** The root has both single-bit children, with index 0 and 1 and the ref
    flag clear. *)
Definition hardcoded_ok (root : dicttree_t) : Prop :=
  exists z o,
    zero root = Some z /\ one root = Some o
    /\ index z = 0%Z /\ ref z = false /\ index o = 1%Z /\ ref o = false.

(** The slots that hold a replacement. *)
Definition used_slots (l : list dictentry_t) : list dictentry_t :=
  filter (fun d => negb (length (replacement d) =? 0)) l.

(** The DataFile with [n] more empty slots at the end of the dictionary. *)
Definition with_free_slots (datafile : DataFile) (n : nat) : DataFile :=
  mk_DataFile (dictionary datafile ++ repeat empty_dictentry n)
    (glyphtable datafile) (fontinfo datafile) (seed datafile).

(** One byte per bit of every slot, and its offset table entry. *)
Definition dict_bits (l : list dictentry_t) : nat :=
  list_sum (map (fun d => length (replacement d) + 2) l).

(** One byte per bit of every glyph, and its offset and width entries. *)
Definition glyph_bits (l : list glyphentry_t) : nat :=
  list_sum (map (fun g => length (data g) + 3) l).

(** The size of a font of one byte per bit, with the table entries. *)
Definition size_bound (datafile : DataFile) : nat :=
  dict_bits (dictionary datafile) + glyph_bits (glyphtable datafile).

(** The bit value and the run length a byte of an RLE string stands
    for. *)
Definition run_bit (b : Z) : bool := negb (Z.land b 128 =? 0)%Z.
Definition run_length (b : Z) : nat := Z.to_nat (Z.land b 127).

(** Whether a slot holds a replacement. *)
Definition used (d : dictentry_t) : bool :=
  negb (length (replacement d) =? 0).

(** The test of [walk_tree] on the node it has moved to: the node may be
    reported when it carries an index and, outside glyphs, is not ref
    coded. *)
Definition eligible (is_glyph : bool) (n : dicttree_t) : bool :=
  (is_glyph || negb (ref n)) && (0 <=? index n)%Z.

(** The bytes of a list of strings. *)
Definition total_length (l : list (list Z)) : nat :=
  list_sum (map (@length Z) l).

End Encode.

(** ** optimize.cc *)

Module Optimize.
Import Encode.

(** [size_t] subtraction, which wraps below zero. *)
Definition size_sub (a b : Z) : Z := (a - b) mod 2 ^ 64.

(** Conversion of an [int] to [size_t]. *)
Definition to_size_t (z : Z) : Z := z mod 2 ^ 64.

(** [std::mt19937] and [std::uniform_int_distribution<size_t>] belong to the
    C++ library; the optimizer only relies on their interface: a generator
    is built from a seed, and a draw from the distribution on [a, b]
    returns a value in that range and the advanced generator. *)
Class UniformRandom (rnd_t : Type) : Type := {
  rnd_seed : Z -> rnd_t;
  uniform_int_distribution : Z -> Z -> rnd_t -> Z * rnd_t;
  uniform_int_distribution_range :
    forall a b rnd, (a <= b)%Z ->
      (a <= fst (uniform_int_distribution a b rnd) <= b)%Z
}.

(** Calls that throw or have no defined behaviour yield [None]. *)
Notation "x <- c ;; k" := (match c with Some x => k | None => None end)
  (at level 61, c at next level, right associativity).
Notation "' p <- c ;; k" := (match c with Some p => k | None => None end)
  (at level 61, p pattern, c at next level, right associativity).

(** *** The DataFile interface *)

(** Modelled from the spec: [GetGlyphCount()] of the DataFile class
    (datafile.hh). *)
Definition GetGlyphCount (datafile : DataFile) : nat :=
  length (glyphtable datafile).

(** Modelled from the spec: [GetGlyphEntry(i)]; an index outside the table
    throws. *)
Definition GetGlyphEntry (datafile : DataFile) (index : nat)
  : option glyphentry_t :=
  nth_error (glyphtable datafile) index.

(** Modelled from the spec: [GetDictionaryEntry(i)]; an index outside the
    dictionary throws. *)
Definition GetDictionaryEntry (datafile : DataFile) (index : nat)
  : option dictentry_t :=
  nth_error (dictionary datafile) index.

(** [l] with position [i] overwritten by [x] ([i] within the list). *)
Definition set_nth {A : Type} (l : list A) (i : nat) (x : A) : list A :=
  firstn i l ++ x :: skipn (S i) l.

(** Modelled from the spec: [SetDictionaryEntry(i, entry)] stores the entry
    in slot [i]; an index outside the dictionary throws. *)
Definition SetDictionaryEntry (datafile : DataFile) (index : nat)
  (value : dictentry_t) : option DataFile :=
  if index <? length (dictionary datafile)
  then Some (mk_DataFile (set_nth (dictionary datafile) index value)
               (glyphtable datafile) (fontinfo datafile) (seed datafile))
  else None.

(** The score [GetLowScoreIndex] compares: an empty slot counts as 0. *)
Definition low_score (d : dictentry_t) : Z :=
  if length (replacement d) =? 0 then 0%Z else score d.

Fixpoint low_score_index (l : list dictentry_t) (i best : nat)
  (best_score : Z) : nat :=
  match l with
  | [] => best
  | d :: l' =>
      if (low_score d <? best_score)%Z
      then low_score_index l' (S i) i (low_score d)
      else low_score_index l' (S i) best best_score
  end.

(** Modelled from the spec: [GetLowScoreIndex()] is the slot index with the
    lowest score, empty slots treated as score 0; the first such slot. *)
Definition GetLowScoreIndex (datafile : DataFile) : nat :=
  match dictionary datafile with
  | [] => 0
  | d :: l => low_score_index l 1 0 (low_score d)
  end.

(** Modelled from the spec: [GetSeed()] and [SetSeed(u32)]. *)
Definition GetSeed (datafile : DataFile) : Z := seed datafile.

Definition SetSeed (datafile : DataFile) (s : Z) : DataFile :=
  mk_DataFile (dictionary datafile) (glyphtable datafile) (fontinfo datafile)
    (s mod 2 ^ 32).

(** Modelled from the spec: [get_encoded_size(const DataFile &)] (encode.hh)
    measures a freshly produced [encode_font] result. *)
Definition get_encoded_size_of (datafile : DataFile) : option nat :=
  option_map get_encoded_size (encode_font datafile).

(** Assignments to one field of an entry. *)
Definition set_replacement (d : dictentry_t) (r : bitstring_t)
  : dictentry_t :=
  mk_dictentry r (score d) (ref_encode d).

Definition set_score (d : dictentry_t) (s : Z) : dictentry_t :=
  mk_dictentry (replacement d) s (ref_encode d).

Definition set_ref_encode (d : dictentry_t) (r : bool) : dictentry_t :=
  mk_dictentry (replacement d) (score d) r.

(** [std::vector::erase(first, last)] on positions; the iterators must
    delimit a range of the vector. *)
Definition erase (v : bitstring_t) (first last : Z) : option bitstring_t :=
  if ((0 <=? first) && (first <=? last) && (last <=? Z.of_nat (length v)))%Z
  then Some (firstn (Z.to_nat first) v ++ skipn (Z.to_nat last) v)
  else None.

(** Everything but the content of the dictionary slots. *)
Definition same_font (a b : DataFile) : Prop :=
  glyphtable a = glyphtable b /\ fontinfo a = fontinfo b
  /\ seed a = seed b /\ length (dictionary a) = length (dictionary b).

(** [sub] is a run of at least 2 consecutive bits of a glyph. *)
Definition glyph_slice (datafile : DataFile) (sub : bitstring_t) : Prop :=
  2 <= length sub
  /\ exists g start,
       In g (glyphtable datafile)
       /\ start + length sub <= length (data g)
       /\ sub = firstn (length sub) (skipn start (data g)).

Section Optimizer.

(** Modelled from the spec: the constant [DataFile::dictionarysize]
    (datafile.hh), the number of dictionary slots. *)
Variable dictionarysize : nat.

Context {rnd_t : Type} {RND : UniformRandom rnd_t}.

(** A draw [dist(rnd)] from [uniform_int_distribution<size_t> dist(a, b)];
    the distribution requires [a <= b]. *)
Definition draw (a b : Z) (rnd : rnd_t) : option (Z * rnd_t) :=
  if (a <=? b)%Z then Some (uniform_int_distribution a b rnd) else None.

(** *** random_substring *)

Definition random_substring (datafile : DataFile) (rnd : rnd_t)
  : option (bitstring_t * rnd_t) :=
  '(index, rnd) <-
    draw 0 (size_sub (Z.of_nat (GetGlyphCount datafile)) 1) rnd ;;
  g <- GetGlyphEntry datafile (Z.to_nat index) ;;
  let bitstring := data g in
  '(len, rnd) <- draw 2 (Z.of_nat (length bitstring)) rnd ;;
  '(start, rnd) <- draw 0 (size_sub (Z.of_nat (length bitstring)) len) rnd ;;
  Some (firstn (Z.to_nat len) (skipn (Z.to_nat start) bitstring), rnd).

(** *** The operators *)

(** The tail shared by the six single-slot operators:
    [newsize = get_encoded_size(trial); if (newsize < size) { ... }].
    Returns the live DataFile and the tracked size. *)
Definition accept (datafile trial : DataFile) (size : nat) (index : nat)
  (d : dictentry_t) : option (DataFile * nat) :=
  newsize <- get_encoded_size_of trial ;;
  if newsize <? size
  then
    let d :=
      set_score d (to_int (size_sub (Z.of_nat size) (Z.of_nat newsize))) in
    datafile <- SetDictionaryEntry datafile index d ;;
    Some (datafile, newsize)
  else Some (datafile, size).

(** The mutation of [optimize_worst]: the trial, the slot and its entry. *)
Definition worst_trial (datafile : DataFile) (rnd : rnd_t)
  : option (DataFile * nat * dictentry_t * rnd_t) :=
  let trial := datafile in
  let worst := GetLowScoreIndex trial in
  d <- GetDictionaryEntry trial worst ;;
  '(sub, rnd) <- random_substring datafile rnd ;;
  let d := set_replacement d sub in
  trial <- SetDictionaryEntry trial worst d ;;
  Some (trial, worst, d, rnd).

Definition optimize_worst (datafile : DataFile) (size : nat) (rnd : rnd_t)
  : option (DataFile * nat * rnd_t) :=
  '(trial, worst, d, rnd) <- worst_trial datafile rnd ;;
  '(datafile, size) <- accept datafile trial size worst d ;;
  Some (datafile, size, rnd).

Definition any_trial (datafile : DataFile) (rnd : rnd_t)
  : option (DataFile * nat * dictentry_t * rnd_t) :=
  let trial := datafile in
  '(index, rnd) <- draw 0 (size_sub (Z.of_nat dictionarysize) 1) rnd ;;
  let index := Z.to_nat index in
  d <- GetDictionaryEntry trial index ;;
  '(sub, rnd) <- random_substring datafile rnd ;;
  let d := set_replacement d sub in
  trial <- SetDictionaryEntry trial index d ;;
  Some (trial, index, d, rnd).

Definition optimize_any (datafile : DataFile) (size : nat) (rnd : rnd_t)
  : option (DataFile * nat * rnd_t) :=
  '(trial, index, d, rnd) <- any_trial datafile rnd ;;
  '(datafile, size) <- accept datafile trial size index d ;;
  Some (datafile, size, rnd).

(** The [for (i < count)] loop of [optimize_expand]. *)
Fixpoint expand_bits (count : nat) (r : bitstring_t) (rnd : rnd_t)
  : option (bitstring_t * rnd_t) :=
  match count with
  | 0 => Some (r, rnd)
  | S count' =>
      '(bit, rnd) <- draw 0 1 rnd ;;
      '(prepend, rnd) <- draw 0 1 rnd ;;
      let bit := negb (bit =? 0)%Z in
      if negb (prepend =? 0)%Z
      then expand_bits count' (bit :: r) rnd
      else expand_bits count' (r ++ [bit]) rnd
  end.

Definition expand_trial (datafile : DataFile) (rnd : rnd_t)
  : option (DataFile * nat * dictentry_t * rnd_t) :=
  let trial := datafile in
  '(index, rnd) <- draw 0 (size_sub (Z.of_nat dictionarysize) 1) rnd ;;
  let index := Z.to_nat index in
  d <- GetDictionaryEntry trial index ;;
  '(count, rnd) <- draw 1 10 rnd ;;
  '(r, rnd) <- expand_bits (Z.to_nat count) (replacement d) rnd ;;
  let d := set_replacement d r in
  trial <- SetDictionaryEntry trial index d ;;
  Some (trial, index, d, rnd).

Definition optimize_expand (datafile : DataFile) (size : nat) (rnd : rnd_t)
  : option (DataFile * nat * rnd_t) :=
  '(trial, index, d, rnd) <- expand_trial datafile rnd ;;
  '(datafile, size) <- accept datafile trial size index d ;;
  Some (datafile, size, rnd).

(** The two [erase] calls of [optimize_trim] for drawn [start] and [end]. *)
Definition trim_replacement (r : bitstring_t) (start end_ : Z)
  : option bitstring_t :=
  r <- (if negb (start =? 0)%Z then erase r 0 (0 + start) else Some r) ;;
  if negb (end_ =? 0)%Z
  then erase r (Z.of_nat (length r) - end_) (Z.of_nat (length r) - 1)
  else Some r.

(** The mutation of [optimize_trim]; the inner [None] is the early
    [return] on a replacement of at most 2 bits.  The drawn [start] and
    [end] are returned with the trial. *)
Definition trim_trial (datafile : DataFile) (rnd : rnd_t)
  : option (option (DataFile * nat * dictentry_t * Z * Z) * rnd_t) :=
  let trial := datafile in
  '(index, rnd) <- draw 0 (size_sub (Z.of_nat dictionarysize) 1) rnd ;;
  let index := Z.to_nat index in
  d <- GetDictionaryEntry trial index ;;
  if length (replacement d) <=? 2 then Some (None, rnd) else
  let bound :=
    to_size_t (Z.min (Z.quot (to_int (Z.of_nat (length (replacement d)))) 2) 5) in
  '(start, rnd) <- draw 0 bound rnd ;;
  '(end_, rnd) <- draw 0 bound rnd ;;
  r <- trim_replacement (replacement d) start end_ ;;
  let d := set_replacement d r in
  trial <- SetDictionaryEntry trial index d ;;
  Some (Some (trial, index, d, start, end_), rnd).

Definition optimize_trim (datafile : DataFile) (size : nat) (rnd : rnd_t)
  : option (DataFile * nat * rnd_t) :=
  '(mutation, rnd) <- trim_trial datafile rnd ;;
  match mutation with
  | None => Some (datafile, size, rnd)
  | Some (trial, index, d, _, _) =>
      '(datafile, size) <- accept datafile trial size index d ;;
      Some (datafile, size, rnd)
  end.

Definition refdict_trial (datafile : DataFile) (rnd : rnd_t)
  : option (DataFile * nat * dictentry_t * rnd_t) :=
  let trial := datafile in
  '(index, rnd) <- draw 0 (size_sub (Z.of_nat dictionarysize) 1) rnd ;;
  let index := Z.to_nat index in
  d <- GetDictionaryEntry trial index ;;
  let d := set_ref_encode d (negb (ref_encode d)) in
  trial <- SetDictionaryEntry trial index d ;;
  Some (trial, index, d, rnd).

Definition optimize_refdict (datafile : DataFile) (size : nat) (rnd : rnd_t)
  : option (DataFile * nat * rnd_t) :=
  '(trial, index, d, rnd) <- refdict_trial datafile rnd ;;
  '(datafile, size) <- accept datafile trial size index d ;;
  Some (datafile, size, rnd).

Definition combine_trial (datafile : DataFile) (rnd : rnd_t)
  : option (DataFile * nat * dictentry_t * rnd_t) :=
  let trial := datafile in
  let worst := GetLowScoreIndex datafile in
  '(index1, rnd) <- draw 0 (size_sub (Z.of_nat dictionarysize) 1) rnd ;;
  '(index2, rnd) <- draw 0 (size_sub (Z.of_nat dictionarysize) 1) rnd ;;
  part1 <- GetDictionaryEntry datafile (Z.to_nat index1) ;;
  part2 <- GetDictionaryEntry datafile (Z.to_nat index2) ;;
  let d := mk_dictentry (replacement part1 ++ replacement part2) 0 true in
  trial <- SetDictionaryEntry trial worst d ;;
  Some (trial, worst, d, rnd).

Definition optimize_combine (datafile : DataFile) (size : nat) (rnd : rnd_t)
  : option (DataFile * nat * rnd_t) :=
  '(trial, worst, d, rnd) <- combine_trial datafile rnd ;;
  '(datafile, size) <- accept datafile trial size worst d ;;
  Some (datafile, size, rnd).

(** The [for (i < dropcount)] loop of [optimize_bigjump]. *)
Fixpoint bigjump_drop (dropcount : nat) (trial : DataFile) (rnd : rnd_t)
  : option (DataFile * rnd_t) :=
  match dropcount with
  | 0 => Some (trial, rnd)
  | S dropcount' =>
      '(index, rnd) <- draw 0 (size_sub (Z.of_nat dictionarysize) 1) rnd ;;
      let index := Z.to_nat index in
      d <- GetDictionaryEntry trial index ;;
      let d := set_score (set_replacement d []) 0 in
      trial <- SetDictionaryEntry trial index d ;;
      bigjump_drop dropcount' trial rnd
  end.

(** The [for (i < 25)] loop of [optimize_bigjump]. *)
Fixpoint bigjump_search (rounds : nat) (trial : DataFile) (newsize : nat)
  (rnd : rnd_t) : option (DataFile * nat * rnd_t) :=
  match rounds with
  | 0 => Some (trial, newsize, rnd)
  | S rounds' =>
      '(trial, newsize, rnd) <- optimize_worst trial newsize rnd ;;
      '(trial, newsize, rnd) <- optimize_any trial newsize rnd ;;
      '(trial, newsize, rnd) <- optimize_expand trial newsize rnd ;;
      '(trial, newsize, rnd) <- optimize_refdict trial newsize rnd ;;
      '(trial, newsize, rnd) <- optimize_combine trial newsize rnd ;;
      bigjump_search rounds' trial newsize rnd
  end.

(** The trial of [optimize_bigjump] and its tracked size [newsize]. *)
Definition bigjump_trial (datafile : DataFile) (rnd : rnd_t)
  : option (DataFile * nat * rnd_t) :=
  let trial := datafile in
  '(dropcount, rnd) <- draw 1 20 rnd ;;
  let dropcount := to_int dropcount in
  '(trial, rnd) <- bigjump_drop (Z.to_nat dropcount) trial rnd ;;
  newsize <- get_encoded_size_of trial ;;
  bigjump_search 25 trial newsize rnd.

Definition optimize_bigjump (datafile : DataFile) (size : nat) (rnd : rnd_t)
  : option (DataFile * nat * rnd_t) :=
  '(trial, newsize, rnd) <- bigjump_trial datafile rnd ;;
  if newsize <? size
  then Some (trial, newsize, rnd)
  else Some (datafile, size, rnd).

(** *** update_scores *)

(** The body of the [for (i < dictionarysize)] loop of [update_scores]. *)
Definition update_score (oldsize : nat) (datafile : DataFile) (i : nat)
  : option DataFile :=
  let dummy := empty_dictentry in
  trial <- SetDictionaryEntry datafile i dummy ;;
  newsize <- get_encoded_size_of trial ;;
  d <- GetDictionaryEntry datafile i ;;
  let d :=
    set_score d (to_int (size_sub (Z.of_nat newsize) (Z.of_nat oldsize))) in
  if (score d >? 0)%Z
  then SetDictionaryEntry datafile i d
  else SetDictionaryEntry datafile i dummy.

Fixpoint update_scores_loop (oldsize : nat) (slots : list nat)
  (datafile : DataFile) : option DataFile :=
  match slots with
  | [] => Some datafile
  | i :: slots' =>
      datafile <- update_score oldsize datafile i ;;
      update_scores_loop oldsize slots' datafile
  end.

Definition update_scores (datafile : DataFile) : option DataFile :=
  oldsize <- get_encoded_size_of datafile ;;
  update_scores_loop oldsize (seq 0 dictionarysize) datafile.

(** *** optimize *)

(** The [for (i < iterations)] loop of [optimize]. *)
Fixpoint optimize_loop (iterations : nat) (datafile : DataFile) (size : nat)
  (rnd : rnd_t) : option (DataFile * nat * rnd_t) :=
  match iterations with
  | 0 => Some (datafile, size, rnd)
  | S iterations' =>
      '(datafile, size, rnd) <- optimize_worst datafile size rnd ;;
      '(datafile, size, rnd) <- optimize_any datafile size rnd ;;
      '(datafile, size, rnd) <- optimize_expand datafile size rnd ;;
      '(datafile, size, rnd) <- optimize_trim datafile size rnd ;;
      '(datafile, size, rnd) <- optimize_refdict datafile size rnd ;;
      '(datafile, size, rnd) <- optimize_combine datafile size rnd ;;
      optimize_loop iterations' datafile size rnd
  end.

Definition optimize (datafile : DataFile) (iterations : nat)
  : option DataFile :=
  let rnd := rnd_seed (GetSeed datafile) in
  datafile <- update_scores datafile ;;
  size <- get_encoded_size_of datafile ;;
  '(datafile, size, rnd) <- optimize_loop iterations datafile size rnd ;;
  '(s, rnd) <- draw 0 (2 ^ 32 - 1) rnd ;;
  Some (SetSeed datafile s).

(** *** init_dictionary *)

(** [std::set<DataFile::bitstring_t>], of which [init_dictionary] only uses
    [count] and [insert]: the elements, each held once. *)
Definition substring_set : Type := list bitstring_t.

Definition set_count (s : substring_set) (x : bitstring_t) : nat :=
  if in_dec (list_eq_dec bool_dec) x s then 1 else 0.

Definition set_insert (s : substring_set) (x : bitstring_t) : substring_set :=
  if in_dec (list_eq_dec bool_dec) x s then s else x :: s.

(** The variables of the [while] loop of [init_dictionary]. *)
Record init_state : Type := mk_init_state {
  init_datafile : DataFile;
  init_rnd : rnd_t;
  seen_substrings : substring_set;
  added_substrings : substring_set;
  init_i : nat
}.

(** One turn of the loop body.  The entry [d] starts as a
    default-constructed [dictentry_t] (modelled from the spec: empty, with
    the flag clear) and gets its score and replacement assigned. *)
Definition init_dictionary_step (st : init_state) : option init_state :=
  let datafile := init_datafile st in
  '(substring, rnd) <- random_substring datafile (init_rnd st) ;;
  if set_count (seen_substrings st) substring =? 0
  then Some (mk_init_state datafile rnd
               (set_insert (seen_substrings st) substring)
               (added_substrings st) (init_i st))
  else if set_count (added_substrings st) substring =? 0
  then
    let d := empty_dictentry in
    let d := set_score d 0 in
    let d := set_replacement d substring in
    datafile <- SetDictionaryEntry datafile (init_i st) d ;;
    Some (mk_init_state datafile rnd (seen_substrings st)
            (set_insert (added_substrings st) substring) (S (init_i st)))
  else Some (mk_init_state datafile rnd (seen_substrings st)
               (added_substrings st) (init_i st)).

(** [while (i < DataFile::dictionarysize)], run for at most [fuel] turns:
    the outer [None] is a throw or an undefined draw, the inner [None] a
    loop that is still running when the turns are used up. *)
Fixpoint init_dictionary_loop (fuel : nat) (st : init_state)
  : option (option init_state) :=
  if init_i st <? dictionarysize
  then match fuel with
       | 0 => Some None
       | S fuel' =>
           st <- init_dictionary_step st ;;
           init_dictionary_loop fuel' st
       end
  else Some (Some st).

Definition init_dictionary (fuel : nat) (datafile : DataFile)
  : option (option DataFile) :=
  let rnd := rnd_seed (GetSeed datafile) in
  final <- init_dictionary_loop fuel (mk_init_state datafile rnd [] [] 0) ;;
  Some (option_map init_datafile final).

(** An operator keeps [size] equal to the encoded size of the live
    DataFile and never increases it. *)
Definition never_grows
  (op : DataFile -> nat -> rnd_t -> option (DataFile * nat * rnd_t)) : Prop :=
  forall datafile size rnd datafile' size' rnd',
    op datafile size rnd = Some (datafile', size', rnd') ->
    get_encoded_size_of datafile = Some size ->
    get_encoded_size_of datafile' = Some size' /\ size' <= size.

(** A DataFile the optimizer can work on: [dictionarysize] slots, at least
    one, and at least one glyph, every glyph of at least 2 bits; all
    counts are [size_t] values. *)
Definition well_formed (datafile : DataFile) : Prop :=
  length (dictionary datafile) = dictionarysize
  /\ 1 <= dictionarysize
  /\ (Z.of_nat dictionarysize < 2 ^ 64)%Z
  /\ 1 <= length (glyphtable datafile)
  /\ (Z.of_nat (length (glyphtable datafile)) < 2 ^ 64)%Z
  /\ Forall (fun g => 2 <= length (data g)
                      /\ (Z.of_nat (length (data g)) < 2 ^ 64)%Z)
       (glyphtable datafile).

(** Every replacement has a length that fits the [int] of
    [optimize_trim]. *)
Definition short_entries (datafile : DataFile) : Prop :=
  Forall (fun d => (Z.of_nat (length (replacement d)) < 2 ^ 31)%Z)
    (dictionary datafile).

(** No replacement and no glyph is longer than [m] bits. *)
Definition bits_within (m : nat) (datafile : DataFile) : Prop :=
  Forall (fun d => length (replacement d) <= m) (dictionary datafile)
  /\ Forall (fun g => length (data g) <= m) (glyphtable datafile).

(** An operator returns on every well-formed DataFile, and leaves it
    well-formed. *)
Definition defined_on
  (op : DataFile -> nat -> rnd_t -> option (DataFile * nat * rnd_t)) : Prop :=
  forall datafile size rnd,
    well_formed datafile ->
    exists datafile' size' rnd',
      op datafile size rnd = Some (datafile', size', rnd')
      /\ well_formed datafile'.

(** An operator changes nothing but dictionary slots. *)
Definition keeps_font
  (op : DataFile -> nat -> rnd_t -> option (DataFile * nat * rnd_t)) : Prop :=
  forall datafile size rnd datafile' size' rnd',
    op datafile size rnd = Some (datafile', size', rnd') ->
    same_font datafile datafile'.

(** An operator that does not return the DataFile as it was has lowered
    the tracked size and rewritten one slot, whose score is the number of
    bytes gained. *)
Definition records_gain
  (op : DataFile -> nat -> rnd_t -> option (DataFile * nat * rnd_t)) : Prop :=
  forall datafile size rnd datafile' size' rnd',
    op datafile size rnd = Some (datafile', size', rnd') ->
    (Z.of_nat size < 2 ^ 31)%Z ->
    (datafile' = datafile /\ size' = size)
    \/ (size' < size
        /\ exists index d,
             nth_error (dictionary datafile') index = Some d
             /\ score d = (Z.of_nat size - Z.of_nat size')%Z
             /\ forall j, j <> index ->
                  nth_error (dictionary datafile') j
                  = nth_error (dictionary datafile) j).

End Optimizer.

(** What the two [erase] calls leave: [start] bits are removed from the
    front; a non-zero [end] removes the [end - 1] bits in front of the last
    bit, which stays. *)
Definition trimmed (old : bitstring_t) (start end_ : nat) : bitstring_t :=
  if end_ =? 0 then skipn start old
  else firstn (length old - start - end_) (skipn start old)
       ++ [last old false].

End Optimize.

(** ** Sample fonts and a scripted generator *)

Module Samples.
Import Encode Optimize.

(** A generator that replays a script of raw values, reduced into the
    requested range; an exhausted script yields the lower bound. *)
Definition replay_draw (a b : Z) (rnd : list Z) : Z * list Z :=
  match rnd with
  | [] => (a, [])
  | x :: rest => ((a + x mod (b - a + 1))%Z, rest)
  end.

Lemma replay_draw_range a b rnd :
  (a <= b)%Z -> (a <= fst (replay_draw a b rnd) <= b)%Z.
Proof.
  intros H. destruct rnd as [|x rest]; simpl; [lia|].
  pose proof (Z.mod_pos_bound x (b - a + 1)). lia.
Qed.

#[global] Instance replay_rnd : UniformRandom (list Z) := {|
  rnd_seed := fun s => [s; s + 1; s + 2; s + 3; s + 4; s + 5]%Z;
  uniform_int_distribution := replay_draw;
  uniform_int_distribution_range := replay_draw_range
|}.

(** A 2x1 font whose only slot holds an unused entry. *)
Definition unused_entry_font : DataFile :=
  mk_DataFile [mk_dictentry [true; true] 0 false]
    [mk_glyphentry [true; false] 2] (mk_fontinfo 2 1) 7.

(** A 2x1 font whose slot shrinks to the glyph under a trim. *)
Definition trim_font : DataFile :=
  mk_DataFile [mk_dictentry [false; true; true; false] 0 false]
    [mk_glyphentry [true; false] 2] (mk_fontinfo 2 1) 7.

(** A 2x1 font with a single-bit entry in front of a two-bit entry. *)
Definition single_bit_font : DataFile :=
  mk_DataFile [mk_dictentry [true] 0 false; mk_dictentry [true; true] 0 false]
    [mk_glyphentry [true; true] 2] (mk_fontinfo 2 1) 7.

(** A 2x1 font whose first two slots hold the same bits. *)
Definition duplicate_font : DataFile :=
  mk_DataFile
    [mk_dictentry [true; true] 0 false; mk_dictentry [true; true] 0 false;
     mk_dictentry [true; false] 0 false]
    [mk_glyphentry [true; false] 2] (mk_fontinfo 2 1) 7.

(** A 2x2 font with an RLE entry, a ref entry built on it and a free
    slot. *)
Definition small_font : DataFile :=
  mk_DataFile
    [mk_dictentry [false; true; false] 0 true;
     mk_dictentry [true; false] 0 false;
     empty_dictentry]
    [mk_glyphentry [false; true; false; false] 2;
     mk_glyphentry [true; false; true; false] 2;
     mk_glyphentry [false; false; false; false] 2]
    (mk_fontinfo 2 2) 7.

(** A 4x2 font of three equal glyphs and two free slots. *)
Definition repeated_font : DataFile :=
  let g := mk_glyphentry
             [true; false; true; true; true; false; true; true] 4 in
  mk_DataFile [empty_dictentry; empty_dictentry] [g; g; g]
    (mk_fontinfo 4 2) 4.

(** A 2x1 font with one free slot. *)
Definition blank_font : DataFile :=
  mk_DataFile [empty_dictentry] [mk_glyphentry [true; false] 2]
    (mk_fontinfo 2 1) 7.

(** A 12x1 font with an unused slot in front of a slot the glyph uses. *)
Definition stale_score_font : DataFile :=
  mk_DataFile
    [mk_dictentry [true; true] 0 false;
     mk_dictentry [true; false; true; false] 0 false]
    [mk_glyphentry
       [true; false; true; false; true; false; true; false; true; false;
        true; false] 12]
    (mk_fontinfo 12 1) 7.

(** The trim of [trim_font] with index 0, [start] 1 and [end] 2 drawn. *)
Definition trim_script : list Z := [0; 1; 2]%Z.

(** Twelve draws of the lower bound. *)
Definition low_script : list Z := repeat 0%Z 12.

(** A 2x1 font of one glyph with two slots to fill. *)
Definition narrow_font : DataFile :=
  mk_DataFile [empty_dictentry; empty_dictentry]
    [mk_glyphentry [true; false] 2] (mk_fontinfo 2 1) 7.

End Samples.

(** ** Properties of the encoder *)

Module EncodeSpec.
Import Encode Samples.

(** *** Run-length coding *)

Lemma rle_byte_table :
  forallb (fun c =>
    forallb (fun bit =>
      (Z.land (rle_byte bit c) 127 =? Z.of_nat c)%Z
      && Bool.eqb (negb (Z.land (rle_byte bit c) 128 =? 0)%Z) bit)
      [true; false])
    (seq 1 127) = true.
Proof. vm_compute. reflexivity. Qed.

Lemma decode_rle_byte_rle_byte bit c :
  1 <= c <= 127 -> decode_rle_byte (rle_byte bit c) = repeat bit c.
Proof.
  intros Hc.
  pose proof rle_byte_table as T.
  rewrite forallb_forall in T.
  specialize (T c). rewrite in_seq in T.
  assert (Hin : 1 <= c < 1 + 127) by lia.
  apply T in Hin. rewrite forallb_forall in Hin.
  assert (Hb : In bit [true; false]) by (destruct bit; simpl; auto).
  apply Hin in Hb. apply andb_true_iff in Hb as [Hlen Hbit].
  apply Z.eqb_eq in Hlen. apply eqb_prop in Hbit.
  unfold decode_rle_byte. rewrite Hlen, Hbit, Nat2Z.id. reflexivity.
Qed.

Lemma run_count_spec bits pos bit count :
  count <= 127 -> pos + count <= length bits ->
  (forall k, k < count -> nth (pos + k) bits false = bit) ->
  count <= run_count bits pos bit count <= 127
  /\ pos + run_count bits pos bit count <= length bits
  /\ (forall k, k < run_count bits pos bit count ->
        nth (pos + k) bits false = bit).
Proof.
  funelim (run_count bits pos bit count); intros Hmax Hin Hrun.
  - repeat split; auto; lia.
  - repeat split; auto; lia.
  - assert (Hstep : count <= run_count bits pos bit (S count) <= 127
        /\ pos + run_count bits pos bit (S count) <= length bits
        /\ (forall k, k < run_count bits pos bit (S count) ->
              nth (pos + k) bits false = bit)).
    { pose proof (run_count_ge bits pos bit (S count)) as Hge.
      destruct H as (Hb & Hl & Hr); try lia.
      - intros k Hk. destruct (Nat.eq_dec k count) as [->|Hne];
          [assumption | apply Hrun; lia].
      - repeat split; auto; lia. }
    exact Hstep.
  - repeat split; auto; lia.
Qed.

Lemma skipn_cons_nth {A : Type} (d : A) (l : list A) pos :
  pos < length l -> skipn pos l = nth pos l d :: skipn (S pos) l.
Proof.
  revert pos; induction l as [|x l IH]; intros [|pos] H; simpl in *;
    try lia; auto.
  apply IH. lia.
Qed.

Lemma skipn_run bits bit c : forall pos,
  pos + c <= length bits ->
  (forall k, k < c -> nth (pos + k) bits false = bit) ->
  skipn pos bits = repeat bit c ++ skipn (pos + c) bits.
Proof.
  induction c as [|c IH]; intros pos Hin Hrun.
  - rewrite Nat.add_0_r. reflexivity.
  - rewrite (skipn_cons_nth false) by lia.
    rewrite <- (Nat.add_0_r pos) at 1. rewrite Hrun by lia.
    cbn [repeat app]. f_equal. replace (pos + S c) with (S pos + c) by lia.
    apply IH; [lia|].
    intros k Hk. replace (S pos + k) with (pos + S k) by lia.
    apply Hrun. lia.
Qed.

Lemma decode_rle_encode_rle_from bits pos :
  decode_rle (encode_rle_from bits pos) = skipn pos bits.
Proof.
  funelim (encode_rle_from bits pos).
  - set (bit := nth pos bits false) in *.
    destruct (@run_count_spec bits pos bit 1) as (Hb & Hl & Hr);
      try lia.
    { intros k Hk. replace k with 0 by lia. rewrite Nat.add_0_r.
      reflexivity. }
    unfold decode_rle in *. cbn [flat_map]. rewrite H.
    rewrite decode_rle_byte_rle_byte by lia.
    symmetry. apply skipn_run; assumption.
  - symmetry. apply skipn_all2. lia.
Qed.

Lemma decode_rle_encode_rle (b : bitstring_t) :
  decode_rle (encode_rle b) = b.
Proof.
  unfold encode_rle. rewrite decode_rle_encode_rle_from. reflexivity.
Qed.

(** C6.  Expanding the bytes of [encode_rle b] the way the decoder's RLE
    branch does gives back [b], for every bit string; the decoder reaches
    that branch through code 4 when the string is the first RLE entry.
    In particular [1,1,1,0,0] is coded as [0x83, 0x02] and restored. *)
Theorem encode_rle_roundtrip :
  (forall b : bitstring_t, decode_rle (encode_rle b) = b)
  /\ (forall (b : bitstring_t) (fontinfo : fontinfo_t) (depth : nat),
        decode_glyph (S depth) (mk_encoded_font [encode_rle b] [] []) [4%Z]
          fontinfo = Ok b)
  /\ encode_rle [true; true; true; false; false] = [131%Z; 2%Z]
  /\ decode_rle [131%Z; 2%Z] = [true; true; true; false; false].
Proof.
  split; [exact decode_rle_encode_rle|]. split; [|split; reflexivity].
  intros b fontinfo depth. simpl. rewrite decode_rle_encode_rle.
  reflexivity.
Qed.

(** *** The hardcoded entries and walk_tree *)

Lemma insert_entry_indexed node bits i r :
  (0 <= index node)%Z ->
  index (fst (insert_entry node bits i r)) = index node
  /\ ref (fst (insert_entry node bits i r)) = ref node.
Proof.
  intros Hidx. destruct bits as [|b bits]; simpl.
  - destruct (Z.ltb_spec (index node) 0); [lia|]. auto.
  - destruct (insert_entry _ bits i r) as [branch' i'].
    destruct b; simpl; auto.
Qed.

Lemma insert_entry_hardcoded root bits i r :
  hardcoded_ok root -> hardcoded_ok (fst (insert_entry root bits i r)).
Proof.
  intros (z & o & Hz & Ho & Hzi & Hzr & Hoi & Hor).
  destruct bits as [|b bits]; simpl.
  - destruct (index root <? 0)%Z; simpl; exists z, o; auto 10.
  - destruct b; simpl.
    + rewrite Ho.
      destruct (@insert_entry_indexed o bits i r) as [Hi Hr]; [lia|].
      destruct (insert_entry o bits i r) as [branch' i']; simpl in *.
      exists z, branch'. repeat split; auto; congruence.
    + rewrite Hz.
      destruct (@insert_entry_indexed z bits i r) as [Hi Hr]; [lia|].
      destruct (insert_entry z bits i r) as [branch' i']; simpl in *.
      exists branch', o. repeat split; auto; congruence.
Qed.

Lemma construct_fold_hardcoded dictionary : forall st,
  hardcoded_ok (fst st) ->
  hardcoded_ok (fst (fold_left construct_step dictionary st)).
Proof.
  induction dictionary as [|d l IH]; intros st H; simpl; [exact H|].
  apply IH. unfold construct_step. apply insert_entry_hardcoded, H.
Qed.

Lemma construct_tree_hardcoded dictionary :
  hardcoded_ok (construct_tree dictionary).
Proof.
  unfold construct_tree. apply construct_fold_hardcoded. simpl.
  unfold hardcoded_ok, hardcoded_root; simpl. eauto 10.
Qed.

Lemma walk_tree_loop_nonneg node bits g len best idx :
  (0 <= idx)%Z -> (0 <= snd (walk_tree_loop node bits g len best idx))%Z.
Proof.
  revert node len best idx.
  induction bits as [|b bits IH]; intros node len best idx H; simpl; auto.
  destruct (walk node b) as [node'|]; simpl; auto.
  destruct (g || negb (ref node')) eqn:Hg; simpl; auto.
  destruct (Z.leb_spec 0 (index node')); auto.
Qed.

Lemma walk_tree_hardcoded tree bits g :
  hardcoded_ok tree -> bits <> [] ->
  exists len idx, walk_tree tree bits g = Some (len, idx).
Proof.
  intros (z & o & Hz & Ho & Hzi & Hzr & Hoi & Hor) Hne.
  destruct bits as [|b bits]; [congruence|].
  unfold walk_tree.
  assert (H : (0 <= snd (walk_tree_loop tree (b :: bits) g 0 0 (-1)))%Z).
  { simpl. destruct b; simpl.
    - rewrite Ho, Hor, Hoi, orb_true_r. simpl.
      apply walk_tree_loop_nonneg. lia.
    - rewrite Hz, Hzr, Hzi, orb_true_r. simpl.
      apply walk_tree_loop_nonneg. lia. }
  destruct (walk_tree_loop tree (b :: bits) g 0 0 (-1)) as [best idx].
  simpl in H. destruct (Z.ltb_spec idx 0); [lia|]. eauto.
Qed.

(** C5.  On a tree built by [construct_tree], from any dictionary,
    [walk_tree] does not throw on a non-empty range of bits, whatever
    [is_glyph] is: it returns a non-negative index and a length of at least
    one bit (and at most the bits given).  The root of such a tree always
    has both single-bit children, with index 0 and 1 and the ref flag
    clear. *)
Theorem walk_tree_never_fails :
  forall (dictionary : list dictentry_t) (bits : bitstring_t)
         (is_glyph : bool),
    bits <> [] ->
    hardcoded_ok (construct_tree dictionary)
    /\ exists len idx,
         walk_tree (construct_tree dictionary) bits is_glyph
           = Some (len, idx)
         /\ (0 <= idx)%Z /\ 1 <= len <= length bits.
Proof.
  intros dictionary bits is_glyph Hne.
  pose proof (construct_tree_hardcoded dictionary) as Hroot.
  split; [exact Hroot|].
  destruct (@walk_tree_hardcoded _ bits is_glyph Hroot Hne)
    as (len & idx & Hw).
  exists len, idx. split; [exact Hw|].
  apply walk_tree_some in Hw. tauto.
Qed.

Lemma walk_tree_never_fails_witness :
  [true; false] <> []
  /\ hardcoded_ok
       (construct_tree [mk_dictentry [true; false] 0 true;
                        mk_dictentry [] 0 false])
  /\ exists len idx,
       walk_tree
         (construct_tree [mk_dictentry [true; false] 0 true;
                          mk_dictentry [] 0 false])
         [true; false] false = Some (len, idx)
       /\ (0 <= idx)%Z /\ 1 <= len <= length [true; false].
Proof.
  split; [discriminate|].
  apply (@walk_tree_never_fails
           [mk_dictentry [true; false] 0 true; mk_dictentry [] 0 false]
           [true; false] false).
  discriminate.
Defined.

(** *** The sorted dictionary *)

(** The four classes [cmp_dict_coding] orders: RLE entries, ref entries,
    empty slots with the flag clear, empty slots with the flag set. *)
Definition coding_class (d : dictentry_t) : nat :=
  if length (replacement d) =? 0
  then (if ref_encode d then 3 else 2)
  else (if ref_encode d then 1 else 0).

Definition of_class (k : nat) (l : list dictentry_t) : list dictentry_t :=
  filter (fun d => coding_class d =? k) l.

Lemma cmp_dict_coding_class a b :
  cmp_dict_coding a b = (coding_class a <? coding_class b).
Proof.
  unfold cmp_dict_coding, coding_class.
  destruct (length (replacement a) =? 0), (length (replacement b) =? 0),
    (ref_encode a), (ref_encode b); reflexivity.
Qed.

Lemma coding_class_lt d : coding_class d < 4.
Proof.
  unfold coding_class.
  destruct (length (replacement d) =? 0), (ref_encode d); lia.
Qed.

Section StableInsert.
Context {A : Type}.
Variable less : A -> A -> bool.

Lemma stable_insert_skip x l1 l2 :
  (forall y, In y l1 -> less y x = true) ->
  stable_insert less x (l1 ++ l2) = l1 ++ stable_insert less x l2.
Proof.
  induction l1 as [|y l1 IH]; intros H; simpl; [reflexivity|].
  rewrite (H y) by (left; reflexivity). f_equal.
  apply IH. intros z Hz. apply H. right. exact Hz.
Qed.

Lemma stable_insert_stop x l :
  (forall y, In y l -> less y x = false) ->
  stable_insert less x l = x :: l.
Proof.
  destruct l as [|y l]; intros H; simpl; [reflexivity|].
  rewrite (H y) by (left; reflexivity). reflexivity.
Qed.

End StableInsert.

Lemma of_class_in k l d : In d (of_class k l) -> coding_class d = k.
Proof.
  unfold of_class. rewrite filter_In. intros [_ H].
  apply Nat.eqb_eq in H. exact H.
Qed.

Lemma of_class_cons k d l :
  of_class k (d :: l)
  = if coding_class d =? k then d :: of_class k l else of_class k l.
Proof. reflexivity. Qed.

Ltac class_order :=
  intros y Hy; rewrite cmp_dict_coding_class;
  repeat (apply in_app_or in Hy; destruct Hy as [Hy|Hy]);
  apply of_class_in in Hy;
  first [apply Nat.ltb_lt; lia | apply Nat.ltb_ge; lia].

(** [std::stable_sort] with [cmp_dict_coding] groups the slots by class and
    keeps the dictionary order inside each class. *)
Lemma stable_sort_classes l :
  stable_sort cmp_dict_coding l
  = of_class 0 l ++ of_class 1 l ++ of_class 2 l ++ of_class 3 l.
Proof.
  induction l as [|d l IH]; [reflexivity|].
  simpl stable_sort. rewrite IH. rewrite !of_class_cons.
  pose proof (coding_class_lt d) as Hlt.
  destruct (coding_class d) as [|[|[|[|k]]]] eqn:Hc; try lia; simpl Nat.eqb;
    cbv iota.
  - apply stable_insert_stop. class_order.
  - rewrite stable_insert_skip by class_order.
    f_equal. apply stable_insert_stop. class_order.
  - rewrite stable_insert_skip by class_order. f_equal.
    rewrite stable_insert_skip by class_order. f_equal.
    apply stable_insert_stop. class_order.
  - rewrite stable_insert_skip by class_order. f_equal.
    rewrite stable_insert_skip by class_order. f_equal.
    rewrite stable_insert_skip by class_order. f_equal.
    apply stable_insert_stop. class_order.
Qed.

(** *** Indices stored in the tree *)

(** The node reached from [t] along [path], if the branches exist. *)
Fixpoint descend (t : dicttree_t) (path : list bool) {struct path}
  : option dicttree_t :=
  match path with
  | [] => Some t
  | b :: path' =>
      match walk t b with
      | None => None
      | Some n => descend n path'
      end
  end.

Lemma to_int_small z : (0 <= z < 2147483648)%Z -> to_int z = z.
Proof.
  intros H. unfold to_int.
  change (2 ^ 31)%Z with 2147483648%Z. change (2 ^ 32)%Z with 4294967296%Z.
  rewrite Z.mod_small by lia. lia.
Qed.

Section TreeIndices.

(** [R] bounds the indices given to RLE entries and [T] those given to any
    entry; both counts stay far below the range of [int]. *)
Variables R T : nat.
Hypothesis T_small : T <= 252.

(** A code [walk_tree] may return. *)
Definition code_ok (is_glyph : bool) (z : Z) : Prop :=
  z = 0%Z \/ z = 1%Z
  \/ ((4 <= z < 4 + Z.of_nat T)%Z
      /\ (is_glyph = false -> (z < 4 + Z.of_nat R)%Z)).

Definition node_ok (n : dicttree_t) : Prop :=
  (ref n = false /\ (index n = (-1)%Z \/ index n = 0%Z \/ index n = 1%Z))
  \/ ((4 <= index n < 4 + Z.of_nat T)%Z
      /\ (ref n = false -> (index n < 4 + Z.of_nat R)%Z)).

Definition all_ok (t : dicttree_t) : Prop :=
  forall path n, descend t path = Some n -> node_ok n.

Definition children_ok (t : dicttree_t) : Prop :=
  forall b c, walk t b = Some c -> all_ok c.

Lemma all_ok_intro t : node_ok t -> children_ok t -> all_ok t.
Proof.
  intros Hn Hc [|b path] n; simpl.
  - intros E; inversion E; subst; exact Hn.
  - destruct (walk t b) as [c|] eqn:Hw; [|discriminate].
    apply (Hc b c Hw).
Qed.

Lemma all_ok_node t : all_ok t -> node_ok t.
Proof. intros H. apply (H [] t). reflexivity. Qed.

Lemma all_ok_children t : all_ok t -> children_ok t.
Proof.
  intros H b c Hw path n Hd. apply (H (b :: path) n).
  simpl. rewrite Hw. exact Hd.
Qed.

Lemma new_dicttree_ok : all_ok new_dicttree.
Proof.
  apply all_ok_intro.
  - left. simpl. auto.
  - intros [|] c; discriminate.
Qed.

Lemma walk_set_walk t b branch b' :
  walk (set_walk t b branch) b'
  = if Bool.eqb b b' then Some branch else walk t b'.
Proof. destruct b, b'; reflexivity. Qed.

Lemma set_walk_ok t b branch :
  all_ok t -> all_ok branch -> all_ok (set_walk t b branch).
Proof.
  intros Ht Hb. apply all_ok_intro.
  - pose proof (all_ok_node _ Ht) as Hn.
    unfold node_ok in *. destruct b; simpl; exact Hn.
  - intros b' c. rewrite walk_set_walk.
    destruct (Bool.eqb b b').
    + intros E; inversion E; subst; exact Hb.
    + apply (all_ok_children _ Ht).
Qed.

Lemma insert_entry_all_ok bits : forall t i r,
  all_ok t -> i < T -> (r = false -> i < R) ->
  all_ok (fst (insert_entry t bits i r)).
Proof.
  induction bits as [|b bits IH]; intros t i r Ht HiT HiR; simpl.
  - destruct (index t <? 0)%Z; simpl; [|exact Ht].
    apply all_ok_intro.
    + right. cbn [index ref]. rewrite to_int_small by lia. split; [lia|].
      intros Hr. apply HiR in Hr. lia.
    + intros b c Hw. apply (@all_ok_children t Ht b c).
      destruct b; exact Hw.
  - assert (Hb : all_ok match walk t b with
                        | Some n => n
                        | None => new_dicttree
                        end).
    { destruct (walk t b) as [c|] eqn:Hw.
      - apply (@all_ok_children t Ht b c Hw).
      - apply new_dicttree_ok. }
    specialize (IH _ i r Hb HiT HiR).
    destruct (insert_entry _ bits i r) as [branch' i']; simpl in *.
    apply set_walk_ok; assumption.
Qed.

Lemma insert_entry_children_ok bits t i r :
  children_ok t ->
  (bits <> [] -> i < T /\ (r = false -> i < R)) ->
  children_ok (fst (insert_entry t bits i r)).
Proof.
  intros Ht Hi. destruct bits as [|b bits]; simpl.
  - destruct (index t <? 0)%Z; simpl; [|exact Ht].
    intros b c Hw. apply (Ht b c). destruct b; exact Hw.
  - destruct Hi as [HiT HiR]; [discriminate|].
    assert (Hb : all_ok match walk t b with
                        | Some n => n
                        | None => new_dicttree
                        end).
    { destruct (walk t b) as [c|] eqn:Hw.
      - apply (Ht b c Hw).
      - apply new_dicttree_ok. }
    pose proof (@insert_entry_all_ok bits _ i r Hb HiT HiR) as Hins.
    destruct (insert_entry _ bits i r) as [branch' i']; simpl in *.
    intros b' c. rewrite walk_set_walk.
    destruct (Bool.eqb b b').
    + intros E; inversion E; subst; exact Hins.
    + apply Ht.
Qed.

Lemma insert_entry_counter bits : forall t i r,
  i <= snd (insert_entry t bits i r) <= S i.
Proof.
  induction bits as [|b bits IH]; intros t i r; simpl.
  - destruct (index t <? 0)%Z; simpl; lia.
  - specialize (IH match walk t b with
                   | Some n => n
                   | None => new_dicttree
                   end i r).
    destruct (insert_entry _ bits i r) as [branch' i']; simpl in *. lia.
Qed.

(** Entry [j] of the list, when not empty, is placed below [T], and below
    [R] when it is RLE coded, counting from [k]. *)
Definition placed (k : nat) (l : list dictentry_t) : Prop :=
  forall j d, nth_error l j = Some d -> replacement d <> [] ->
    k + j < T /\ (ref_encode d = false -> k + j < R).

Lemma construct_fold_children_ok l : forall t i k,
  i <= k -> children_ok t -> placed k l ->
  children_ok (fst (fold_left construct_step l (t, i))).
Proof.
  induction l as [|d l IH]; intros t i k Hik Ht Hl; simpl; [exact Ht|].
  unfold construct_step at 2. simpl.
  pose proof (insert_entry_counter (replacement d) t i (ref_encode d)) as Hc.
  assert (Hins : children_ok
            (fst (insert_entry t (replacement d) i (ref_encode d)))).
  { apply insert_entry_children_ok; [exact Ht|].
    intros Hne. destruct (Hl 0 d eq_refl Hne) as [H1 H2].
    split; [lia|]. intros Hr. apply H2 in Hr. lia. }
  destruct (insert_entry t (replacement d) i (ref_encode d)) as [t' i'];
    simpl in *.
  apply (IH t' i' (S k)); [lia | exact Hins |].
  intros j e Hj Hne. destruct (Hl (S j) e Hj Hne) as [H1 H2].
  split; [lia|]. intros Hr. apply H2 in Hr. lia.
Qed.

Lemma hardcoded_root_children_ok : children_ok hardcoded_root.
Proof.
  intros b c Hw. apply all_ok_intro.
  - left. destruct b; simpl in Hw; inversion Hw; subst; simpl; auto.
  - intros b' c'.
    destruct b; simpl in Hw; inversion Hw; subst; destruct b'; discriminate.
Qed.

Lemma construct_tree_children_ok l :
  placed 0 l -> children_ok (construct_tree l).
Proof.
  intros Hl. unfold construct_tree.
  apply (@construct_fold_children_ok l hardcoded_root 0 0);
    [lia | apply hardcoded_root_children_ok | exact Hl].
Qed.

Lemma walk_tree_loop_code bits : forall node g len best idx,
  children_ok node ->
  snd (walk_tree_loop node bits g len best idx) = idx
  \/ code_ok g (snd (walk_tree_loop node bits g len best idx)).
Proof.
  induction bits as [|b bits IH]; intros node g len best idx Hn; simpl;
    [left; reflexivity|].
  destruct (walk node b) as [node'|] eqn:Hw; [|left; reflexivity].
  pose proof (Hn b node' Hw) as Hall.
  pose proof (all_ok_node _ Hall) as Hnode.
  pose proof (all_ok_children _ Hall) as Hch.
  destruct ((g || negb (ref node')) && (0 <=? index node')%Z) eqn:Hcond.
  - apply andb_true_iff in Hcond as [Hg Hidx]. apply Z.leb_le in Hidx.
    assert (Hcode : code_ok g (index node')).
    { destruct Hnode as [[Hr Hi]|[Hi Hr]].
      - unfold code_ok. lia.
      - right. right. split; [exact Hi|].
        intros ->. simpl in Hg. apply negb_true_iff in Hg. auto. }
    destruct (IH node' g (S len) (S len) (index node') Hch) as [E|E].
    + right. rewrite E. exact Hcode.
    + right. exact E.
  - apply IH. exact Hch.
Qed.

Lemma walk_tree_code tree bits g len idx :
  children_ok tree ->
  walk_tree tree bits g = Some (len, idx) -> code_ok g idx.
Proof.
  intros Ht. unfold walk_tree.
  pose proof (@walk_tree_loop_code bits tree g 0 0 (-1)%Z Ht) as H.
  destruct (walk_tree_loop tree bits g 0 0 (-1)) as [best i]; simpl in H.
  destruct (Z.ltb_spec i 0); [discriminate|].
  intros E; inversion E; subst.
  destruct H as [H|H]; [lia | exact H].
Qed.

End TreeIndices.

(** *** encode_ref *)

Lemma encode_ref_loop_unfold tree bits g end_ i :
  encode_ref_loop tree bits g end_ i
  = if lt_dec i end_
    then match walk_tree tree (skipn i bits) g with
         | None => None
         | Some (len, idx) =>
             option_map (fun r => (to_uint8 idx :: fst r, snd r))
               (encode_ref_loop tree bits g end_ (i + len))
         end
    else Some ([], i).
Proof.
  funelim (encode_ref_loop tree bits g end_ i); rewrite Heq;
    try match goal with
        | Hw : walk_tree _ _ _ = _ |- _ => rewrite Hw
        end; reflexivity.
Qed.

Lemma strip_zeroes_le bits e : strip_zeroes bits e <= e.
Proof.
  induction e as [|e IH]; simpl; [lia|].
  destruct (nth e bits false); lia.
Qed.

Lemma encode_ref_loop_total tree bits g end_ :
  hardcoded_ok tree -> end_ <= length bits ->
  forall n i, end_ - i <= n ->
    exists r, encode_ref_loop tree bits g end_ i = Some r.
Proof.
  intros Ht Hend. induction n as [|n IH]; intros i Hn;
    rewrite encode_ref_loop_unfold; destruct (lt_dec i end_) as [Hi|Hi];
    eauto; try lia.
  assert (Hne : skipn i bits <> []).
  { intros E. apply (f_equal (@length bool)) in E.
    rewrite length_skipn in E. simpl in E. lia. }
  destruct (@walk_tree_hardcoded tree _ g Ht Hne) as (len & idx & Hw).
  rewrite Hw. pose proof (walk_tree_some _ _ _ _ _ Hw) as [Hlen _].
  destruct (IH (i + len)) as [r Hr]; [lia|].
  rewrite Hr. simpl. eauto.
Qed.

Lemma encode_ref_total tree bits g :
  hardcoded_ok tree -> exists r, encode_ref bits tree g = Some r.
Proof.
  intros Ht. unfold encode_ref.
  set (end_ := if g then strip_zeroes bits (length bits) else length bits).
  assert (Hend : end_ <= length bits).
  { subst end_. destruct g; [apply strip_zeroes_le | lia]. }
  destruct (@encode_ref_loop_total tree bits g end_ Ht Hend end_ 0)
    as [[codes j] Hr]; [lia|].
  rewrite Hr. eauto.
Qed.

Section RefCodes.
Variables R T : nat.
Hypothesis T_small : T <= 252.

Lemma to_uint8_code g z : code_ok R T g z -> to_uint8 z = z.
Proof.
  unfold code_ok, to_uint8. intros H. apply Z.mod_small. lia.
Qed.

Lemma encode_ref_loop_codes tree bits g end_ :
  children_ok R T tree ->
  forall n i codes j, end_ - i <= n ->
    encode_ref_loop tree bits g end_ i = Some (codes, j) ->
    Forall (code_ok R T g) codes /\ end_ <= j
    /\ (i <= length bits -> j <= length bits).
Proof.
  intros Ht. induction n as [|n IH]; intros i codes j Hn;
    rewrite encode_ref_loop_unfold; destruct (lt_dec i end_) as [Hi|Hi];
    try lia;
    try (intros E; inversion E; subst; repeat split; auto; lia).
  destruct (walk_tree tree (skipn i bits) g) as [[len idx]|] eqn:Hw;
    [|discriminate].
  pose proof (walk_tree_some _ _ _ _ _ Hw) as [Hlen _].
  rewrite length_skipn in Hlen.
  assert (Hcode : code_ok R T g idx)
    by (eapply walk_tree_code; eassumption).
  destruct (encode_ref_loop tree bits g end_ (i + len)) as [[codes' j']|]
    eqn:Hrec; [|discriminate].
  simpl. intros E; inversion E; subst.
  destruct (IH (i + len) codes' j) as (Hc & Hj & Hb); [lia | exact Hrec |].
  split; [|split; [exact Hj | intros; apply Hb; lia]].
  constructor; [|exact Hc].
  rewrite (to_uint8_code _ _ Hcode). exact Hcode.
Qed.

(** A code of an emitted reference string: 0, 1, the blank-fill code 2 (in
    glyphs only), or an index below [4 + T], below [4 + R] outside
    glyphs. *)
Definition ref_ok (is_glyph : bool) (z : Z) : Prop :=
  code_ok R T is_glyph z \/ (is_glyph = true /\ z = 2%Z).

Lemma encode_ref_codes tree bits g r :
  children_ok R T tree ->
  encode_ref bits tree g = Some r -> Forall (ref_ok g) r.
Proof.
  intros Ht. unfold encode_ref.
  set (end_ := if g then strip_zeroes bits (length bits) else length bits).
  destruct (encode_ref_loop tree bits g end_ 0) as [[codes j]|] eqn:Hl;
    [|discriminate].
  destruct (@encode_ref_loop_codes tree bits g end_ Ht end_ 0 codes j)
    as (Hc & Hj & Hb); [lia | exact Hl |].
  assert (Hcodes : Forall (ref_ok g) codes).
  { eapply Forall_impl; [|exact Hc]. intros z Hz. left. exact Hz. }
  intros E; inversion E; subst r.
  destruct (Nat.ltb_spec j (length bits)) as [Hlt|Hge]; [|exact Hcodes].
  apply Forall_app. split; [exact Hcodes|].
  constructor; [|constructor].
  right. split; [|reflexivity].
  destruct g; [reflexivity|]. subst end_. lia.
Qed.

End RefCodes.

(** *** encode_font *)

Definition sorted_dict (datafile : DataFile) : list dictentry_t :=
  stable_sort cmp_dict_coding (dictionary datafile).

Definition font_tree (datafile : DataFile) : dicttree_t :=
  construct_tree (sorted_dict datafile).

Lemma of_class_app k l1 l2 :
  of_class k (l1 ++ l2) = of_class k l1 ++ of_class k l2.
Proof. apply filter_app. Qed.

Lemma of_class_of_class k k' l :
  of_class k (of_class k' l) = if k' =? k then of_class k' l else [].
Proof.
  induction l as [|d l IH]; simpl; [destruct (k' =? k); reflexivity|].
  destruct (Nat.eqb_spec (coding_class d) k') as [E|E]; simpl.
  - rewrite E, IH. destruct (k' =? k); reflexivity.
  - exact IH.
Qed.

Lemma of_class_sorted k l :
  k < 4 -> of_class k (stable_sort cmp_dict_coding l) = of_class k l.
Proof.
  intros Hk. rewrite stable_sort_classes, !of_class_app, !of_class_of_class.
  destruct k as [|[|[|[|k]]]]; try lia; simpl; rewrite ?app_nil_r;
    reflexivity.
Qed.

Lemma of_class_lengths l :
  length (of_class 0 l) + length (of_class 1 l) <= length l.
Proof.
  induction l as [|d l IH]; simpl; [lia|].
  destruct (coding_class d) as [|[|k]]; simpl; lia.
Qed.

Lemma encode_dictionary_spec tree l : forall rle refd rle' refd',
  encode_dictionary tree l rle refd = Some (rle', refd') ->
  rle' = rle ++ map (fun d => encode_rle (replacement d)) (of_class 0 l)
  /\ exists suffix,
       refd' = refd ++ suffix
       /\ Forall2 (fun d r => encode_ref (replacement d) tree false = Some r)
            (of_class 1 l) suffix.
Proof.
  induction l as [|d l IH]; intros rle refd rle' refd'; simpl.
  - intros E; inversion E; subst. rewrite app_nil_r.
    split; [reflexivity|]. exists []. rewrite app_nil_r. auto.
  - unfold coding_class.
    destruct (length (replacement d) =? 0).
    + destruct (ref_encode d); simpl; apply IH.
    + destruct (ref_encode d); simpl.
      * destruct (encode_ref (replacement d) tree false) as [r|] eqn:Hr;
          [|discriminate].
        intros H. apply IH in H as (H1 & suffix & H2 & H3).
        split; [exact H1|]. exists (r :: suffix).
        rewrite H2, <- app_assoc. auto.
      * intros H. apply IH in H as (H1 & suffix & H2 & H3).
        rewrite H1, <- app_assoc. split; [reflexivity|]. eauto.
Qed.

Lemma encode_glyphs_spec tree table : forall out gl,
  encode_glyphs tree table out = Some gl ->
  exists suffix,
    gl = out ++ suffix
    /\ Forall2 (fun g r => encode_ref (data g) tree true = Some r)
         table suffix.
Proof.
  induction table as [|g table IH]; intros out gl; simpl.
  - intros E; inversion E; subst. exists []. rewrite app_nil_r. auto.
  - destruct (encode_ref (data g) tree true) as [r|] eqn:Hr; [|discriminate].
    intros H. apply IH in H as (suffix & H1 & H2).
    exists (r :: suffix). rewrite H1, <- app_assoc. auto.
Qed.

Lemma encode_dictionary_total tree l :
  hardcoded_ok tree ->
  forall rle refd, exists r, encode_dictionary tree l rle refd = Some r.
Proof.
  intros Ht. induction l as [|d l IH]; intros rle refd; simpl; eauto.
  destruct (length (replacement d) =? 0); [apply IH|].
  destruct (ref_encode d); [|apply IH].
  destruct (@encode_ref_total tree (replacement d) false Ht) as [r Hr].
  rewrite Hr. apply IH.
Qed.

Lemma encode_glyphs_total tree table :
  hardcoded_ok tree ->
  forall out, exists gl, encode_glyphs tree table out = Some gl.
Proof.
  intros Ht. induction table as [|g table IH]; intros out; simpl; eauto.
  destruct (@encode_ref_total tree (data g) true Ht) as [r Hr].
  rewrite Hr. apply IH.
Qed.

(** [encode_font] never throws. *)
Lemma encode_font_total datafile :
  exists encoded, encode_font datafile = Some encoded.
Proof.
  unfold encode_font.
  pose proof (construct_tree_hardcoded
                (stable_sort cmp_dict_coding (dictionary datafile))) as Ht.
  destruct (@encode_dictionary_total _
              (stable_sort cmp_dict_coding (dictionary datafile)) Ht [] [])
    as [[rle refd] Hd].
  rewrite Hd.
  destruct (@encode_glyphs_total _ (glyphtable datafile) Ht []) as [gl Hg].
  rewrite Hg. eauto.
Qed.

(** What [encode_font] emits, in terms of the dictionary classes. *)
Lemma encode_font_spec datafile encoded :
  encode_font datafile = Some encoded ->
  rle_dictionary encoded
  = map (fun d => encode_rle (replacement d))
      (of_class 0 (dictionary datafile))
  /\ Forall2 (fun d r =>
                encode_ref (replacement d) (font_tree datafile) false
                = Some r)
       (of_class 1 (dictionary datafile)) (ref_dictionary encoded)
  /\ Forall2 (fun g r =>
                encode_ref (data g) (font_tree datafile) true = Some r)
       (glyphtable datafile) (glyphs encoded).
Proof.
  unfold encode_font, font_tree, sorted_dict.
  set (sorted := stable_sort cmp_dict_coding (dictionary datafile)).
  destruct (encode_dictionary (construct_tree sorted) sorted [] [])
    as [[rle refd]|] eqn:Hd; [|discriminate].
  destruct (encode_glyphs (construct_tree sorted) (glyphtable datafile) [])
    as [gl|] eqn:Hg; [|discriminate].
  intros E; inversion E; subst encoded; simpl.
  apply encode_dictionary_spec in Hd as (H1 & suffix & H2 & H3).
  apply encode_glyphs_spec in Hg as (gsuffix & H4 & H5).
  simpl in *. subst. subst sorted.
  rewrite !of_class_sorted in * by lia. auto.
Qed.

Lemma stable_sort_placed l :
  placed (length (of_class 0 l))
    (length (of_class 0 l) + length (of_class 1 l)) 0
    (stable_sort cmp_dict_coding l).
Proof.
  intros j d Hj Hne. rewrite stable_sort_classes in Hj. simpl.
  assert (Hclass : forall k, In d (of_class k l) -> coding_class d = k)
    by (intros k; apply of_class_in).
  assert (Hd : coding_class d = 0 \/ coding_class d = 1).
  { unfold coding_class. destruct (replacement d); [congruence|].
    simpl. destruct (ref_encode d); auto. }
  assert (Href : ref_encode d = false -> coding_class d = 0).
  { unfold coding_class. destruct (replacement d); [congruence|].
    simpl. intros ->. reflexivity. }
  destruct (Nat.lt_ge_cases j (length (of_class 0 l))) as [H0|H0];
    [split; intros; lia|].
  rewrite nth_error_app2 in Hj by exact H0.
  destruct (Nat.lt_ge_cases (j - length (of_class 0 l))
              (length (of_class 1 l))) as [H1|H1].
  - rewrite nth_error_app1 in Hj by exact H1.
    apply nth_error_In, Hclass in Hj.
    split; [lia|]. intros Hr. apply Href in Hr. lia.
  - rewrite nth_error_app2 in Hj by exact H1.
    apply nth_error_In in Hj. apply in_app_or in Hj.
    destruct Hj as [Hj|Hj]; apply Hclass in Hj; lia.
Qed.

Lemma font_tree_children_ok datafile :
  length (dictionary datafile) <= 252 ->
  children_ok (length (of_class 0 (dictionary datafile)))
    (length (of_class 0 (dictionary datafile))
     + length (of_class 1 (dictionary datafile)))
    (font_tree datafile).
Proof.
  intros Hsize. pose proof (of_class_lengths (dictionary datafile)).
  apply construct_tree_children_ok; [lia|]. apply stable_sort_placed.
Qed.

Lemma Forall2_in_right {A B : Type} (P : A -> B -> Prop) l1 l2 y :
  Forall2 P l1 l2 -> In y l2 -> exists x, In x l1 /\ P x y.
Proof.
  induction 1 as [|a b l1 l2 Hab _ IH]; simpl; [tauto|].
  intros [->|Hy]; [eauto|].
  destruct (IH Hy) as (x & Hx & HP). eauto.
Qed.

(** The codes of every emitted reference string, by kind of string. *)
Lemma encode_font_codes datafile encoded :
  length (dictionary datafile) <= 252 ->
  encode_font datafile = Some encoded ->
  let R := length (rle_dictionary encoded) in
  let F := length (ref_dictionary encoded) in
  R + F <= 252
  /\ (forall rs, In rs (ref_dictionary encoded) ->
        Forall (code_ok R (R + F) false) rs)
  /\ (forall rs, In rs (glyphs encoded) ->
        Forall (ref_ok R (R + F) true) rs).
Proof.
  intros Hsize Henc.
  pose proof (font_tree_children_ok datafile Hsize) as Htree.
  pose proof (of_class_lengths (dictionary datafile)) as Hlen.
  pose proof Henc as Hspec. apply encode_font_spec in Hspec.
  destruct Hspec as (Hrle & Hrefd & Hgl).
  assert (HR : length (rle_dictionary encoded)
               = length (of_class 0 (dictionary datafile)))
    by (rewrite Hrle; apply length_map).
  assert (HF : length (ref_dictionary encoded)
               = length (of_class 1 (dictionary datafile)))
    by (symmetry; eapply Forall2_length; exact Hrefd).
  simpl. rewrite HR, HF. split; [lia|]. split.
  - intros rs Hin.
    destruct (Forall2_in_right _ _ _ rs Hrefd Hin) as (d & _ & Hd).
    eapply encode_ref_codes in Hd; [| |exact Htree]; [|lia].
    eapply Forall_impl; [|exact Hd].
    intros z [Hz|[Hg _]]; [exact Hz | discriminate].
  - intros rs Hin.
    destruct (Forall2_in_right _ _ _ rs Hgl Hin) as (g & _ & Hg).
    eapply encode_ref_codes in Hg; [| |exact Htree]; [|lia].
    exact Hg.
Qed.

(** C3.  With a dictionary of at most 252 slots (the byte-wide code space),
    [encode_font] succeeds and every byte of every emitted reference
    string, in the glyphs and in the ref dictionary, is 0, 1, 2 or lies in
    [4, 3+R+F], where [R] and [F] are the lengths of the emitted RLE and ref
    dictionaries; code 3 is never emitted. *)
Theorem emitted_codes_in_range :
  forall datafile : DataFile,
    length (dictionary datafile) <= 252 ->
    exists encoded,
      encode_font datafile = Some encoded
      /\ forall rs r,
           In rs (glyphs encoded) \/ In rs (ref_dictionary encoded) ->
           In r rs ->
           (r = 0 \/ r = 1 \/ r = 2
            \/ 4 <= r <= 3 + Z.of_nat (length (rle_dictionary encoded))
                         + Z.of_nat (length (ref_dictionary encoded)))%Z
           /\ r <> 3%Z.
Proof.
  intros datafile Hsize.
  destruct (encode_font_total datafile) as [encoded Henc].
  exists encoded. split; [exact Henc|].
  destruct (@encode_font_codes datafile encoded Hsize Henc)
    as (_ & Hrefd & Hgl).
  intros rs r [Hin|Hin] Hr.
  - specialize (Hgl rs Hin). rewrite Forall_forall in Hgl.
    destruct (Hgl r Hr) as [Hc|[_ ->]]; [|lia].
    unfold code_ok in Hc. lia.
  - specialize (Hrefd rs Hin). rewrite Forall_forall in Hrefd.
    specialize (Hrefd r Hr). unfold code_ok in Hrefd. lia.
Qed.

Lemma decode_refs_flat recurse encoded fontinfo rs :
  length (rle_dictionary encoded) <= 252 ->
  (forall r, In r rs ->
     (r = 0 \/ r = 1
      \/ 4 <= r < 4 + Z.of_nat (length (rle_dictionary encoded)))%Z) ->
  forall acc, exists bits,
    decode_refs recurse encoded fontinfo rs acc = Ok bits.
Proof.
  intros HR. induction rs as [|r rs IH]; intros Hrs acc; simpl; eauto.
  assert (Hrest : forall r', In r' rs ->
     (r' = 0 \/ r' = 1
      \/ 4 <= r' < 4 + Z.of_nat (length (rle_dictionary encoded)))%Z)
    by (intros r' Hr'; apply Hrs; right; exact Hr').
  specialize (IH Hrest).
  destruct (Hrs r (or_introl eq_refl)) as [->|[->|Hr]]; simpl; auto.
  destruct (Z.eqb_spec r 0); [lia|]. destruct (Z.eqb_spec r 1); [lia|].
  destruct (Z.eqb_spec r 2); [lia|]. destruct (Z.eqb_spec r 3); [lia|].
  rewrite to_int_small by lia.
  destruct (Z.ltb_spec (r - 4) (Z.of_nat (length (rle_dictionary encoded))));
    [|lia].
  destruct (nth_error (rle_dictionary encoded) (Z.to_nat (r - 4)))
    as [rle|] eqn:Hnth; [apply IH|].
  apply nth_error_None in Hnth. lia.
Qed.

(** C4.  With a dictionary of at most 252 slots, every byte of every
    emitted ref-dictionary string is 0, 1 or a code of the RLE dictionary
    (in [4, 3+R]); no ref entry refers to a ref entry, so [decode_glyph] on
    an emitted ref-dictionary string returns a bit string without any
    nested call. *)
Theorem ref_dictionary_acyclic :
  forall datafile : DataFile,
    length (dictionary datafile) <= 252 ->
    exists encoded,
      encode_font datafile = Some encoded
      /\ forall rs,
           In rs (ref_dictionary encoded) ->
           (forall r, In r rs ->
              (r = 0 \/ r = 1
               \/ 4 <= r <= 3 + Z.of_nat (length (rle_dictionary encoded)))%Z)
           /\ forall (fontinfo : fontinfo_t) (depth : nat),
                exists bits,
                  decode_glyph (S depth) encoded rs fontinfo = Ok bits.
Proof.
  intros datafile Hsize.
  destruct (encode_font_total datafile) as [encoded Henc].
  exists encoded. split; [exact Henc|].
  destruct (@encode_font_codes datafile encoded Hsize Henc)
    as (HRF & Hrefd & _).
  intros rs Hin. specialize (Hrefd rs Hin). rewrite Forall_forall in Hrefd.
  assert (Hcodes : forall r, In r rs ->
     (r = 0 \/ r = 1
      \/ 4 <= r < 4 + Z.of_nat (length (rle_dictionary encoded)))%Z).
  { intros r Hr. specialize (Hrefd r Hr). unfold code_ok in Hrefd.
    destruct Hrefd as [H|[H|[H1 H2]]]; auto.
    specialize (H2 eq_refl). lia. }
  split.
  - intros r Hr. specialize (Hcodes r Hr). lia.
  - intros fontinfo depth. simpl. apply decode_refs_flat; [lia | exact Hcodes].
Qed.

(** *** The encoding ignores scores, font info and seed *)

Definition strip (d : dictentry_t) : dictentry_t :=
  mk_dictentry (replacement d) 0 (ref_encode d).

Lemma stable_insert_strip x l :
  stable_insert cmp_dict_coding (strip x) (map strip l)
  = map strip (stable_insert cmp_dict_coding x l).
Proof.
  induction l as [|y l IH]; simpl; [reflexivity|].
  change (cmp_dict_coding (strip y) (strip x)) with (cmp_dict_coding y x).
  destruct (cmp_dict_coding y x); simpl; [rewrite IH|]; reflexivity.
Qed.

Lemma stable_sort_strip l :
  stable_sort cmp_dict_coding (map strip l)
  = map strip (stable_sort cmp_dict_coding l).
Proof.
  induction l as [|x l IH]; simpl; [reflexivity|].
  rewrite IH. apply stable_insert_strip.
Qed.

Lemma construct_fold_strip l : forall st,
  fold_left construct_step (map strip l) st = fold_left construct_step l st.
Proof.
  induction l as [|d l IH]; intros st; simpl; [reflexivity|]. apply IH.
Qed.

Lemma encode_dictionary_strip tree l : forall rle refd,
  encode_dictionary tree (map strip l) rle refd
  = encode_dictionary tree l rle refd.
Proof.
  induction l as [|d l IH]; intros rle refd; simpl; [reflexivity|].
  destruct (length (replacement d) =? 0); [apply IH|].
  destruct (ref_encode d); [|apply IH].
  destruct (encode_ref (replacement d) tree false); [apply IH|reflexivity].
Qed.

(** Two DataFiles with the same glyphs whose slots agree on replacement
    and coding flag are encoded alike. *)
Lemma encode_font_coding d1 d2 :
  map strip (dictionary d1) = map strip (dictionary d2) ->
  glyphtable d1 = glyphtable d2 ->
  encode_font d1 = encode_font d2.
Proof.
  intros Hd Hg.
  assert (Hnorm : forall d,
    encode_font d
    = encode_font (mk_DataFile (map strip (dictionary d)) (glyphtable d)
                     (mk_fontinfo 0 0) 0%Z)).
  { intros d. unfold encode_font. simpl.
    rewrite stable_sort_strip. unfold construct_tree.
    rewrite construct_fold_strip, encode_dictionary_strip. reflexivity. }
  rewrite (Hnorm d1), (Hnorm d2), Hd, Hg. reflexivity.
Qed.

(** *** A bound on the encoded size *)

Lemma encode_rle_from_length bits pos :
  length (encode_rle_from bits pos) <= length bits - pos.
Proof.
  funelim (encode_rle_from bits pos); simpl; [|lia].
  pose proof (run_count_ge bits pos (nth pos bits false) 1). lia.
Qed.

Lemma encode_rle_length bits : length (encode_rle bits) <= length bits.
Proof.
  unfold encode_rle. pose proof (encode_rle_from_length bits 0). lia.
Qed.

Lemma encode_ref_loop_length tree bits g end_ :
  forall n i codes j, end_ - i <= n ->
    encode_ref_loop tree bits g end_ i = Some (codes, j) ->
    i + length codes <= j /\ (i <= length bits -> j <= length bits)
    /\ end_ <= j.
Proof.
  induction n as [|n IH]; intros i codes j Hn;
    rewrite encode_ref_loop_unfold; destruct (lt_dec i end_) as [Hi|Hi];
    try lia;
    try (intros E; inversion E; subst; simpl; repeat split; lia).
  destruct (walk_tree tree (skipn i bits) g) as [[len idx]|] eqn:Hw;
    [|discriminate].
  pose proof (walk_tree_some _ _ _ _ _ Hw) as [Hlen _].
  rewrite length_skipn in Hlen.
  destruct (encode_ref_loop tree bits g end_ (i + len)) as [[codes' j']|]
    eqn:Hrec; [|discriminate].
  simpl. intros E; inversion E; subst.
  destruct (IH (i + len) codes' j) as (Hc & Hb & He); [lia | exact Hrec |].
  simpl. split; [lia|]. split; [|exact He]. intros. apply Hb. lia.
Qed.

Lemma encode_ref_length bits tree g r :
  encode_ref bits tree g = Some r -> length r <= length bits.
Proof.
  unfold encode_ref.
  set (end_ := if g then strip_zeroes bits (length bits) else length bits).
  destruct (encode_ref_loop tree bits g end_ 0) as [[codes j]|] eqn:Hl;
    [|discriminate].
  destruct (encode_ref_loop_length tree bits g end_ end_ 0 codes j)
    as (Hc & Hb & _); [lia | exact Hl |].
  intros E; inversion E; subst r.
  destruct (Nat.ltb_spec j (length bits)); [rewrite length_app; simpl|]; lia.
Qed.

Lemma fold_left_sum (A : Type) (step : nat -> A -> nat) (f : A -> nat) l :
  (forall total r, step total r = total + f r) ->
  forall a, fold_left step l a = a + list_sum (map f l).
Proof.
  intros Hstep.
  induction l as [|x l IH]; intros a; simpl; [lia|].
  rewrite IH, Hstep. lia.
Qed.

Lemma dict_bits_classes l :
  dict_bits (of_class 0 l) + dict_bits (of_class 1 l) <= dict_bits l.
Proof.
  unfold dict_bits.
  induction l as [|d l IH]; simpl; [lia|].
  destruct (coding_class d) as [|[|k]]; simpl; lia.
Qed.

(** A dictionary string and its offset table entry. *)
Definition stored_size (r : list Z) : nat :=
  length r + (if negb (length r =? 0) then 2 else 0).

Lemma rle_entries_size l :
  list_sum (map stored_size (map (fun d => encode_rle (replacement d)) l))
  <= dict_bits l.
Proof.
  unfold dict_bits, stored_size, list_sum.
  induction l as [|d l IH]; cbn [map fold_right]; [lia|].
  pose proof (encode_rle_length (replacement d)).
  destruct (negb (length (encode_rle (replacement d)) =? 0)); lia.
Qed.

Lemma ref_entries_size tree l rs :
  Forall2 (fun d r => encode_ref (replacement d) tree false = Some r) l rs ->
  list_sum (map stored_size rs) <= dict_bits l.
Proof.
  unfold dict_bits, stored_size, list_sum.
  induction 1 as [|d r l l' Hr _ IH]; cbn [map fold_right]; [lia|].
  apply encode_ref_length in Hr.
  destruct (negb (length r =? 0)); lia.
Qed.

Lemma glyph_entries_size tree l rs :
  Forall2 (fun g r => encode_ref (data g) tree true = Some r) l rs ->
  list_sum (map (fun r : refstring_t => length r + 3) rs) <= glyph_bits l.
Proof.
  unfold glyph_bits, list_sum.
  induction 1 as [|g r l l' Hr _ IH]; cbn [map fold_right]; [lia|].
  apply encode_ref_length in Hr. lia.
Qed.

Lemma get_encoded_size_sum encoded :
  get_encoded_size encoded
  = list_sum (map stored_size (rle_dictionary encoded))
    + list_sum (map stored_size (ref_dictionary encoded))
    + list_sum (map (fun r : refstring_t => length r + 3) (glyphs encoded)).
Proof.
  unfold get_encoded_size.
  rewrite (fold_left_sum _ _ (fun r : refstring_t => length r + 3))
    by (intros; lia).
  rewrite (fold_left_sum _ _ stored_size)
    by (intros; unfold stored_size; lia).
  rewrite (fold_left_sum _ _ stored_size)
    by (intros; unfold stored_size; lia).
  lia.
Qed.

Lemma encoded_size_bound datafile encoded :
  encode_font datafile = Some encoded ->
  get_encoded_size encoded <= size_bound datafile.
Proof.
  intros Henc. apply encode_font_spec in Henc as (Hrle & Hrefd & Hgl).
  rewrite get_encoded_size_sum. unfold size_bound.
  pose proof (dict_bits_classes (dictionary datafile)) as Hcl.
  pose proof (rle_entries_size (of_class 0 (dictionary datafile))) as H0.
  rewrite <- Hrle in H0.
  apply ref_entries_size in Hrefd. apply glyph_entries_size in Hgl.
  lia.
Qed.

(** *** Empty slots do not change the encoding *)

(** [walk_tree] never reads the root itself, only its two branches. *)
Lemma walk_tree_branches t t' bits g :
  zero t = zero t' -> one t = one t' ->
  walk_tree t bits g = walk_tree t' bits g.
Proof.
  intros Hz Ho. unfold walk_tree.
  destruct bits as [|b bits]; [reflexivity|].
  simpl. unfold walk. rewrite Hz, Ho. reflexivity.
Qed.

Lemma encode_ref_loop_branches t t' bits g end_ :
  zero t = zero t' -> one t = one t' ->
  forall n i, end_ - i <= n ->
    encode_ref_loop t bits g end_ i = encode_ref_loop t' bits g end_ i.
Proof.
  intros Hz Ho. induction n as [|n IH]; intros i Hn;
    rewrite (encode_ref_loop_unfold t), (encode_ref_loop_unfold t');
    destruct (lt_dec i end_) as [Hi|Hi]; try reflexivity; try lia.
  rewrite (walk_tree_branches t t' _ _ Hz Ho).
  destruct (walk_tree t' (skipn i bits) g) as [[len idx]|] eqn:Hw;
    [|reflexivity].
  apply walk_tree_some in Hw as [Hlen _].
  rewrite IH by lia. reflexivity.
Qed.

Lemma encode_ref_branches t t' bits g :
  zero t = zero t' -> one t = one t' ->
  encode_ref bits t g = encode_ref bits t' g.
Proof.
  intros Hz Ho. unfold encode_ref.
  rewrite (encode_ref_loop_branches t t' bits g _ Hz Ho _ 0 (Nat.le_refl _)).
  reflexivity.
Qed.

Lemma encode_dictionary_branches t t' l :
  zero t = zero t' -> one t = one t' ->
  forall rle refd,
    encode_dictionary t l rle refd = encode_dictionary t' l rle refd.
Proof.
  intros Hz Ho. induction l as [|d l IH]; intros rle refd; simpl;
    [reflexivity|].
  rewrite (encode_ref_branches t t' _ _ Hz Ho).
  destruct (length (replacement d) =? 0); [apply IH|].
  destruct (ref_encode d); [|apply IH].
  destruct (encode_ref (replacement d) t' false); [apply IH | reflexivity].
Qed.

Lemma encode_glyphs_branches t t' table :
  zero t = zero t' -> one t = one t' ->
  forall out, encode_glyphs t table out = encode_glyphs t' table out.
Proof.
  intros Hz Ho. induction table as [|g table IH]; intros out; simpl;
    [reflexivity|].
  rewrite (encode_ref_branches t t' _ _ Hz Ho).
  destruct (encode_ref (data g) t' true); [apply IH | reflexivity].
Qed.

Lemma construct_fold_empty l : forall st,
  Forall (fun d => replacement d = []) l ->
  zero (fst (fold_left construct_step l st)) = zero (fst st)
  /\ one (fst (fold_left construct_step l st)) = one (fst st).
Proof.
  induction l as [|d l IH]; intros st Hl; simpl; [auto|].
  inversion Hl as [|d' l' Hd Hrest]; subst.
  destruct (IH (construct_step st d) Hrest) as [Hz Ho].
  rewrite Hz, Ho. unfold construct_step. rewrite Hd. simpl.
  destruct (index (fst st) <? 0)%Z; simpl; auto.
Qed.

Lemma encode_dictionary_empty tree l2 : forall l1 rle refd,
  Forall (fun d => replacement d = []) l2 ->
  encode_dictionary tree (l1 ++ l2) rle refd
  = encode_dictionary tree l1 rle refd.
Proof.
  intros l1. induction l1 as [|d l1 IH]; intros rle refd Hl; simpl.
  - revert rle refd. induction Hl as [|d l Hd _ IH]; intros rle refd;
      simpl; [reflexivity|].
    rewrite Hd. simpl. apply IH.
  - destruct (length (replacement d) =? 0); [apply IH; exact Hl|].
    destruct (ref_encode d); [|apply IH; exact Hl].
    destruct (encode_ref (replacement d) tree false);
      [apply IH; exact Hl | reflexivity].
Qed.

Lemma of_class_empty k l :
  2 <= k -> Forall (fun d => replacement d = []) (of_class k l).
Proof.
  intros Hk. apply Forall_forall. intros d Hd.
  apply of_class_in in Hd. unfold coding_class in Hd.
  destruct (replacement d); [reflexivity|].
  simpl in Hd. destruct (ref_encode d); lia.
Qed.

(** [encode_font] in terms of the non-empty slots alone. *)
Lemma encode_font_nonempty datafile :
  encode_font datafile
  = let used := of_class 0 (dictionary datafile)
                ++ of_class 1 (dictionary datafile) in
    let tree := construct_tree used in
    match encode_dictionary tree used [] [] with
    | None => None
    | Some (rle, refd) =>
        match encode_glyphs tree (glyphtable datafile) [] with
        | None => None
        | Some gl => Some (mk_encoded_font rle refd gl)
        end
    end.
Proof.
  unfold encode_font. cbv zeta.
  rewrite stable_sort_classes, app_assoc.
  set (used := of_class 0 (dictionary datafile)
               ++ of_class 1 (dictionary datafile)).
  set (free := of_class 2 (dictionary datafile)
               ++ of_class 3 (dictionary datafile)).
  assert (Hfree : Forall (fun d => replacement d = []) free).
  { subst free. apply Forall_app. split; apply of_class_empty; lia. }
  assert (Hb : zero (construct_tree (used ++ free))
               = zero (construct_tree used)
               /\ one (construct_tree (used ++ free))
                  = one (construct_tree used)).
  { unfold construct_tree. rewrite fold_left_app.
    apply construct_fold_empty. exact Hfree. }
  destruct Hb as [Hz Ho].
  rewrite (encode_dictionary_branches _ _ _ Hz Ho).
  rewrite (encode_glyphs_branches _ _ _ Hz Ho).
  rewrite encode_dictionary_empty by exact Hfree. reflexivity.
Qed.

Lemma of_class_free_slots k l n :
  k < 2 -> of_class k (l ++ repeat empty_dictentry n) = of_class k l.
Proof.
  intros Hk. rewrite of_class_app.
  replace (of_class k (repeat empty_dictentry n)) with (@nil dictentry_t);
    [apply app_nil_r|].
  induction n as [|n IH]; simpl; [reflexivity|].
  destruct k as [|[|k]]; try lia; simpl; exact IH.
Qed.

Lemma encode_font_free_slots datafile n :
  encode_font (with_free_slots datafile n) = encode_font datafile.
Proof.
  rewrite (encode_font_nonempty (with_free_slots datafile n)).
  rewrite (encode_font_nonempty datafile). simpl.
  rewrite !of_class_free_slots by lia. reflexivity.
Qed.

(** *** Which entry a tree node stands for *)

(** Index and ref flag of the node at the end of [path], if it exists. *)
Definition label (t : dicttree_t) (path : list bool) : option (Z * bool) :=
  match descend t path with
  | Some n => Some (index n, ref n)
  | None => None
  end.

Fixpoint is_prefix (p bits : list bool) : bool :=
  match p, bits with
  | [], _ => true
  | _ :: _, [] => false
  | a :: p', b :: bits' => Bool.eqb a b && is_prefix p' bits'
  end.

(** The label [insert_entry] leaves on the node of the inserted entry. *)
Definition relabel (old : option (Z * bool)) (i : nat) (r : bool)
  : Z * bool :=
  match old with
  | Some (idx, rf) =>
      if (idx <? 0)%Z then (to_int (Z.of_nat i + 4), r) else (idx, rf)
  | None => (to_int (Z.of_nat i + 4), r)
  end.

Lemma label_cons t b p :
  label t (b :: p)
  = match walk t b with Some n => label n p | None => None end.
Proof. unfold label. simpl. destruct (walk t b); reflexivity. Qed.

Lemma label_new_dicttree p :
  label new_dicttree p = match p with [] => Some ((-1)%Z, false) | _ => None end.
Proof. destruct p as [|[|] p]; reflexivity. Qed.

Lemma label_insert_at bits : forall t i r,
  label (fst (insert_entry t bits i r)) bits
  = Some (relabel (label t bits) i r).
Proof.
  induction bits as [|b bits IH]; intros t i r.
  - simpl. unfold label. simpl.
    destruct (index t <? 0)%Z; reflexivity.
  - simpl insert_entry.
    specialize (IH match walk t b with
                   | Some n => n
                   | None => new_dicttree
                   end i r).
    destruct (insert_entry _ bits i r) as [branch' i']. simpl fst in *.
    rewrite !label_cons, walk_set_walk, eqb_reflx, IH.
    destruct (walk t b) as [c|]; [reflexivity|].
    rewrite label_new_dicttree. destruct bits; reflexivity.
Qed.

Lemma label_insert_other bits : forall t i r p,
  p <> bits ->
  label (fst (insert_entry t bits i r)) p
  = match label t p with
    | Some x => Some x
    | None => if is_prefix p bits then Some ((-1)%Z, false) else None
    end.
Proof.
  induction bits as [|b bits IH]; intros t i r p Hne.
  - destruct p as [|b' p]; [congruence|].
    simpl insert_entry.
    assert (E : label (fst (if (index t <? 0)%Z
                            then (mk_dicttree (to_int (Z.of_nat i + 4))
                                    (zero t) (one t) r, S i)
                            else (t, i))) (b' :: p) = label t (b' :: p)).
    { destruct (index t <? 0)%Z; [|reflexivity].
      rewrite !label_cons. destruct b'; reflexivity. }
    rewrite E. destruct (label t (b' :: p)); reflexivity.
  - simpl insert_entry.
    specialize (IH match walk t b with
                   | Some n => n
                   | None => new_dicttree
                   end i r).
    destruct (insert_entry _ bits i r) as [branch' i']. simpl fst in *.
    destruct p as [|b' p].
    + unfold label. simpl. destruct b; reflexivity.
    + rewrite !label_cons, walk_set_walk. simpl is_prefix.
      destruct (Bool.eqb b b') eqn:Hb.
      * apply eqb_prop in Hb. subst b'. rewrite eqb_reflx. simpl.
        rewrite IH by congruence.
        destruct (walk t b) as [c|]; [reflexivity|].
        rewrite label_new_dicttree. destruct p; reflexivity.
      * assert (Hb' : Bool.eqb b' b = false)
          by (destruct b, b'; simpl in *; congruence).
        rewrite Hb'. simpl.
        destruct (walk t b') as [c|]; [|reflexivity].
        destruct (label c p); reflexivity.
Qed.

Lemma insert_entry_next bits : forall t i r,
  snd (insert_entry t bits i r)
  = match label t bits with
    | Some (idx, _) => if (idx <? 0)%Z then S i else i
    | None => S i
    end.
Proof.
  induction bits as [|b bits IH]; intros t i r.
  - simpl. unfold label. simpl. destruct (index t <? 0)%Z; reflexivity.
  - simpl insert_entry.
    specialize (IH match walk t b with
                   | Some n => n
                   | None => new_dicttree
                   end i r).
    destruct (insert_entry _ bits i r) as [branch' i']. simpl snd in *.
    rewrite IH, label_cons.
    destruct (walk t b) as [c|]; [reflexivity|].
    rewrite label_new_dicttree. destruct bits; reflexivity.
Qed.

(** What a non-negative index on a node other than the root means, given
    the list [entries] of the slots inserted so far: a hardcoded bit, or
    slot [j] with the node's path as its replacement. *)
Definition stands_for (entries : list dictentry_t) (p : list bool)
  (idx : Z) (rf : bool) : Prop :=
  (p = [false] /\ idx = 0%Z /\ rf = false)
  \/ (p = [true] /\ idx = 1%Z /\ rf = false)
  \/ exists j d,
       nth_error entries j = Some d /\ idx = (4 + Z.of_nat j)%Z
       /\ replacement d = p /\ rf = ref_encode d.

Definition tree_inv (entries : list dictentry_t) (t : dicttree_t) : Prop :=
  forall p idx rf,
    p <> [] -> label t p = Some (idx, rf) -> (0 <= idx)%Z ->
    stands_for entries p idx rf.

Lemma hardcoded_root_inv : tree_inv [] hardcoded_root.
Proof.
  intros p idx rf Hp Hl Hidx. unfold stands_for.
  destruct p as [|[|] [|[|] p]]; try congruence;
    unfold label in Hl; simpl in Hl; try discriminate;
    inversion Hl; subst; tauto.
Qed.

Lemma construct_fold_inv l : forall entries t,
  tree_inv entries t ->
  Forall (fun d => 2 <= length (replacement d)) l ->
  NoDup (map replacement (entries ++ l)) ->
  length (entries ++ l) <= 252 ->
  tree_inv (entries ++ l)
    (fst (fold_left construct_step l (t, length entries))).
Proof.
  induction l as [|d l IH]; intros entries t Hinv Hlen Hnd Hsize.
  - simpl. rewrite app_nil_r. exact Hinv.
  - inversion Hlen as [|d' l' Hd Hrest]; subst.
    replace (entries ++ d :: l) with ((entries ++ [d]) ++ l) in *
      by (rewrite <- app_assoc; reflexivity).
    assert (Hfresh : ~ In (replacement d) (map replacement entries)).
    { rewrite !map_app in Hnd. apply NoDup_app_remove_r in Hnd.
      simpl in Hnd. apply NoDup_remove_2 in Hnd.
      rewrite app_nil_r in Hnd. exact Hnd. }
    assert (Hold : match label t (replacement d) with
                   | Some (idx, _) => (idx < 0)%Z
                   | None => True
                   end).
    { destruct (label t (replacement d)) as [[idx rf]|] eqn:Hl; [|exact I].
      destruct (Z_lt_ge_dec idx 0) as [Hneg|Hpos]; [exact Hneg|].
      exfalso.
      assert (Hne : replacement d <> [])
        by (intros E; rewrite E in Hd; simpl in Hd; lia).
      destruct (Hinv _ _ _ Hne Hl) as [(E & _)|[(E & _)|(j & e & Hj & _ & E & _)]];
        [lia | rewrite E in Hd; simpl in Hd; lia
         | rewrite E in Hd; simpl in Hd; lia |].
      apply Hfresh. rewrite <- E. apply in_map.
      eapply nth_error_In. exact Hj. }
    assert (Hnew : relabel (label t (replacement d)) (length entries)
                     (ref_encode d)
                   = ((4 + Z.of_nat (length entries))%Z, ref_encode d)).
    { rewrite !length_app in Hsize. simpl in Hsize.
      unfold relabel.
      destruct (label t (replacement d)) as [[idx rf]|].
      - destruct (Z.ltb_spec idx 0); [|lia].
        rewrite to_int_small by lia. f_equal. lia.
      - rewrite to_int_small by lia. f_equal. lia. }
    simpl fold_left. unfold construct_step at 2. simpl fst. simpl snd.
    pose proof (insert_entry_next (replacement d) t (length entries)
                  (ref_encode d)) as Hnext.
    pose proof (label_insert_at (replacement d) t (length entries)
                  (ref_encode d)) as Hat.
    pose proof (label_insert_other (replacement d) t (length entries)
                  (ref_encode d)) as Hother.
    destruct (insert_entry t (replacement d) (length entries) (ref_encode d))
      as [t' i']. simpl fst in *. simpl snd in *.
    assert (Hi' : i' = length (entries ++ [d])).
    { rewrite length_app. simpl. rewrite Hnext.
      destruct (label t (replacement d)) as [[idx rf]|]; [|lia].
      destruct (Z.ltb_spec idx 0); lia. }
    rewrite Hi'. apply IH; auto.
    intros p idx rf Hp Hl Hidx.
    destruct (list_eq_dec bool_dec p (replacement d)) as [->|Hne].
    + rewrite Hat, Hnew in Hl. inversion Hl; subst.
      right. right. exists (length entries), d.
      rewrite nth_error_app2 by lia. rewrite Nat.sub_diag. auto.
    + rewrite (Hother p Hne) in Hl.
      destruct (label t p) as [[idx0 rf0]|] eqn:Hl0.
      * inversion Hl; subst.
        destruct (Hinv _ _ _ Hp Hl0 Hidx)
          as [H|[H|(j & e & Hj & H)]]; [left; exact H | right; left; exact H|].
        right. right. exists j, e. split; [|exact H].
        rewrite nth_error_app1; [exact Hj|].
        apply nth_error_Some. congruence.
      * destruct (is_prefix p (replacement d)); [|discriminate].
        inversion Hl; subst. lia.
Qed.

Lemma construct_tree_inv entries :
  Forall (fun d => 2 <= length (replacement d)) entries ->
  NoDup (map replacement entries) ->
  length entries <= 252 ->
  tree_inv entries (construct_tree entries).
Proof.
  intros Hlen Hnd Hsize. unfold construct_tree.
  apply (construct_fold_inv entries [] hardcoded_root);
    [apply hardcoded_root_inv | exact Hlen | exact Hnd | exact Hsize].
Qed.

Lemma walk_tree_loop_label bits : forall node g len best idx,
  (fst (walk_tree_loop node bits g len best idx) = best
   /\ snd (walk_tree_loop node bits g len best idx) = idx)
  \/ exists k rf,
       1 <= k <= length bits
       /\ fst (walk_tree_loop node bits g len best idx) = len + k
       /\ label node (firstn k bits)
          = Some (snd (walk_tree_loop node bits g len best idx), rf)
       /\ (0 <= snd (walk_tree_loop node bits g len best idx))%Z
       /\ (g = false -> rf = false).
Proof.
  induction bits as [|b bits IH]; intros node g len best idx; simpl;
    [left; auto|].
  destruct (walk node b) as [node'|] eqn:Hw; [|left; auto].
  destruct ((g || negb (ref node')) && (0 <=? index node')%Z) eqn:Hcond.
  - apply andb_true_iff in Hcond as [Hg Hidx]. apply Z.leb_le in Hidx.
    destruct (IH node' g (S len) (S len) (index node'))
      as [[Hb Hi]|(k & rf & Hk & Hb & Hl & Hi & Hr)].
    + right. exists 1, (ref node'). rewrite Hb, Hi.
      split; [lia|]. split; [lia|]. split.
      * simpl. rewrite label_cons, Hw. reflexivity.
      * split; [exact Hidx|]. intros ->. simpl in Hg.
        apply negb_true_iff in Hg. exact Hg.
    + right. exists (S k), rf. rewrite Hb.
      split; [lia|]. split; [lia|]. split; [|auto].
      simpl. rewrite label_cons, Hw. exact Hl.
  - destruct (IH node' g (S len) best idx)
      as [[Hb Hi]|(k & rf & Hk & Hb & Hl & Hi & Hr)].
    + left. auto.
    + right. exists (S k), rf. rewrite Hb.
      split; [lia|]. split; [lia|]. split; [|auto].
      simpl. rewrite label_cons, Hw. exact Hl.
Qed.

(** The code [walk_tree] returns labels the node reached by the bits it
    counts as consumed. *)
Lemma walk_tree_label tree bits g len idx :
  walk_tree tree bits g = Some (len, idx) ->
  exists rf,
    label tree (firstn len bits) = Some (idx, rf)
    /\ 1 <= len <= length bits /\ (0 <= idx)%Z /\ (g = false -> rf = false).
Proof.
  unfold walk_tree.
  pose proof (walk_tree_loop_label bits tree g 0 0 (-1)%Z) as H.
  destruct (walk_tree_loop tree bits g 0 0 (-1)) as [best i]; simpl in H.
  destruct (Z.ltb_spec i 0); [discriminate|].
  intros E; inversion E; subst.
  destruct H as [[_ Hi]|(k & rf & Hk & Hb & Hl & Hi & Hr)]; [lia|].
  simpl in Hb. subst k. exists rf. auto.
Qed.

(** *** Round trip on dictionaries without skipped entries *)

Section RoundTrip.

(** The RLE coded and the ref coded slots, in emission order, and the
    encoded font built from them. *)
Variables rle_entries ref_entries : list dictentry_t.
Variable encoded : encoded_font_t.
Variable fontinfo : fontinfo_t.

Let used := rle_entries ++ ref_entries.
Let tree := construct_tree used.

Hypothesis ref_flag : Forall (fun d => ref_encode d = true) ref_entries.
Hypothesis used_size : length used <= 252.
Hypothesis used_inv : tree_inv used tree.
Hypothesis rle_emitted :
  rle_dictionary encoded
  = map (fun d => encode_rle (replacement d)) rle_entries.
Hypothesis ref_emitted :
  Forall2 (fun d r => encode_ref (replacement d) tree false = Some r)
    ref_entries (ref_dictionary encoded).

(** The nested calls decode the ref dictionary strings correctly; needed
    for glyphs only. *)
Definition recurse_ok (g : bool)
  (recurse : refstring_t -> result bitstring_t) : Prop :=
  g = true ->
  forall k d rs,
    nth_error ref_entries k = Some d ->
    nth_error (ref_dictionary encoded) k = Some rs ->
    recurse rs = Ok (replacement d).

Lemma decode_code recurse g p idx rf rest acc :
  recurse_ok g recurse ->
  p <> [] -> stands_for used p idx rf -> (g = false -> rf = false) ->
  decode_refs recurse encoded fontinfo (to_uint8 idx :: rest) acc
  = decode_refs recurse encoded fontinfo rest (acc ++ p).
Proof.
  intros Hrec Hp Hs Hg.
  destruct Hs as [(-> & -> & _)|[(-> & -> & _)|(j & d & Hj & -> & Hd & Hrf)]];
    [reflexivity | reflexivity |].
  assert (Hjlt : j < length used) by (apply nth_error_Some; congruence).
  assert (HR : length (rle_dictionary encoded) = length rle_entries)
    by (rewrite rle_emitted; apply length_map).
  assert (Hused : length used = length rle_entries + length ref_entries)
    by (subst used; apply length_app).
  unfold to_uint8. rewrite Z.mod_small by lia.
  cbn [decode_refs].
  destruct (Z.eqb_spec (4 + Z.of_nat j) 0); [lia|].
  destruct (Z.eqb_spec (4 + Z.of_nat j) 1); [lia|].
  destruct (Z.eqb_spec (4 + Z.of_nat j) 2); [lia|].
  destruct (Z.eqb_spec (4 + Z.of_nat j) 3); [lia|].
  rewrite to_int_small by lia. rewrite HR.
  replace (4 + Z.of_nat j - 4)%Z with (Z.of_nat j) by lia.
  rewrite Nat2Z.id.
  destruct (Z.ltb_spec (Z.of_nat j) (Z.of_nat (length rle_entries)))
    as [Hlt|Hge].
  - (* an RLE entry *)
    subst used. rewrite nth_error_app1 in Hj by lia.
    rewrite rle_emitted, nth_error_map, Hj. simpl.
    rewrite decode_rle_encode_rle, Hd. reflexivity.
  - (* a ref entry *)
    subst used. rewrite nth_error_app2 in Hj by lia.
    assert (Hflag : ref_encode d = true).
    { rewrite Forall_forall in ref_flag. apply ref_flag.
      eapply nth_error_In. exact Hj. }
    assert (Hgt : g = true).
    { destruct g; [reflexivity|]. rewrite Hg in Hrf by reflexivity.
      congruence. }
    replace (Z.to_nat (Z.of_nat j - Z.of_nat (length rle_entries)))
      with (j - length rle_entries) by lia.
    destruct (nth_error (ref_dictionary encoded) (j - length rle_entries))
      as [rs|] eqn:Hrs.
    + rewrite (Hrec Hgt _ _ _ Hj Hrs), Hd. reflexivity.
    + apply nth_error_None in Hrs.
      pose proof (Forall2_length ref_emitted) as Hlen.
      assert (j - length rle_entries < length ref_entries)
        by (apply nth_error_Some; congruence).
      lia.
Qed.

Lemma firstn_add (A : Type) a b : forall l : list A,
  firstn (a + b) l = firstn a l ++ firstn b (skipn a l).
Proof.
  induction a as [|a IH]; intros [|x l]; simpl;
    rewrite ?firstn_nil; try reflexivity.
  rewrite IH. reflexivity.
Qed.

(** Decoding the codes the loop of [encode_ref] pushed from position [i]
    appends the bits between [i] and the position [j] the loop reached. *)
Lemma decode_encode_ref_loop recurse bits g end_ tail :
  recurse_ok g recurse ->
  forall n i codes j acc, end_ - i <= n -> i <= length bits ->
    encode_ref_loop tree bits g end_ i = Some (codes, j) ->
    decode_refs recurse encoded fontinfo (codes ++ tail) acc
    = decode_refs recurse encoded fontinfo tail
        (acc ++ firstn (j - i) (skipn i bits)).
Proof.
  intros Hrec. induction n as [|n IH]; intros i codes j acc Hn Hi;
    rewrite encode_ref_loop_unfold; destruct (lt_dec i end_) as [Hlt|Hge];
    try lia;
    try (intros E; inversion E; subst; rewrite Nat.sub_diag; simpl;
         rewrite app_nil_r; reflexivity).
  destruct (walk_tree tree (skipn i bits) g) as [[len idx]|] eqn:Hw;
    [|discriminate].
  destruct (encode_ref_loop tree bits g end_ (i + len)) as [[codes' j']|]
    eqn:Hloop; [|discriminate].
  simpl. intros E; inversion E; subst codes j'. clear E.
  destruct (walk_tree_label _ _ _ _ _ Hw) as (rf & Hl & Hlen & Hidx & Hg).
  rewrite length_skipn in Hlen.
  destruct (encode_ref_loop_length _ _ _ _ _ _ _ _ (Nat.le_refl _) Hloop)
    as (Hj & _ & _).
  assert (Hp : firstn len (skipn i bits) <> []).
  { intros E. apply (f_equal (@length bool)) in E.
    rewrite length_firstn, length_skipn in E. simpl in E. lia. }
  pose proof (used_inv _ _ _ Hp Hl Hidx) as Hs.
  rewrite <- app_comm_cons.
  rewrite (decode_code recurse g _ idx rf _ acc Hrec Hp Hs Hg).
  rewrite (IH (i + len) codes' j) by (auto; lia).
  rewrite <- app_assoc. f_equal. f_equal.
  replace (j - i) with (len + (j - (i + len))) by lia.
  rewrite firstn_add, skipn_skipn. f_equal. f_equal. f_equal. lia.
Qed.

(** A ref dictionary string decodes to the replacement it encodes, without
    nested calls. *)
Lemma decode_ref_entry recurse bits rs :
  encode_ref bits tree false = Some rs ->
  decode_refs recurse encoded fontinfo rs [] = Ok bits.
Proof.
  unfold encode_ref.
  destruct (encode_ref_loop tree bits false (length bits) 0)
    as [[codes j]|] eqn:Hloop; [|discriminate].
  destruct (encode_ref_loop_length _ _ _ _ _ _ _ _ (Nat.le_refl _) Hloop)
    as (_ & Hj & He).
  destruct (Nat.ltb_spec j (length bits)); [lia|].
  intros E; inversion E; subst rs.
  rewrite <- (app_nil_r codes).
  rewrite (decode_encode_ref_loop recurse bits false (length bits) [])
    with (n := length bits) (i := 0) (j := j); try lia; auto.
  - simpl. rewrite Nat.sub_0_r, firstn_all2 by lia. reflexivity.
  - intros Hg. discriminate.
Qed.

Lemma strip_zeroes_zeros bits e : forall k,
  strip_zeroes bits e <= k -> k < e -> nth k bits false = false.
Proof.
  induction e as [|e IH]; intros k Hge Hlt; [lia|]. simpl in Hge.
  destruct (nth e bits false) eqn:Hb; [lia|].
  destruct (Nat.eq_dec k e) as [->|Hne]; [exact Hb|].
  apply IH; lia.
Qed.

(** A glyph string decodes to the glyph when the nested calls decode the
    ref dictionary and the glyph has the size of the font. *)
Lemma decode_glyph_entry recurse bits rs :
  recurse_ok true recurse ->
  length bits = max_width fontinfo * max_height fontinfo ->
  encode_ref bits tree true = Some rs ->
  decode_refs recurse encoded fontinfo rs [] = Ok bits.
Proof.
  intros Hrec Hdim. unfold encode_ref.
  destruct (encode_ref_loop tree bits true
              (strip_zeroes bits (length bits)) 0)
    as [[codes j]|] eqn:Hloop; [|discriminate].
  destruct (encode_ref_loop_length _ _ _ _ _ _ _ _ (Nat.le_refl _) Hloop)
    as (_ & Hj & He).
  specialize (Hj (Nat.le_0_l _)).
  intros E; inversion E; subst rs. clear E.
  destruct (Nat.ltb_spec j (length bits)) as [Hlt|Hge].
  - rewrite (decode_encode_ref_loop recurse bits true
               (strip_zeroes bits (length bits)) [2%Z] Hrec
               (strip_zeroes bits (length bits)) 0 codes j []);
      try lia; auto.
    simpl. f_equal. rewrite Nat.sub_0_r. unfold resize.
    rewrite <- Hdim, length_firstn.
    rewrite firstn_all2 by (rewrite length_firstn; lia).
    replace (length bits - Nat.min j (length bits)) with (length bits - j)
      by lia.
    rewrite <- (firstn_skipn j bits) at 3. f_equal.
    rewrite (skipn_run bits false (length bits - j) j); try lia.
    + replace (j + (length bits - j)) with (length bits) by lia.
      rewrite skipn_all. symmetry. apply app_nil_r.
    + intros k Hk. apply (strip_zeroes_zeros bits (length bits)); lia.
  - rewrite <- (app_nil_r codes).
    rewrite (decode_encode_ref_loop recurse bits true
               (strip_zeroes bits (length bits)) [] Hrec
               (strip_zeroes bits (length bits)) 0 codes j []);
      try lia; auto.
    simpl. rewrite Nat.sub_0_r, firstn_all2 by lia. reflexivity.
Qed.

End RoundTrip.

Lemma Forall2_nth_error (A B : Type) (P : A -> B -> Prop) l1 l2 :
  Forall2 P l1 l2 ->
  forall i x, nth_error l1 i = Some x ->
    exists y, nth_error l2 i = Some y /\ P x y.
Proof.
  induction 1 as [|a b l1 l2 Hab _ IH]; intros [|i] x Hx; simpl in *;
    try discriminate.
  - inversion Hx; subst. eauto.
  - apply IH. exact Hx.
Qed.

Lemma Forall2_nth_error_both (A B : Type) (P : A -> B -> Prop) l1 l2 :
  Forall2 P l1 l2 ->
  forall i x y, nth_error l1 i = Some x -> nth_error l2 i = Some y -> P x y.
Proof.
  intros H i x y Hx Hy.
  destruct (Forall2_nth_error _ _ P l1 l2 H i x Hx) as (y' & Hy' & HP).
  congruence.
Qed.

Lemma used_slots_classes l :
  Permutation (used_slots l) (of_class 0 l ++ of_class 1 l).
Proof.
  induction l as [|d l IH]; simpl; [constructor|].
  unfold coding_class.
  destruct (length (replacement d) =? 0), (ref_encode d); simpl;
    try exact IH.
  - apply Permutation_cons_app. exact IH.
  - constructor. exact IH.
Qed.

Lemma of_class_flag k l :
  k < 2 ->
  Forall (fun d => ref_encode d = (k =? 1) /\ replacement d <> [])
    (of_class k l).
Proof.
  intros Hk. apply Forall_forall. intros d Hd.
  apply of_class_in in Hd. unfold coding_class in Hd.
  destruct (replacement d); simpl in Hd;
    destruct (ref_encode d), k as [|[|k]]; try lia; split;
    try reflexivity; discriminate.
Qed.

(** Decoding what [encode_font] emitted, over a dictionary in which
    [construct_tree] numbers every stored slot: a glyph comes back when it
    has the size of the font info given to the decoder. *)
Lemma decode_encode_font :
  forall datafile : DataFile,
    length (dictionary datafile) <= 252 ->
    Forall (fun d => 2 <= length (replacement d))
      (used_slots (dictionary datafile)) ->
    NoDup (map replacement (used_slots (dictionary datafile))) ->
    exists encoded,
      encode_font datafile = Some encoded
      /\ forall font i g depth,
           nth_error (glyphtable datafile) i = Some g ->
           length (data g) = max_width font * max_height font ->
           decode_glyph_at (S (S depth)) encoded i font = Ok (data g).
Proof.
  intros datafile Hsize Hbits Hnd.
  destruct (encode_font_total datafile) as [encoded Henc].
  exists encoded. split; [exact Henc|].
  set (rle_entries := of_class 0 (dictionary datafile)).
  set (ref_entries := of_class 1 (dictionary datafile)).
  pose proof (used_slots_classes (dictionary datafile)) as Hperm.
  fold rle_entries ref_entries in Hperm.
  (* what was emitted, over the tree of the numbered slots *)
  pose proof Henc as Hspec. rewrite encode_font_nonempty in Hspec.
  cbv zeta in Hspec. fold rle_entries ref_entries in Hspec.
  destruct (encode_dictionary (construct_tree (rle_entries ++ ref_entries))
              (rle_entries ++ ref_entries) [] [])
    as [[rle refd]|] eqn:Hd; [|discriminate].
  destruct (encode_glyphs (construct_tree (rle_entries ++ ref_entries))
              (glyphtable datafile) [])
    as [gl|] eqn:Hg; [|discriminate].
  inversion Hspec; subst encoded. clear Hspec.
  apply encode_dictionary_spec in Hd as (Hrle & suffix & Hrefd & Href).
  apply encode_glyphs_spec in Hg as (gsuffix & Hgl & Hglyph).
  simpl in Hrle, Hrefd, Hgl.
  subst rle_entries ref_entries.
  rewrite !of_class_app, !of_class_of_class in Hrle, Href.
  simpl in Hrle, Href. rewrite app_nil_r in Hrle.
  subst rle refd gl.
  set (rle_entries := of_class 0 (dictionary datafile)) in *.
  set (ref_entries := of_class 1 (dictionary datafile)) in *.
  (* the hypotheses of the round trip lemmas *)
  assert (Hflag : Forall (fun d => ref_encode d = true) ref_entries).
  { eapply Forall_impl; [|apply (of_class_flag 1); lia].
    intros d [H _]. exact H. }
  assert (Hlen : length (rle_entries ++ ref_entries) <= 252).
  { rewrite length_app.
    pose proof (of_class_lengths (dictionary datafile)). subst rle_entries
      ref_entries. lia. }
  assert (Hinv : tree_inv (rle_entries ++ ref_entries)
                   (construct_tree (rle_entries ++ ref_entries))).
  { apply construct_tree_inv; [| |exact Hlen].
    - eapply Permutation_Forall; [exact Hperm | exact Hbits].
    - eapply Permutation_NoDup; [|exact Hnd].
      apply Permutation_map. exact Hperm. }
  set (encoded := mk_encoded_font
                    (map (fun d => encode_rle (replacement d)) rle_entries)
                    suffix gsuffix).
  assert (Hrec : forall font depth,
            recurse_ok ref_entries encoded true
              (fun sub => decode_glyph (S depth) encoded sub font)).
  { intros font depth _ k d rs Hk Hrs. simpl.
    apply (decode_ref_entry rle_entries ref_entries encoded font
             Hflag Hlen Hinv eq_refl Href).
    apply (Forall2_nth_error_both _ _ _ _ _ Href k d rs Hk Hrs). }
  intros font i g depth Hi Hdim.
  destruct (Forall2_nth_error _ _ _ _ _ Hglyph i g Hi) as (rs & Hrs & Hcode).
  unfold decode_glyph_at.
  change (glyphs encoded) with gsuffix. rewrite Hrs.
  cbn [decode_glyph].
  apply (decode_glyph_entry rle_entries ref_entries encoded font
           Hflag Hlen Hinv eq_refl Href);
    [apply Hrec | exact Hdim | exact Hcode].
Qed.

(** Two slots with the same bits shift the codes as well: the slot [1,0]
    is numbered 5, which the decoder reads as the second stored string,
    the duplicate of [1,1]. *)
Lemma duplicate_entry_breaks_roundtrip :
  forall n depth,
    encode_font (with_free_slots duplicate_font n)
    = Some (mk_encoded_font [[130%Z]; [130%Z]; [129%Z; 1%Z]] [] [[5%Z]])
    /\ decode_glyph_at (S depth)
         (mk_encoded_font [[130%Z]; [130%Z]; [129%Z; 1%Z]] [] [[5%Z]]) 0
         (fontinfo duplicate_font)
       = Ok [true; true].
Proof.
  intros n depth. rewrite encode_font_free_slots.
  split; [vm_compute; reflexivity | reflexivity].
Qed.

(** X1.  Round trip, where it holds.  When every non-empty slot has at
    least 2 bits and no two non-empty slots hold the same bits (so that
    [construct_tree] numbers every stored slot), a dictionary of at most
    252 slots and glyphs of [max_width * max_height] bits are decoded bit
    for bit. *)
Theorem roundtrip_numbered_slots :
  forall datafile : DataFile,
    length (dictionary datafile) <= 252 ->
    Forall (fun d => 2 <= length (replacement d))
      (used_slots (dictionary datafile)) ->
    NoDup (map replacement (used_slots (dictionary datafile))) ->
    Forall (fun g => length (data g)
                     = max_width (fontinfo datafile)
                       * max_height (fontinfo datafile))
      (glyphtable datafile) ->
    exists encoded,
      encode_font datafile = Some encoded
      /\ forall i g depth,
           nth_error (glyphtable datafile) i = Some g ->
           decode_glyph_at (S (S depth)) encoded i (fontinfo datafile)
           = Ok (data g).
Proof.
  intros datafile Hsize Hbits Hnd Hdim.
  destruct (decode_encode_font datafile Hsize Hbits Hnd)
    as (encoded & Henc & Hdecode).
  exists encoded. split; [exact Henc|].
  intros i g depth Hi. apply Hdecode; [exact Hi|].
  rewrite Forall_forall in Hdim. apply Hdim.
  eapply nth_error_In. exact Hi.
Qed.

Lemma roundtrip_numbered_slots_on_small_font :
  exists encoded,
    encode_font small_font = Some encoded
    /\ forall i g depth,
         nth_error (glyphtable small_font) i = Some g ->
         decode_glyph_at (S (S depth)) encoded i (fontinfo small_font)
         = Ok (data g).
Proof.
  apply roundtrip_numbered_slots.
  - simpl. lia.
  - repeat constructor.
  - repeat constructor; simpl; intuition discriminate.
  - repeat constructor.
Defined.

(** *** The theorems on sample fonts *)

Lemma emitted_codes_in_range_witness :
  length (dictionary small_font) <= 252
  /\ exists encoded,
       encode_font small_font = Some encoded
       /\ forall rs r,
            In rs (glyphs encoded) \/ In rs (ref_dictionary encoded) ->
            In r rs ->
            (r = 0 \/ r = 1 \/ r = 2
             \/ 4 <= r <= 3 + Z.of_nat (length (rle_dictionary encoded))
                          + Z.of_nat (length (ref_dictionary encoded)))%Z
            /\ r <> 3%Z.
Proof.
  split; [simpl; lia|].
  apply (emitted_codes_in_range small_font). simpl. lia.
Defined.

Lemma ref_dictionary_acyclic_witness :
  length (dictionary small_font) <= 252
  /\ exists encoded,
       encode_font small_font = Some encoded
       /\ forall rs,
            In rs (ref_dictionary encoded) ->
            (forall r, In r rs ->
               (r = 0 \/ r = 1
                \/ 4 <= r
                   <= 3 + Z.of_nat (length (rle_dictionary encoded)))%Z)
            /\ forall (fontinfo : fontinfo_t) (depth : nat),
                 exists bits,
                   decode_glyph (S depth) encoded rs fontinfo = Ok bits.
Proof.
  split; [simpl; lia|].
  apply (ref_dictionary_acyclic small_font). simpl. lia.
Defined.

(** C1 on fonts the code mishandles.  [single_bit_font] has a 2x1 glyph
    [1,1] of exactly [max_width * max_height] bits and the dictionary
    slots [1] and [1,1], both RLE coded, followed by any number of empty
    slots.  [construct_tree] gives no index to the slot [1] (its node is
    the hardcoded entry 1) and so numbers the slot [1,1] as code 4, while
    [encode_font] stores both slots: code 4 is the first RLE string, the
    one of [1].  The glyph is emitted as [4] and decodes to [1], not to
    [1,1]. *)
Theorem single_bit_entry_breaks_roundtrip :
  forall n : nat,
    let datafile := with_free_slots single_bit_font n in
    length (dictionary datafile) = 2 + n
    /\ (forall g, In g (glyphtable datafile) ->
          length (data g)
          = max_width (fontinfo datafile) * max_height (fontinfo datafile))
    /\ nth_error (glyphtable datafile) 0
       = Some (mk_glyphentry [true; true] 2)
    /\ encode_font datafile
       = Some (mk_encoded_font [[129%Z]; [130%Z]] [] [[4%Z]])
    /\ forall depth,
         decode_glyph_at (S depth)
           (mk_encoded_font [[129%Z]; [130%Z]] [] [[4%Z]]) 0
           (fontinfo datafile)
         = Ok [true].
Proof.
  intros n datafile. subst datafile.
  split; [simpl; rewrite repeat_length; reflexivity|].
  split; [intros g [<-|[]]; reflexivity|].
  split; [reflexivity|].
  split; [rewrite encode_font_free_slots; vm_compute; reflexivity|].
  intros depth. reflexivity.
Qed.

End EncodeSpec.

(** ** Properties of the optimizer *)

Module OptimizeSpec.
Import Encode Optimize EncodeSpec Samples.

Section Optimizer.
Variable dictionarysize : nat.
Context {rnd_t : Type} {RND : UniformRandom rnd_t}.

Lemma draw_some a b rnd :
  (a <= b)%Z ->
  exists v rnd', draw a b rnd = Some (v, rnd')
    /\ v = fst (uniform_int_distribution a b rnd) /\ (a <= v <= b)%Z.
Proof.
  intros H. unfold draw. destruct (Z.leb_spec a b); [|lia].
  pose proof (uniform_int_distribution_range a b rnd H) as Hr.
  destruct (uniform_int_distribution a b rnd) as [v rnd']. simpl in *.
  eauto.
Qed.

Lemma draw_range a b rnd v rnd' :
  draw a b rnd = Some (v, rnd') ->
  (a <= v <= b)%Z /\ v = fst (uniform_int_distribution a b rnd).
Proof.
  unfold draw. destruct (Z.leb_spec a b); [|discriminate].
  pose proof (uniform_int_distribution_range a b rnd H) as Hr.
  destruct (uniform_int_distribution a b rnd) as [v0 rnd0]. simpl in *.
  intros E; inversion E; subst. auto.
Qed.

Lemma size_sub_exact a b :
  (0 <= b <= a)%Z -> (a < 2 ^ 64)%Z -> size_sub a b = (a - b)%Z.
Proof.
  intros H1 H2. unfold size_sub. apply Z.mod_small. lia.
Qed.

(** *** random_substring *)

(** C10.  [random_substring] has a defined result exactly when the font
    has at least one glyph and the glyph drawn by the first distribution
    has at least 2 bits: with no glyph the lookup of the drawn index
    fails, and on a glyph of fewer than 2 bits the length distribution
    [2, size] is empty.  When defined, the result is a contiguous slice of
    the drawn glyph whose length lies in [2, glyph bit length]. *)
Theorem random_substring_domain :
  forall (datafile : DataFile) (rnd : rnd_t),
    (Z.of_nat (GetGlyphCount datafile) < 2 ^ 64)%Z ->
    (forall g, In g (glyphtable datafile) ->
       (Z.of_nat (length (data g)) < 2 ^ 64)%Z) ->
    let index :=
      Z.to_nat (fst (uniform_int_distribution 0
                       (size_sub (Z.of_nat (GetGlyphCount datafile)) 1) rnd))
    in
    match random_substring datafile rnd with
    | None =>
        GetGlyphCount datafile = 0
        \/ exists g, GetGlyphEntry datafile index = Some g
                     /\ length (data g) < 2
    | Some (sub, _) =>
        1 <= GetGlyphCount datafile
        /\ exists g start,
             GetGlyphEntry datafile index = Some g
             /\ 2 <= length (data g)
             /\ sub = firstn (length sub) (skipn start (data g))
             /\ 2 <= length sub <= length (data g)
             /\ start + length sub <= length (data g)
    end.
Proof.
  intros datafile rnd Hcount Hbits index. unfold random_substring.
  destruct (Nat.eq_dec (GetGlyphCount datafile) 0) as [Hzero|Hpos].
  - (* no glyph: whatever index is drawn, the lookup fails *)
    assert (Hnone : forall i, GetGlyphEntry datafile i = None).
    { intros i. unfold GetGlyphEntry, GetGlyphCount in *.
      destruct (glyphtable datafile); [destruct i; reflexivity|discriminate]. }
    destruct (draw 0 _ rnd) as [[i rnd1]|]; [|auto].
    rewrite Hnone. auto.
  - assert (Hsub : size_sub (Z.of_nat (GetGlyphCount datafile)) 1
                   = (Z.of_nat (GetGlyphCount datafile) - 1)%Z)
      by (apply size_sub_exact; lia).
    subst index. rewrite Hsub.
    destruct (@draw_some 0 (Z.of_nat (GetGlyphCount datafile) - 1) rnd)
      as (i & rnd1 & Hd & Hi & Hrange); [lia|].
    rewrite Hd, <- Hi.
    destruct (GetGlyphEntry datafile (Z.to_nat i)) as [g|] eqn:Hg.
    2:{ apply nth_error_None in Hg. unfold GetGlyphCount in *. lia. }
    assert (Hin : In g (glyphtable datafile))
      by (eapply nth_error_In; exact Hg).
    specialize (Hbits g Hin).
    destruct (Nat.lt_ge_cases (length (data g)) 2) as [Hshort|Hlong].
    + unfold draw at 1. destruct (Z.leb_spec 2 (Z.of_nat (length (data g))));
        [lia|]. right. eauto.
    + destruct (@draw_some 2 (Z.of_nat (length (data g))) rnd1)
        as (len & rnd2 & Hd2 & _ & Hlen); [lia|].
      rewrite Hd2.
      rewrite size_sub_exact by lia.
      destruct (@draw_some 0 (Z.of_nat (length (data g)) - len) rnd2)
        as (start & rnd3 & Hd3 & _ & Hstart); [lia|].
      rewrite Hd3. split; [lia|].
      exists g, (Z.to_nat start).
      assert (Hl : length (firstn (Z.to_nat len)
                             (skipn (Z.to_nat start) (data g)))
                   = Z.to_nat len).
      { rewrite length_firstn, length_skipn. lia. }
      rewrite Hl. repeat split; auto; lia.
Qed.

(** *** Rejection *)

Lemma accept_reject datafile trial size index d newsize :
  get_encoded_size_of trial = Some newsize -> size <= newsize ->
  accept datafile trial size index d = Some (datafile, size).
Proof.
  intros Hsize Hle. unfold accept. rewrite Hsize.
  destruct (Nat.ltb_spec newsize size); [lia|]. reflexivity.
Qed.

(** C9.  For each of the seven operators, when the encoded size of the
    trial is not below the current size, the operator returns the live
    DataFile (dictionary, glyphs and seed) and the tracked size exactly as
    they were: every mutation is made on the trial copy.  The same holds
    when [optimize_trim] returns early. *)
Theorem rejection_leaves_datafile :
  forall (datafile : DataFile) (size : nat) (rnd : rnd_t),
    (forall trial worst d rnd' newsize,
        worst_trial datafile rnd = Some (trial, worst, d, rnd') ->
        get_encoded_size_of trial = Some newsize -> size <= newsize ->
        optimize_worst datafile size rnd = Some (datafile, size, rnd'))
    /\ (forall trial index d rnd' newsize,
          any_trial dictionarysize datafile rnd
            = Some (trial, index, d, rnd') ->
          get_encoded_size_of trial = Some newsize -> size <= newsize ->
          optimize_any dictionarysize datafile size rnd
            = Some (datafile, size, rnd'))
    /\ (forall trial index d rnd' newsize,
          expand_trial dictionarysize datafile rnd
            = Some (trial, index, d, rnd') ->
          get_encoded_size_of trial = Some newsize -> size <= newsize ->
          optimize_expand dictionarysize datafile size rnd
            = Some (datafile, size, rnd'))
    /\ (forall mutation rnd',
          trim_trial dictionarysize datafile rnd = Some (mutation, rnd') ->
          match mutation with
          | None => True
          | Some (trial, _, _, _, _) =>
              exists newsize,
                get_encoded_size_of trial = Some newsize /\ size <= newsize
          end ->
          optimize_trim dictionarysize datafile size rnd
            = Some (datafile, size, rnd'))
    /\ (forall trial index d rnd' newsize,
          refdict_trial dictionarysize datafile rnd
            = Some (trial, index, d, rnd') ->
          get_encoded_size_of trial = Some newsize -> size <= newsize ->
          optimize_refdict dictionarysize datafile size rnd
            = Some (datafile, size, rnd'))
    /\ (forall trial worst d rnd' newsize,
          combine_trial dictionarysize datafile rnd
            = Some (trial, worst, d, rnd') ->
          get_encoded_size_of trial = Some newsize -> size <= newsize ->
          optimize_combine dictionarysize datafile size rnd
            = Some (datafile, size, rnd'))
    /\ (forall trial newsize rnd',
          bigjump_trial dictionarysize datafile rnd
            = Some (trial, newsize, rnd') ->
          size <= newsize ->
          optimize_bigjump dictionarysize datafile size rnd
            = Some (datafile, size, rnd')).
Proof.
  intros datafile size rnd. repeat split.
  - intros trial worst d rnd' newsize Ht Hs Hle.
    unfold optimize_worst. rewrite Ht.
    rewrite (accept_reject _ _ _ _ _ _ Hs Hle). reflexivity.
  - intros trial index d rnd' newsize Ht Hs Hle.
    unfold optimize_any. rewrite Ht.
    rewrite (accept_reject _ _ _ _ _ _ Hs Hle). reflexivity.
  - intros trial index d rnd' newsize Ht Hs Hle.
    unfold optimize_expand. rewrite Ht.
    rewrite (accept_reject _ _ _ _ _ _ Hs Hle). reflexivity.
  - intros mutation rnd' Ht Hm.
    unfold optimize_trim. rewrite Ht.
    destruct mutation as [[[[[trial index] d] start] end_]|];
      [|reflexivity].
    destruct Hm as (newsize & Hs & Hle).
    rewrite (accept_reject _ _ _ _ _ _ Hs Hle). reflexivity.
  - intros trial index d rnd' newsize Ht Hs Hle.
    unfold optimize_refdict. rewrite Ht.
    rewrite (accept_reject _ _ _ _ _ _ Hs Hle). reflexivity.
  - intros trial worst d rnd' newsize Ht Hs Hle.
    unfold optimize_combine. rewrite Ht.
    rewrite (accept_reject _ _ _ _ _ _ Hs Hle). reflexivity.
  - intros trial newsize rnd' Ht Hle.
    unfold optimize_bigjump. rewrite Ht.
    destruct (Nat.ltb_spec newsize size); [lia|]. reflexivity.
Qed.

(** *** Slots and sizes *)

Lemma get_encoded_size_of_total datafile :
  exists size, get_encoded_size_of datafile = Some size.
Proof.
  unfold get_encoded_size_of.
  destruct (encode_font_total datafile) as [encoded ->]. simpl. eauto.
Qed.

Lemma get_encoded_size_of_coding d1 d2 :
  map strip (dictionary d1) = map strip (dictionary d2) ->
  glyphtable d1 = glyphtable d2 ->
  get_encoded_size_of d1 = get_encoded_size_of d2.
Proof.
  intros Hd Hg. unfold get_encoded_size_of.
  rewrite (encode_font_coding d1 d2 Hd Hg). reflexivity.
Qed.

Lemma get_encoded_size_of_bound datafile size :
  get_encoded_size_of datafile = Some size -> size <= size_bound datafile.
Proof.
  unfold get_encoded_size_of.
  destruct (encode_font datafile) as [encoded|] eqn:Henc; [|discriminate].
  simpl. intros E; inversion E; subst.
  apply encoded_size_bound. exact Henc.
Qed.

Lemma set_nth_length (A : Type) (l : list A) i x :
  i < length l -> length (set_nth l i x) = length l.
Proof.
  intros H. unfold set_nth.
  rewrite length_app, length_firstn. cbn [length]. rewrite length_skipn. lia.
Qed.

Lemma map_set_nth (A B : Type) (f : A -> B) l i x :
  map f (set_nth l i x) = set_nth (map f l) i (f x).
Proof.
  unfold set_nth. rewrite map_app. cbn [map].
  rewrite firstn_map, skipn_map. reflexivity.
Qed.

Lemma set_nth_same (A : Type) (l : list A) : forall i x,
  nth_error l i = Some x -> set_nth l i x = l.
Proof.
  unfold set_nth.
  induction l as [|y l IH]; intros [|i] x H; simpl in *; try discriminate.
  - inversion H; subst. reflexivity.
  - f_equal. apply IH. exact H.
Qed.

Lemma SetDictionaryEntry_some datafile i d datafile' :
  SetDictionaryEntry datafile i d = Some datafile' ->
  i < length (dictionary datafile)
  /\ dictionary datafile' = set_nth (dictionary datafile) i d
  /\ glyphtable datafile' = glyphtable datafile
  /\ fontinfo datafile' = fontinfo datafile
  /\ seed datafile' = seed datafile.
Proof.
  unfold SetDictionaryEntry.
  destruct (Nat.ltb_spec i (length (dictionary datafile))); [|discriminate].
  intros E; inversion E; subst; simpl. auto.
Qed.

Lemma SetDictionaryEntry_defined datafile i d :
  i < length (dictionary datafile) ->
  exists datafile', SetDictionaryEntry datafile i d = Some datafile'.
Proof.
  intros H. unfold SetDictionaryEntry.
  destruct (Nat.ltb_spec i (length (dictionary datafile))); [|lia]. eauto.
Qed.

Lemma SetDictionaryEntry_length datafile i d datafile' :
  SetDictionaryEntry datafile i d = Some datafile' ->
  length (dictionary datafile') = length (dictionary datafile).
Proof.
  intros H. apply SetDictionaryEntry_some in H as (Hi & Hd & _).
  rewrite Hd. apply set_nth_length. exact Hi.
Qed.

(** Storing entries that agree on replacement and flag in one slot gives
    DataFiles of the same encoded size. *)
Lemma SetDictionaryEntry_coding datafile i d1 d2 t1 t2 :
  SetDictionaryEntry datafile i d1 = Some t1 ->
  SetDictionaryEntry datafile i d2 = Some t2 ->
  strip d1 = strip d2 ->
  get_encoded_size_of t1 = get_encoded_size_of t2.
Proof.
  intros H1 H2 Hs.
  apply SetDictionaryEntry_some in H1 as (_ & Hd1 & Hg1 & _).
  apply SetDictionaryEntry_some in H2 as (_ & Hd2 & Hg2 & _).
  apply get_encoded_size_of_coding; [|congruence].
  rewrite Hd1, Hd2, !map_set_nth, Hs. reflexivity.
Qed.

(** Rewriting a slot with an entry that agrees with the stored one on
    replacement and flag keeps the encoded size. *)
Lemma SetDictionaryEntry_rescore datafile i d0 d datafile' :
  GetDictionaryEntry datafile i = Some d0 ->
  SetDictionaryEntry datafile i d = Some datafile' ->
  strip d = strip d0 ->
  get_encoded_size_of datafile' = get_encoded_size_of datafile
  /\ size_bound datafile' = size_bound datafile.
Proof.
  intros Hget Hset Hs.
  apply SetDictionaryEntry_some in Hset as (_ & Hd & Hg & _).
  unfold GetDictionaryEntry in Hget. split.
  - apply get_encoded_size_of_coding; [|exact Hg].
    rewrite Hd, map_set_nth, Hs. apply set_nth_same.
    rewrite nth_error_map, Hget. reflexivity.
  - unfold size_bound, dict_bits. rewrite Hg, Hd. f_equal.
    rewrite map_set_nth.
    replace (length (replacement d) + 2) with (length (replacement d0) + 2)
      by (apply (f_equal replacement) in Hs; simpl in Hs; rewrite Hs;
          reflexivity).
    rewrite set_nth_same; [reflexivity|].
    rewrite nth_error_map, Hget. reflexivity.
Qed.

Ltac bind_step H :=
  match type of H with
  | context [match ?c with Some _ => _ | None => _ end] =>
      let E := fresh "E" in destruct c eqn:E; [|try discriminate H]
  | context [let (_, _) := ?p in _] => destruct p
  end.

Ltac bind_inv H := repeat bind_step H.

Lemma accept_spec datafile trial size index d datafile' size' :
  accept datafile trial size index d = Some (datafile', size') ->
  SetDictionaryEntry datafile index d = Some trial ->
  get_encoded_size_of datafile = Some size ->
  get_encoded_size_of datafile' = Some size' /\ size' <= size.
Proof.
  unfold accept. intros H Hset Hsize.
  destruct (get_encoded_size_of trial) as [newsize|] eqn:Hnew;
    [|discriminate].
  destruct (Nat.ltb_spec newsize size).
  - destruct (SetDictionaryEntry datafile index (set_score d _))
      as [live|] eqn:Hlive; [|discriminate].
    inversion H; subst. split; [|lia].
    rewrite <- Hnew.
    eapply SetDictionaryEntry_coding; [exact Hlive | exact Hset |].
    reflexivity.
  - inversion H; subst. split; [exact Hsize | lia].
Qed.

(** *** Every operator tracks the size and never grows it *)

Lemma worst_trial_set datafile rnd trial worst d rnd' :
  worst_trial datafile rnd = Some (trial, worst, d, rnd') ->
  SetDictionaryEntry datafile worst d = Some trial.
Proof.
  unfold worst_trial. cbv zeta. intros H. bind_inv H; try discriminate.
  inversion H; subst. assumption.
Qed.

Lemma any_trial_set datafile rnd trial index d rnd' :
  any_trial dictionarysize datafile rnd = Some (trial, index, d, rnd') ->
  SetDictionaryEntry datafile index d = Some trial.
Proof.
  unfold any_trial. cbv zeta. intros H. bind_inv H; try discriminate.
  inversion H; subst. assumption.
Qed.

Lemma expand_trial_set datafile rnd trial index d rnd' :
  expand_trial dictionarysize datafile rnd = Some (trial, index, d, rnd') ->
  SetDictionaryEntry datafile index d = Some trial.
Proof.
  unfold expand_trial. cbv zeta. intros H. bind_inv H; try discriminate.
  inversion H; subst. assumption.
Qed.

Lemma trim_trial_set datafile rnd trial index d start end_ rnd' :
  trim_trial dictionarysize datafile rnd
    = Some (Some (trial, index, d, start, end_), rnd') ->
  SetDictionaryEntry datafile index d = Some trial.
Proof.
  unfold trim_trial. cbv zeta. intros H. bind_inv H.
  all: destruct (length (replacement _) <=? 2); try discriminate.
  inversion H; subst. assumption.
Qed.

Lemma refdict_trial_set datafile rnd trial index d rnd' :
  refdict_trial dictionarysize datafile rnd = Some (trial, index, d, rnd') ->
  SetDictionaryEntry datafile index d = Some trial.
Proof.
  unfold refdict_trial. cbv zeta. intros H. bind_inv H; try discriminate.
  inversion H; subst. assumption.
Qed.

Lemma combine_trial_set datafile rnd trial worst d rnd' :
  combine_trial dictionarysize datafile rnd = Some (trial, worst, d, rnd') ->
  SetDictionaryEntry datafile worst d = Some trial.
Proof.
  unfold combine_trial. cbv zeta. intros H. bind_inv H; try discriminate.
  inversion H; subst. assumption.
Qed.

Ltac operator_never_grows trial_set :=
  let H := fresh "H" in
  let Hsize := fresh "Hsize" in
  intros ? ? ? ? ? ? H Hsize;
  bind_inv H; try discriminate;
  inversion H; subst;
  eapply accept_spec;
    [eassumption | eapply trial_set; eassumption | exact Hsize].

Lemma optimize_worst_never_grows : never_grows optimize_worst.
Proof. unfold never_grows, optimize_worst. operator_never_grows worst_trial_set. Qed.

Lemma optimize_any_never_grows : never_grows (optimize_any dictionarysize).
Proof. unfold never_grows, optimize_any. operator_never_grows any_trial_set. Qed.

Lemma optimize_expand_never_grows :
  never_grows (optimize_expand dictionarysize).
Proof.
  unfold never_grows, optimize_expand. operator_never_grows expand_trial_set.
Qed.

Lemma optimize_refdict_never_grows :
  never_grows (optimize_refdict dictionarysize).
Proof.
  unfold never_grows, optimize_refdict.
  operator_never_grows refdict_trial_set.
Qed.

Lemma optimize_combine_never_grows :
  never_grows (optimize_combine dictionarysize).
Proof.
  unfold never_grows, optimize_combine.
  operator_never_grows combine_trial_set.
Qed.

Lemma optimize_trim_never_grows : never_grows (optimize_trim dictionarysize).
Proof.
  intros datafile size rnd datafile' size' rnd' H Hsize.
  unfold optimize_trim in H.
  destruct (trim_trial dictionarysize datafile rnd)
    as [[[[[[[trial index] d] start] end_]|] rnd1]|] eqn:Ht;
    [| |discriminate].
  - destruct (accept datafile trial size index d) as [[live size1]|] eqn:Ha;
      [|discriminate].
    inversion H; subst.
    eapply accept_spec; [exact Ha | eapply trim_trial_set; exact Ht
                        | exact Hsize].
  - inversion H; subst. split; [exact Hsize | lia].
Qed.

Lemma bigjump_search_never_grows rounds :
  never_grows (bigjump_search dictionarysize rounds).
Proof.
  induction rounds as [|rounds IH];
    intros trial newsize rnd trial' newsize' rnd' H Hsize; simpl in H.
  - inversion H; subst. split; [exact Hsize | lia].
  - destruct (optimize_worst trial newsize rnd) as [[[t1 s1] r1]|] eqn:H1;
      [|discriminate].
    destruct (optimize_any dictionarysize t1 s1 r1) as [[[t2 s2] r2]|] eqn:H2;
      [|discriminate].
    destruct (optimize_expand dictionarysize t2 s2 r2)
      as [[[t3 s3] r3]|] eqn:H3; [|discriminate].
    destruct (optimize_refdict dictionarysize t3 s3 r3)
      as [[[t4 s4] r4]|] eqn:H4; [|discriminate].
    destruct (optimize_combine dictionarysize t4 s4 r4)
      as [[[t5 s5] r5]|] eqn:H5; [|discriminate].
    destruct (optimize_worst_never_grows _ _ _ _ _ _ H1 Hsize) as [T1 L1].
    destruct (optimize_any_never_grows _ _ _ _ _ _ H2 T1) as [T2 L2].
    destruct (optimize_expand_never_grows _ _ _ _ _ _ H3 T2) as [T3 L3].
    destruct (optimize_refdict_never_grows _ _ _ _ _ _ H4 T3) as [T4 L4].
    destruct (optimize_combine_never_grows _ _ _ _ _ _ H5 T4) as [T5 L5].
    destruct (IH _ _ _ _ _ _ H T5) as [T6 L6].
    split; [exact T6 | lia].
Qed.

Lemma optimize_bigjump_never_grows :
  never_grows (optimize_bigjump dictionarysize).
Proof.
  intros datafile size rnd datafile' size' rnd' H Hsize.
  unfold optimize_bigjump in H.
  destruct (bigjump_trial dictionarysize datafile rnd)
    as [[[trial newsize] rnd1]|] eqn:Ht; [|discriminate].
  destruct (Nat.ltb_spec newsize size).
  - inversion H; subst. split; [|lia].
    unfold bigjump_trial in Ht. cbv zeta in Ht.
    destruct (draw 1 20 rnd) as [[dropcount r0]|]; [|discriminate].
    destruct (bigjump_drop dictionarysize _ datafile r0) as [[t0 r1]|];
      [|discriminate].
    destruct (get_encoded_size_of t0) as [s0|] eqn:Hs0; [|discriminate].
    destruct (bigjump_search_never_grows _ _ _ _ _ _ _ Ht Hs0) as [T _].
    exact T.
  - inversion H; subst. split; [exact Hsize | lia].
Qed.

Lemma optimize_loop_never_grows iterations :
  never_grows (optimize_loop dictionarysize iterations).
Proof.
  induction iterations as [|iterations IH];
    intros datafile size rnd datafile' size' rnd' H Hsize; simpl in H.
  - inversion H; subst. split; [exact Hsize | lia].
  - destruct (optimize_worst datafile size rnd) as [[[t1 s1] r1]|] eqn:H1;
      [|discriminate].
    destruct (optimize_any dictionarysize t1 s1 r1) as [[[t2 s2] r2]|] eqn:H2;
      [|discriminate].
    destruct (optimize_expand dictionarysize t2 s2 r2)
      as [[[t3 s3] r3]|] eqn:H3; [|discriminate].
    destruct (optimize_trim dictionarysize t3 s3 r3)
      as [[[t4 s4] r4]|] eqn:H4; [|discriminate].
    destruct (optimize_refdict dictionarysize t4 s4 r4)
      as [[[t5 s5] r5]|] eqn:H5; [|discriminate].
    destruct (optimize_combine dictionarysize t5 s5 r5)
      as [[[t6 s6] r6]|] eqn:H6; [|discriminate].
    destruct (optimize_worst_never_grows _ _ _ _ _ _ H1 Hsize) as [T1 L1].
    destruct (optimize_any_never_grows _ _ _ _ _ _ H2 T1) as [T2 L2].
    destruct (optimize_expand_never_grows _ _ _ _ _ _ H3 T2) as [T3 L3].
    destruct (optimize_trim_never_grows _ _ _ _ _ _ H4 T3) as [T4 L4].
    destruct (optimize_refdict_never_grows _ _ _ _ _ _ H5 T4) as [T5 L5].
    destruct (optimize_combine_never_grows _ _ _ _ _ _ H6 T5) as [T6 L6].
    destruct (IH _ _ _ _ _ _ H T6) as [T7 L7].
    split; [exact T7 | lia].
Qed.

(** *** update_scores *)

Lemma to_int_size_sub a b :
  (0 <= a < 2147483648)%Z -> (0 <= b < 2147483648)%Z ->
  to_int (size_sub a b) = (a - b)%Z.
Proof.
  intros Ha Hb. unfold to_int, size_sub.
  change (2 ^ 64)%Z with 18446744073709551616%Z.
  change (2 ^ 31)%Z with 2147483648%Z.
  change (2 ^ 32)%Z with 4294967296%Z.
  destruct (Z_le_gt_dec b a) as [Hle|Hgt].
  - rewrite (Z.mod_small (a - b)) by lia.
    rewrite Z.mod_small by lia. lia.
  - replace ((a - b) mod 18446744073709551616)%Z
      with (a - b + 18446744073709551616)%Z.
    + replace (a - b + 18446744073709551616 + 2147483648)%Z
        with (a - b + 2147483648 + 4294967296 * 4294967296)%Z by lia.
      rewrite Z.mod_add by lia. rewrite Z.mod_small by lia. lia.
    + apply Z.mod_unique with (q := (-1)%Z); lia.
Qed.

Lemma dict_bits_clear l : forall i,
  i < length l -> dict_bits (set_nth l i empty_dictentry) <= dict_bits l.
Proof.
  unfold dict_bits, set_nth.
  induction l as [|y l IH]; intros [|i] H; simpl in *; try lia.
  specialize (IH i). unfold list_sum in *. lia.
Qed.

Lemma size_bound_clear datafile i trial :
  SetDictionaryEntry datafile i empty_dictentry = Some trial ->
  size_bound trial <= size_bound datafile.
Proof.
  intros H. apply SetDictionaryEntry_some in H as (Hi & Hd & Hg & _).
  unfold size_bound. rewrite Hd, Hg.
  pose proof (dict_bits_clear (dictionary datafile) i Hi). lia.
Qed.

Lemma update_score_spec oldsize datafile i datafile' size :
  update_score oldsize datafile i = Some datafile' ->
  get_encoded_size_of datafile = Some size -> size <= oldsize ->
  (Z.of_nat (size_bound datafile) < 2147483648)%Z ->
  (Z.of_nat oldsize < 2147483648)%Z ->
  size_bound datafile' <= size_bound datafile
  /\ exists size',
       get_encoded_size_of datafile' = Some size' /\ size' <= oldsize.
Proof.
  unfold update_score. cbv zeta. intros H Hsize Hle Hbound Hold.
  destruct (SetDictionaryEntry datafile i empty_dictentry) as [trial|]
    eqn:Htrial; [|discriminate].
  destruct (get_encoded_size_of trial) as [newsize|] eqn:Hnew;
    [|discriminate].
  destruct (GetDictionaryEntry datafile i) as [d|] eqn:Hget; [|discriminate].
  pose proof (size_bound_clear _ _ _ Htrial) as Hclear.
  pose proof (get_encoded_size_of_bound _ _ Hnew) as Hnb.
  simpl score in H.
  rewrite to_int_size_sub in H by lia.
  destruct (Z.gtb_spec (Z.of_nat newsize - Z.of_nat oldsize) 0).
  - destruct (SetDictionaryEntry_rescore datafile i d _ datafile' Hget H)
      as [Hs Hb]; [reflexivity|].
    split; [lia|]. exists size. rewrite Hs. auto.
  - inversion H; subst.
    split; [exact Hclear|]. exists newsize. split; [exact Hnew | lia].
Qed.

Lemma update_scores_loop_spec oldsize slots : forall datafile datafile' size,
  update_scores_loop oldsize slots datafile = Some datafile' ->
  get_encoded_size_of datafile = Some size -> size <= oldsize ->
  (Z.of_nat (size_bound datafile) < 2147483648)%Z ->
  (Z.of_nat oldsize < 2147483648)%Z ->
  exists size',
    get_encoded_size_of datafile' = Some size' /\ size' <= oldsize.
Proof.
  induction slots as [|i slots IH];
    intros datafile datafile' size H Hsize Hle Hbound Hold; simpl in H.
  - inversion H; subst. eauto.
  - destruct (update_score oldsize datafile i) as [next|] eqn:Hstep;
      [|discriminate].
    destruct (update_score_spec _ _ _ _ _ Hstep Hsize Hle Hbound Hold)
      as (Hb & size1 & Hs1 & Hle1).
    apply (IH next datafile' size1); auto. lia.
Qed.

(** The sweep never leaves the font larger than it found it. *)
Lemma update_scores_never_grows datafile datafile' :
  (Z.of_nat (size_bound datafile) < 2147483648)%Z ->
  update_scores dictionarysize datafile = Some datafile' ->
  exists size size',
    get_encoded_size_of datafile = Some size
    /\ get_encoded_size_of datafile' = Some size' /\ size' <= size.
Proof.
  intros Hbound H. unfold update_scores in H.
  destruct (get_encoded_size_of datafile) as [oldsize|] eqn:Hold;
    [|discriminate].
  pose proof (get_encoded_size_of_bound _ _ Hold) as Hob.
  destruct (update_scores_loop_spec _ _ _ _ oldsize H Hold) as (s' & Hs & Hl);
    try lia.
  exists oldsize, s'. auto.
Qed.

Lemma SetSeed_size datafile s :
  get_encoded_size_of (SetSeed datafile s) = get_encoded_size_of datafile.
Proof. apply get_encoded_size_of_coding; reflexivity. Qed.

(** *** optimize without iterations *)

Lemma update_score_defined oldsize datafile i :
  i < length (dictionary datafile) ->
  exists datafile',
    update_score oldsize datafile i = Some datafile'
    /\ length (dictionary datafile') = length (dictionary datafile).
Proof.
  intros Hi. unfold update_score. cbv zeta.
  destruct (SetDictionaryEntry_defined datafile i empty_dictentry Hi)
    as [trial Htrial].
  rewrite Htrial.
  destruct (get_encoded_size_of_total trial) as [newsize ->].
  destruct (GetDictionaryEntry datafile i) as [d|] eqn:Hget.
  2:{ apply nth_error_None in Hget. lia. }
  destruct (score (set_score d _) >? 0)%Z.
  - destruct (SetDictionaryEntry_defined datafile i
                (set_score d (to_int (size_sub (Z.of_nat newsize)
                                        (Z.of_nat oldsize)))) Hi)
      as [live Hlive].
    rewrite Hlive. exists live. split; [reflexivity|].
    eapply SetDictionaryEntry_length. exact Hlive.
  - exists trial. split; [reflexivity|].
    eapply SetDictionaryEntry_length. exact Htrial.
Qed.

Lemma update_scores_loop_defined oldsize slots : forall datafile,
  (forall i, In i slots -> i < length (dictionary datafile)) ->
  exists datafile', update_scores_loop oldsize slots datafile = Some datafile'.
Proof.
  induction slots as [|i slots IH]; intros datafile Hslots; simpl; eauto.
  destruct (update_score_defined oldsize datafile i) as (next & -> & Hlen);
    [apply Hslots; left; reflexivity|].
  apply IH. intros j Hj. rewrite Hlen. apply Hslots. right. exact Hj.
Qed.

Lemma update_scores_defined datafile :
  length (dictionary datafile) = dictionarysize ->
  exists datafile', update_scores dictionarysize datafile = Some datafile'.
Proof.
  intros Hlen. unfold update_scores.
  destruct (get_encoded_size_of_total datafile) as [oldsize ->].
  apply update_scores_loop_defined.
  intros i Hi. apply in_seq in Hi. lia.
Qed.

(** C7, as the code has it.  [optimize] with no iteration runs the
    [update_scores] sweep and the reseed and nothing else: its result is
    the DataFile left by the sweep with a new seed.  The encoded size does
    not increase: it is the size the sweep leaves, which is at most the
    original one.  (It need not be the original one, since the sweep
    clears the slots whose score is not above zero.) *)
Theorem optimize_zero_iterations :
  forall datafile : DataFile,
    length (dictionary datafile) = dictionarysize ->
    (Z.of_nat (size_bound datafile) < 2 ^ 31)%Z ->
    exists swept s,
      update_scores dictionarysize datafile = Some swept
      /\ optimize dictionarysize datafile 0 = Some (SetSeed swept s)
      /\ exists size size',
           get_encoded_size_of datafile = Some size
           /\ get_encoded_size_of swept = Some size'
           /\ get_encoded_size_of (SetSeed swept s) = Some size'
           /\ size' <= size.
Proof.
  intros datafile Hlen Hbound.
  change (2 ^ 31)%Z with 2147483648%Z in Hbound.
  destruct (update_scores_defined datafile Hlen) as [swept Hsweep].
  destruct (update_scores_never_grows _ _ Hbound Hsweep)
    as (size & size' & Hs & Hs' & Hle).
  destruct (draw_some 0 (2 ^ 32 - 1)
              (rnd_seed (GetSeed datafile)))
    as (s & rnd' & Hdraw & _); [lia|].
  exists swept, s. split; [exact Hsweep|]. split.
  - unfold optimize. cbv zeta. rewrite Hsweep, Hs'. cbn [optimize_loop].
    rewrite Hdraw. reflexivity.
  - exists size, size'. rewrite SetSeed_size. auto.
Qed.

(** *** optimize_trim *)

Lemma skipn_last (A : Type) (d : A) (l : list A) :
  l <> [] -> skipn (length l - 1) l = [last l d].
Proof.
  induction l as [|x l IH]; [congruence|]. intros _.
  destruct l as [|y l]; [reflexivity|].
  replace (length (x :: y :: l) - 1) with (S (length (y :: l) - 1))
    by (simpl; lia).
  cbn [skipn]. rewrite IH by discriminate. reflexivity.
Qed.

Lemma last_skipn (A : Type) (d : A) (l : list A) : forall n,
  n < length l -> last (skipn n l) d = last l d.
Proof.
  induction l as [|x l IH]; intros [|n] H; simpl in *; try lia; auto.
  rewrite IH by lia. destruct l; [simpl in H; lia | reflexivity].
Qed.

Lemma trim_replacement_spec (r : bitstring_t) start end_ :
  (0 <= start)%Z -> (0 <= end_)%Z ->
  (start + end_ <= Z.of_nat (length r))%Z ->
  (start < Z.of_nat (length r))%Z ->
  trim_replacement r start end_
  = Some (trimmed r (Z.to_nat start) (Z.to_nat end_)).
Proof.
  intros Hs He Hsum Hlt. unfold trim_replacement, trimmed.
  assert (Hfront : (if negb (start =? 0)%Z then erase r 0 (0 + start)
                    else Some r) = Some (skipn (Z.to_nat start) r)).
  { destruct (Z.eqb_spec start 0) as [->|Hne]; simpl; [reflexivity|].
    unfold erase.
    destruct ((0 <=? 0) && (0 <=? start) && (start <=? Z.of_nat (length r)))%Z
      eqn:Hc; [reflexivity|].
    rewrite !andb_false_iff, !Z.leb_gt in Hc. lia. }
  rewrite Hfront.
  assert (Hlen : length (skipn (Z.to_nat start) r)
                 = length r - Z.to_nat start) by apply length_skipn.
  destruct (Z.eqb_spec end_ 0) as [->|Hne]; simpl; [reflexivity|].
  destruct (Nat.eqb_spec (Z.to_nat end_) 0); [lia|].
  unfold erase. rewrite Hlen.
  destruct ((0 <=? Z.of_nat (length r - Z.to_nat start) - end_)
            && (Z.of_nat (length r - Z.to_nat start) - end_
                <=? Z.of_nat (length r - Z.to_nat start) - 1)
            && (Z.of_nat (length r - Z.to_nat start) - 1
                <=? Z.of_nat (length r - Z.to_nat start)))%Z eqn:Hc.
  2:{ rewrite !andb_false_iff, !Z.leb_gt in Hc. lia. }
  f_equal. f_equal.
  - f_equal. lia.
  - replace (Z.to_nat (Z.of_nat (length r - Z.to_nat start) - 1))
      with (length (skipn (Z.to_nat start) r) - 1) by lia.
    rewrite (skipn_last _ false).
    + rewrite last_skipn by lia. reflexivity.
    + intros E. rewrite E in Hlen. simpl in Hlen. lia.
Qed.

Lemma trimmed_length old start end_ :
  start + end_ <= length old -> start < length old ->
  length (trimmed old start end_) = length old - start - (end_ - 1)
  /\ last (trimmed old start end_) false = last old false.
Proof.
  intros Hsum Hlt. unfold trimmed.
  destruct (Nat.eqb_spec end_ 0) as [->|Hne].
  - rewrite length_skipn, last_skipn by lia. split; [lia | reflexivity].
  - rewrite length_app, length_firstn, length_skipn, last_last.
    simpl. split; [lia | reflexivity].
Qed.

Lemma nth_error_set_nth (A : Type) (l : list A) i x :
  i < length l -> nth_error (set_nth l i x) i = Some x.
Proof.
  intros H. unfold set_nth.
  rewrite nth_error_app2 by (rewrite length_firstn; lia).
  rewrite length_firstn. replace (i - Nat.min i (length l)) with 0 by lia.
  reflexivity.
Qed.

(** With [end] 1 the back [erase] has an empty range. *)
Lemma trimmed_one old start :
  start < length old -> trimmed old start (Z.to_nat 1) = skipn start old.
Proof.
  intros Hs. unfold trimmed. change (Z.to_nat 1 =? 0) with false.
  change (Z.to_nat 1) with 1. cbv iota.
  assert (Hne : skipn start old <> []).
  { intros H. apply (f_equal (@length _)) in H.
    rewrite length_skipn in H. simpl in H. lia. }
  symmetry. etransitivity; [apply (app_removelast_last false Hne)|].
  rewrite removelast_firstn_len, length_skipn, last_skipn by exact Hs.
  replace (Init.Nat.pred (length old - start)) with (length old - start - 1)
    by lia.
  reflexivity.
Qed.

(** C8, where the code departs from it.  In an accepted trim of a slot of
    more than 2 bits the drawn [start] and [end] lie in [0, min(len/2, 5)]
    and the front [erase] removes exactly [start] bits, but the back
    [erase(end() - end, end() - 1)] removes [end - 1] bits, not the [end]
    bits the claim and the operator's own message ("[end] bits from end")
    speak of: whenever [end] is not zero the slot is one bit longer than
    after erasing [start] and [end] bits, and a drawn [end] of 1 erases
    nothing at the back.  The original final bit stays last. *)
Theorem trim_erasure :
  forall (datafile : DataFile) (size : nat) (rnd : rnd_t)
         (trial : DataFile) (index : nat) (d : dictentry_t)
         (start end_ : Z) (rnd' : rnd_t) (old : dictentry_t) (newsize : nat),
    trim_trial dictionarysize datafile rnd
      = Some (Some (trial, index, d, start, end_), rnd') ->
    GetDictionaryEntry datafile index = Some old ->
    (Z.of_nat (length (replacement old)) < 2 ^ 31)%Z ->
    get_encoded_size_of trial = Some newsize -> newsize < size ->
    let len := length (replacement old) in
    2 < len
    /\ (0 <= start <= Z.min (Z.of_nat len / 2) 5)%Z
    /\ (0 <= end_ <= Z.min (Z.of_nat len / 2) 5)%Z
    /\ (exists datafile' d',
          optimize_trim dictionarysize datafile size rnd
            = Some (datafile', newsize, rnd')
          /\ GetDictionaryEntry datafile' index = Some d'
          /\ replacement d' = replacement d)
    /\ replacement d
       = trimmed (replacement old) (Z.to_nat start) (Z.to_nat end_)
    /\ length (replacement d)
       = len - Z.to_nat start - (Z.to_nat end_ - 1)
    /\ last (replacement d) false = last (replacement old) false
    /\ ((0 < end_)%Z ->
        length (replacement d)
        = S (len - Z.to_nat start - Z.to_nat end_)
        /\ length (replacement d)
           <> len - Z.to_nat start - Z.to_nat end_)
    /\ (end_ = 1%Z ->
        replacement d = skipn (Z.to_nat start) (replacement old)).
Proof.
  intros datafile size rnd trial index d start end_ rnd' old newsize
    Htrial Hold Hint Hnew Hacc len.
  change (2 ^ 31)%Z with 2147483648%Z in Hint.
  pose proof (trim_trial_set _ _ _ _ _ _ _ _ Htrial) as Hset.
  pose proof Htrial as Ht. unfold trim_trial in Ht. cbv zeta in Ht.
  destruct (draw 0 (size_sub (Z.of_nat dictionarysize) 1) rnd)
    as [[i rnd1]|] eqn:Hdi; [|discriminate].
  destruct (GetDictionaryEntry datafile (Z.to_nat i)) as [d0|] eqn:Hget;
    [|discriminate].
  destruct (Nat.leb_spec (length (replacement d0)) 2) as [Hshort|Hlong];
    [discriminate|].
  set (bound := to_size_t
                  (Z.min (to_int (Z.of_nat (length (replacement d0))) ÷ 2) 5))
    in Ht.
  destruct (draw 0 bound rnd1) as [[s rnd2]|] eqn:Hds; [|discriminate].
  destruct (draw 0 bound rnd2) as [[e rnd3]|] eqn:Hde; [|discriminate].
  destruct (trim_replacement (replacement d0) s e) as [r|] eqn:Hr;
    [|discriminate].
  destruct (SetDictionaryEntry datafile (Z.to_nat i) (set_replacement d0 r))
    as [t|] eqn:Hst; [|discriminate].
  inversion Ht; subst trial index d start end_ rnd'. clear Ht.
  rewrite Hget in Hold. inversion Hold; subst d0. clear Hold.
  fold len in Hlong, Hint.
  assert (Hbound : bound = Z.min (Z.of_nat len / 2) 5).
  { subst bound. fold len. rewrite to_int_small by lia.
    rewrite Z.quot_div_nonneg by lia.
    unfold to_size_t. apply Z.mod_small.
    change (2 ^ 64)%Z with 18446744073709551616%Z.
    pose proof (Z.div_pos (Z.of_nat len) 2). lia. }
  apply draw_range in Hds as [Hs _]. apply draw_range in Hde as [He _].
  rewrite Hbound in Hs, He.
  assert (Hhalf : (2 * (Z.of_nat len / 2) <= Z.of_nat len)%Z)
    by (apply Z.mul_div_le; lia).
  rewrite trim_replacement_spec in Hr by (fold len; lia).
  inversion Hr; subst r. clear Hr.
  destruct (trimmed_length (replacement old) (Z.to_nat s) (Z.to_nat e))
    as [Hl1 Hl2]; try (fold len; lia).
  split; [exact Hlong|]. split; [exact Hs|]. split; [exact He|].
  split.
  2:{ cbn [set_replacement replacement].
      split; [reflexivity|]. split; [exact Hl1|]. split; [exact Hl2|].
      split.
      - intros Hpos. rewrite Hl1. fold len. lia.
      - intros ->. apply trimmed_one. fold len. lia. }
  unfold optimize_trim. rewrite Htrial.
  unfold accept. rewrite Hnew.
  destruct (Nat.ltb_spec newsize size); [|lia].
  pose proof Hset as Hi. apply SetDictionaryEntry_some in Hi as [Hi _].
  destruct (SetDictionaryEntry_defined datafile (Z.to_nat i)
              (set_score (set_replacement old
                            (trimmed (replacement old) (Z.to_nat s)
                               (Z.to_nat e)))
                 (to_int (size_sub (Z.of_nat size) (Z.of_nat newsize)))) Hi)
    as [live Hlive].
  rewrite Hlive. eexists. eexists. split; [reflexivity|].
  apply SetDictionaryEntry_some in Hlive as (_ & Hd & _).
  unfold GetDictionaryEntry. rewrite Hd.
  split; [apply nth_error_set_nth; exact Hi | reflexivity].
Qed.

(** *** The operators return *)

Lemma low_score_index_bound l : forall i best s,
  best < i -> low_score_index l i best s < i + length l.
Proof.
  induction l as [|d l IH]; intros i best s H; simpl; [lia|].
  destruct (low_score d <? s)%Z.
  - specialize (IH (S i) i (low_score d)). lia.
  - specialize (IH (S i) best s). lia.
Qed.

Lemma GetLowScoreIndex_bound datafile :
  1 <= length (dictionary datafile) ->
  GetLowScoreIndex datafile < length (dictionary datafile).
Proof.
  unfold GetLowScoreIndex. destruct (dictionary datafile) as [|d l];
    simpl; [lia|]. intros _.
  pose proof (low_score_index_bound l 1 0 (low_score d)). lia.
Qed.

Lemma GetDictionaryEntry_defined datafile i :
  i < length (dictionary datafile) ->
  exists d, GetDictionaryEntry datafile i = Some d.
Proof.
  intros H. unfold GetDictionaryEntry.
  destruct (nth_error (dictionary datafile) i) as [d|] eqn:E; [eauto|].
  apply nth_error_None in E. lia.
Qed.

Lemma draw_slot datafile rnd :
  well_formed dictionarysize datafile ->
  exists v rnd',
    draw 0 (size_sub (Z.of_nat dictionarysize) 1) rnd = Some (v, rnd')
    /\ Z.to_nat v < length (dictionary datafile).
Proof.
  intros (Hlen & Hpos & Hmax & _).
  rewrite size_sub_exact by lia.
  destruct (draw_some 0 (Z.of_nat dictionarysize - 1) rnd)
    as (v & rnd' & Hd & _ & Hv); [lia|].
  exists v, rnd'. split; [exact Hd | lia].
Qed.

Lemma random_substring_defined datafile rnd :
  well_formed dictionarysize datafile ->
  exists sub rnd', random_substring datafile rnd = Some (sub, rnd').
Proof.
  intros (_ & _ & _ & Hcount & Hmax & Hglyphs).
  unfold random_substring, GetGlyphCount.
  rewrite size_sub_exact by lia.
  destruct (draw_some 0 (Z.of_nat (length (glyphtable datafile)) - 1) rnd)
    as (i & rnd1 & -> & _ & Hi); [lia|].
  unfold GetGlyphEntry.
  destruct (nth_error (glyphtable datafile) (Z.to_nat i)) as [g|] eqn:Hg.
  2:{ apply nth_error_None in Hg. lia. }
  rewrite Forall_forall in Hglyphs.
  destruct (Hglyphs g (nth_error_In _ _ Hg)) as [Hlo Hhi].
  destruct (draw_some 2 (Z.of_nat (length (data g))) rnd1)
    as (len & rnd2 & -> & _ & Hlen); [lia|].
  rewrite size_sub_exact by lia.
  destruct (draw_some 0 (Z.of_nat (length (data g)) - len) rnd2)
    as (start & rnd3 & -> & _); [lia|].
  eauto.
Qed.

Lemma SetDictionaryEntry_well_formed datafile i d datafile' :
  SetDictionaryEntry datafile i d = Some datafile' ->
  well_formed dictionarysize datafile ->
  well_formed dictionarysize datafile'.
Proof.
  intros Hset. pose proof (SetDictionaryEntry_length _ _ _ _ Hset) as Hlen.
  apply SetDictionaryEntry_some in Hset as (_ & _ & Hg & _).
  unfold well_formed. rewrite Hlen, Hg. tauto.
Qed.

Lemma accept_defined datafile trial size index d :
  SetDictionaryEntry datafile index d = Some trial ->
  well_formed dictionarysize datafile ->
  exists datafile' size',
    accept datafile trial size index d = Some (datafile', size')
    /\ well_formed dictionarysize datafile'.
Proof.
  intros Hset Hwf. unfold accept.
  destruct (get_encoded_size_of_total trial) as [newsize ->].
  destruct (newsize <? size); [|eauto].
  apply SetDictionaryEntry_some in Hset as [Hi _].
  destruct (SetDictionaryEntry_defined datafile index
              (set_score d (to_int (size_sub (Z.of_nat size)
                                      (Z.of_nat newsize)))) Hi)
    as [live Hlive].
  rewrite Hlive. exists live, newsize. split; [reflexivity|].
  eapply SetDictionaryEntry_well_formed; eauto.
Qed.

Ltac finish_operator Hset Hwf :=
  let Hacc := fresh "Hacc" in
  match goal with
  | |- context [accept ?D ?t ?sz ?i ?d] =>
      destruct (accept_defined D t sz i d Hset Hwf)
        as (?live & ?size' & Hacc & ?Hwf');
      rewrite Hacc; eauto
  end.

Lemma optimize_worst_defined : defined_on dictionarysize optimize_worst.
Proof.
  intros datafile size rnd Hwf. unfold optimize_worst, worst_trial. cbv zeta.
  pose proof Hwf as (Hlen & Hpos & _).
  assert (Hw : GetLowScoreIndex datafile < length (dictionary datafile))
    by (apply GetLowScoreIndex_bound; lia).
  destruct (GetDictionaryEntry_defined _ _ Hw) as [d ->].
  destruct (random_substring_defined datafile rnd Hwf) as (sub & rnd1 & ->).
  destruct (SetDictionaryEntry_defined datafile _ (set_replacement d sub) Hw)
    as [trial Hset].
  rewrite Hset. finish_operator Hset Hwf.
Qed.

Lemma optimize_any_defined :
  defined_on dictionarysize (optimize_any dictionarysize).
Proof.
  intros datafile size rnd Hwf. unfold optimize_any, any_trial. cbv zeta.
  destruct (draw_slot datafile rnd Hwf) as (v & rnd1 & -> & Hv).
  destruct (GetDictionaryEntry_defined _ _ Hv) as [d ->].
  destruct (random_substring_defined datafile rnd1 Hwf) as (sub & rnd2 & ->).
  destruct (SetDictionaryEntry_defined datafile _ (set_replacement d sub) Hv)
    as [trial Hset].
  rewrite Hset. finish_operator Hset Hwf.
Qed.

Lemma expand_bits_defined count : forall r rnd,
  exists r' rnd', expand_bits count r rnd = Some (r', rnd').
Proof.
  induction count as [|count IH]; intros r rnd; cbn [expand_bits]; [eauto|].
  destruct (draw_some 0 1 rnd) as (bit & rnd1 & -> & _); [lia|].
  destruct (draw_some 0 1 rnd1) as (prepend & rnd2 & -> & _); [lia|].
  destruct (negb (prepend =? 0)%Z); apply IH.
Qed.

Lemma optimize_expand_defined :
  defined_on dictionarysize (optimize_expand dictionarysize).
Proof.
  intros datafile size rnd Hwf. unfold optimize_expand, expand_trial.
  cbv zeta.
  destruct (draw_slot datafile rnd Hwf) as (v & rnd1 & -> & Hv).
  destruct (GetDictionaryEntry_defined _ _ Hv) as [d ->].
  destruct (draw_some 1 10 rnd1) as (count & rnd2 & -> & _); [lia|].
  destruct (expand_bits_defined (Z.to_nat count) (replacement d) rnd2)
    as (r & rnd3 & ->).
  destruct (SetDictionaryEntry_defined datafile _ (set_replacement d r) Hv)
    as [trial Hset].
  rewrite Hset. finish_operator Hset Hwf.
Qed.

Lemma optimize_refdict_defined :
  defined_on dictionarysize (optimize_refdict dictionarysize).
Proof.
  intros datafile size rnd Hwf. unfold optimize_refdict, refdict_trial.
  cbv zeta.
  destruct (draw_slot datafile rnd Hwf) as (v & rnd1 & -> & Hv).
  destruct (GetDictionaryEntry_defined _ _ Hv) as [d ->].
  destruct (SetDictionaryEntry_defined datafile _
              (set_ref_encode d (negb (ref_encode d))) Hv)
    as [trial Hset].
  rewrite Hset. finish_operator Hset Hwf.
Qed.

Lemma optimize_combine_defined :
  defined_on dictionarysize (optimize_combine dictionarysize).
Proof.
  intros datafile size rnd Hwf. unfold optimize_combine, combine_trial.
  cbv zeta.
  pose proof Hwf as (Hlen & Hpos & _).
  assert (Hw : GetLowScoreIndex datafile < length (dictionary datafile))
    by (apply GetLowScoreIndex_bound; lia).
  destruct (draw_slot datafile rnd Hwf) as (v1 & rnd1 & -> & Hv1).
  destruct (draw_slot datafile rnd1 Hwf) as (v2 & rnd2 & -> & Hv2).
  destruct (GetDictionaryEntry_defined _ _ Hv1) as [d1 ->].
  destruct (GetDictionaryEntry_defined _ _ Hv2) as [d2 ->].
  destruct (SetDictionaryEntry_defined datafile _
              (mk_dictentry (replacement d1 ++ replacement d2) 0 true) Hw)
    as [trial Hset].
  rewrite Hset. finish_operator Hset Hwf.
Qed.

(** [optimize_trim] returns when, besides, the replacements are shorter
    than 2^31 bits. *)
Lemma optimize_trim_defined datafile size rnd :
  well_formed dictionarysize datafile -> short_entries datafile ->
  exists datafile' size' rnd',
    optimize_trim dictionarysize datafile size rnd
      = Some (datafile', size', rnd')
    /\ well_formed dictionarysize datafile'.
Proof.
  intros Hwf Hshort. unfold optimize_trim, trim_trial. cbv zeta.
  destruct (draw_slot datafile rnd Hwf) as (v & rnd1 & -> & Hv).
  destruct (GetDictionaryEntry_defined _ _ Hv) as [d Hd]. rewrite Hd.
  destruct (Nat.leb_spec (length (replacement d)) 2) as [Hle|Hgt]; [eauto|].
  assert (Hint : (Z.of_nat (length (replacement d)) < 2147483648)%Z).
  { unfold short_entries in Hshort. rewrite Forall_forall in Hshort.
    apply (Hshort d). eapply nth_error_In. exact Hd. }
  set (len := length (replacement d)) in *.
  assert (Hbound : to_size_t (Z.min (to_int (Z.of_nat len) ÷ 2) 5)
                   = Z.min (Z.of_nat len / 2) 5).
  { rewrite to_int_small by lia. rewrite Z.quot_div_nonneg by lia.
    unfold to_size_t. apply Z.mod_small.
    change (2 ^ 64)%Z with 18446744073709551616%Z.
    pose proof (Z.div_pos (Z.of_nat len) 2). lia. }
  rewrite Hbound.
  assert (Hhalf : (2 * (Z.of_nat len / 2) <= Z.of_nat len)%Z)
    by (apply Z.mul_div_le; lia).
  assert (Hnonneg : (0 <= Z.of_nat len / 2)%Z) by (apply Z.div_pos; lia).
  destruct (draw_some 0 (Z.min (Z.of_nat len / 2) 5) rnd1)
    as (s & rnd2 & -> & _ & Hs); [lia|].
  destruct (draw_some 0 (Z.min (Z.of_nat len / 2) 5) rnd2)
    as (e & rnd3 & -> & _ & He); [lia|].
  rewrite trim_replacement_spec by (fold len; lia).
  destruct (SetDictionaryEntry_defined datafile _
              (set_replacement d
                 (trimmed (replacement d) (Z.to_nat s) (Z.to_nat e))) Hv)
    as [trial Hset].
  rewrite Hset. finish_operator Hset Hwf.
Qed.

Lemma bigjump_drop_defined dropcount : forall trial rnd,
  well_formed dictionarysize trial ->
  exists trial' rnd',
    bigjump_drop dictionarysize dropcount trial rnd = Some (trial', rnd')
    /\ well_formed dictionarysize trial'.
Proof.
  induction dropcount as [|dropcount IH]; intros trial rnd Hwf;
    cbn [bigjump_drop]; [eauto|]. cbv zeta.
  destruct (draw_slot trial rnd Hwf) as (v & rnd1 & -> & Hv).
  destruct (GetDictionaryEntry_defined _ _ Hv) as [d ->].
  destruct (SetDictionaryEntry_defined trial _
              (set_score (set_replacement d []) 0) Hv) as [next Hset].
  rewrite Hset. apply IH.
  eapply SetDictionaryEntry_well_formed; eauto.
Qed.

Lemma bigjump_search_defined rounds :
  defined_on dictionarysize (bigjump_search dictionarysize rounds).
Proof.
  induction rounds as [|rounds IH]; intros trial newsize rnd Hwf;
    cbn [bigjump_search]; [eauto|].
  destruct (optimize_worst_defined trial newsize rnd Hwf)
    as (t1 & s1 & r1 & -> & W1).
  destruct (optimize_any_defined t1 s1 r1 W1) as (t2 & s2 & r2 & -> & W2).
  destruct (optimize_expand_defined t2 s2 r2 W2) as (t3 & s3 & r3 & -> & W3).
  destruct (optimize_refdict_defined t3 s3 r3 W3)
    as (t4 & s4 & r4 & -> & W4).
  destruct (optimize_combine_defined t4 s4 r4 W4)
    as (t5 & s5 & r5 & -> & W5).
  apply IH. exact W5.
Qed.

Lemma optimize_bigjump_defined :
  defined_on dictionarysize (optimize_bigjump dictionarysize).
Proof.
  intros datafile size rnd Hwf. unfold optimize_bigjump, bigjump_trial.
  cbv zeta.
  destruct (draw_some 1 20 rnd) as (dropcount & rnd1 & -> & _); [lia|].
  destruct (bigjump_drop_defined (Z.to_nat (to_int dropcount)) datafile rnd1
              Hwf) as (t0 & rnd2 & -> & W0).
  destruct (get_encoded_size_of_total t0) as [newsize ->].
  destruct (bigjump_search_defined 25 t0 newsize rnd2 W0)
    as (t1 & s1 & rnd3 & -> & W1).
  destruct (s1 <? size); eauto.
Qed.

(** Every operator returns on a well-formed DataFile; [optimize_trim] asks
    in addition for replacements shorter than 2^31 bits.  So [None], in
    the results of this file, only stands for fonts without glyphs, glyphs
    of fewer than 2 bits, a dictionary without slots, or such a length. *)
Lemma operators_return :
  defined_on dictionarysize optimize_worst
  /\ defined_on dictionarysize (optimize_any dictionarysize)
  /\ defined_on dictionarysize (optimize_expand dictionarysize)
  /\ (forall datafile size rnd,
        well_formed dictionarysize datafile -> short_entries datafile ->
        exists datafile' size' rnd',
          optimize_trim dictionarysize datafile size rnd
            = Some (datafile', size', rnd')
          /\ well_formed dictionarysize datafile')
  /\ defined_on dictionarysize (optimize_refdict dictionarysize)
  /\ defined_on dictionarysize (optimize_combine dictionarysize)
  /\ defined_on dictionarysize (optimize_bigjump dictionarysize).
Proof.
  split; [apply optimize_worst_defined|].
  split; [apply optimize_any_defined|].
  split; [apply optimize_expand_defined|].
  split; [apply optimize_trim_defined|].
  split; [apply optimize_refdict_defined|].
  split; [apply optimize_combine_defined|].
  apply optimize_bigjump_defined.
Qed.

(** *** optimize returns *)

Lemma Forall_set_nth (A : Type) (P : A -> Prop) (l : list A) : forall i x,
  Forall P l -> P x -> Forall P (set_nth l i x).
Proof.
  unfold set_nth.
  induction l as [|y l IH]; intros [|i] x Hl Hx; simpl;
    try (constructor; [exact Hx | constructor]).
  - inversion Hl; subst. constructor; assumption.
  - inversion Hl; subst. constructor; [assumption|].
    apply IH; assumption.
Qed.

Lemma bits_within_le m m' datafile :
  m <= m' -> bits_within m datafile -> bits_within m' datafile.
Proof.
  intros Hle [Hd Hg]. split; eapply Forall_impl; try eassumption;
    simpl; intros; lia.
Qed.

Lemma SetDictionaryEntry_within m datafile i d datafile' :
  SetDictionaryEntry datafile i d = Some datafile' ->
  bits_within m datafile -> length (replacement d) <= m ->
  bits_within m datafile'.
Proof.
  intros Hset [Hd Hg] Hlen.
  apply SetDictionaryEntry_some in Hset as (_ & Hdict & Hgl & _).
  split; [rewrite Hdict | rewrite Hgl; exact Hg].
  apply Forall_set_nth; assumption.
Qed.

Lemma accept_within m datafile trial size index d datafile' size' :
  accept datafile trial size index d = Some (datafile', size') ->
  bits_within m datafile -> length (replacement d) <= m ->
  bits_within m datafile'.
Proof.
  unfold accept. intros H Hin Hlen.
  destruct (get_encoded_size_of trial) as [newsize|]; [|discriminate].
  destruct (newsize <? size).
  - destruct (SetDictionaryEntry datafile index (set_score d _))
      as [live|] eqn:Hlive; [|discriminate].
    inversion H; subst.
    eapply SetDictionaryEntry_within; [exact Hlive | exact Hin | exact Hlen].
  - inversion H; subst. exact Hin.
Qed.

Lemma random_substring_within m datafile rnd sub rnd' :
  random_substring datafile rnd = Some (sub, rnd') ->
  bits_within m datafile -> length sub <= m.
Proof.
  unfold random_substring. intros H [_ Hg]. bind_inv H; try discriminate.
  inversion H; subst.
  rewrite Forall_forall in Hg.
  match goal with
  | E : GetGlyphEntry _ _ = Some ?g |- _ =>
      pose proof (Hg g (nth_error_In _ _ E)) as Hlen
  end.
  rewrite length_firstn, length_skipn. lia.
Qed.

Lemma expand_bits_length count : forall r rnd r' rnd',
  expand_bits count r rnd = Some (r', rnd') ->
  length r' = length r + count.
Proof.
  induction count as [|count IH]; intros r rnd r' rnd' H;
    cbn [expand_bits] in H.
  - inversion H; subst. lia.
  - destruct (draw 0 1 rnd) as [[bit rnd1]|]; [|discriminate].
    destruct (draw 0 1 rnd1) as [[prepend rnd2]|]; [|discriminate].
    destruct (negb (prepend =? 0)%Z); apply IH in H; rewrite H;
      [simpl | rewrite length_app; simpl]; lia.
Qed.

Lemma erase_length v first last v' :
  erase v first last = Some v' -> length v' <= length v.
Proof.
  unfold erase.
  destruct ((0 <=? first) && (first <=? last)
            && (last <=? Z.of_nat (length v)))%Z eqn:Hc; [|discriminate].
  rewrite !andb_true_iff, !Z.leb_le in Hc.
  intros E; inversion E; subst.
  rewrite length_app, length_firstn, length_skipn. lia.
Qed.

Lemma trim_replacement_length r start end_ r' :
  trim_replacement r start end_ = Some r' -> length r' <= length r.
Proof.
  unfold trim_replacement. intros H.
  destruct (if negb (start =? 0)%Z then erase r 0 (0 + start) else Some r)
    as [r1|] eqn:H1; [|discriminate].
  assert (Hl1 : length r1 <= length r).
  { destruct (negb (start =? 0)%Z);
      [apply erase_length in H1; exact H1 | inversion H1; subst; lia]. }
  destruct (negb (end_ =? 0)%Z);
    [apply erase_length in H | inversion H; subst]; lia.
Qed.

Lemma entry_within m datafile i d :
  bits_within m datafile -> GetDictionaryEntry datafile i = Some d ->
  length (replacement d) <= m.
Proof.
  intros [Hd _] Hget. rewrite Forall_forall in Hd.
  apply Hd. eapply nth_error_In. exact Hget.
Qed.

Lemma worst_trial_within m datafile rnd trial worst d rnd' :
  worst_trial datafile rnd = Some (trial, worst, d, rnd') ->
  bits_within m datafile -> length (replacement d) <= m.
Proof.
  unfold worst_trial. cbv zeta. intros H Hin. bind_inv H; try discriminate.
  inversion H; subst. simpl.
  eapply random_substring_within; eassumption.
Qed.

Lemma any_trial_within m datafile rnd trial index d rnd' :
  any_trial dictionarysize datafile rnd = Some (trial, index, d, rnd') ->
  bits_within m datafile -> length (replacement d) <= m.
Proof.
  unfold any_trial. cbv zeta. intros H Hin. bind_inv H; try discriminate.
  inversion H; subst. simpl.
  eapply random_substring_within; eassumption.
Qed.

Lemma expand_trial_within m datafile rnd trial index d rnd' :
  expand_trial dictionarysize datafile rnd = Some (trial, index, d, rnd') ->
  bits_within m datafile -> length (replacement d) <= m + 10.
Proof.
  unfold expand_trial. cbv zeta. intros H Hin. bind_inv H; try discriminate.
  inversion H; subst. simpl.
  match goal with
  | E : expand_bits _ _ _ = Some _ |- _ =>
      apply expand_bits_length in E; rewrite E
  end.
  match goal with
  | E : draw 1 10 _ = Some _ |- _ => apply draw_range in E as [E _]
  end.
  match goal with
  | E : GetDictionaryEntry _ _ = Some _ |- _ =>
      pose proof (entry_within _ _ _ _ Hin E)
  end.
  lia.
Qed.

Lemma trim_trial_within m datafile rnd trial index d start end_ rnd' :
  trim_trial dictionarysize datafile rnd
    = Some (Some (trial, index, d, start, end_), rnd') ->
  bits_within m datafile -> length (replacement d) <= m.
Proof.
  unfold trim_trial. cbv zeta. intros H Hin. bind_inv H.
  all: destruct (length (replacement _) <=? 2); try discriminate.
  inversion H; subst. simpl.
  match goal with
  | E : trim_replacement _ _ _ = Some _ |- _ =>
      apply trim_replacement_length in E
  end.
  match goal with
  | E : GetDictionaryEntry _ _ = Some _ |- _ =>
      pose proof (entry_within _ _ _ _ Hin E)
  end.
  lia.
Qed.

Lemma refdict_trial_within m datafile rnd trial index d rnd' :
  refdict_trial dictionarysize datafile rnd = Some (trial, index, d, rnd') ->
  bits_within m datafile -> length (replacement d) <= m.
Proof.
  unfold refdict_trial. cbv zeta. intros H Hin. bind_inv H;
    try discriminate.
  inversion H; subst. simpl. eapply entry_within; eassumption.
Qed.

Lemma combine_trial_within m datafile rnd trial worst d rnd' :
  combine_trial dictionarysize datafile rnd = Some (trial, worst, d, rnd') ->
  bits_within m datafile -> length (replacement d) <= 2 * m.
Proof.
  unfold combine_trial. cbv zeta. intros H Hin. bind_inv H;
    try discriminate.
  inversion H; subst. simpl. rewrite length_app.
  repeat match goal with
  | E : GetDictionaryEntry _ _ = Some _ |- _ =>
      pose proof (entry_within _ _ _ _ Hin E); clear E
  end.
  lia.
Qed.

Ltac operator_within trial_within Hin :=
  match goal with
  | H : match ?t with Some _ => _ | None => _ end = Some _ |- _ =>
      let Ht := fresh "Ht" in
      let Ha := fresh "Ha" in
      destruct t as [[[[?trial ?index] ?d] ?rnd1]|] eqn:Ht;
        [|discriminate H];
      match type of H with
      | match ?a with Some _ => _ | None => _ end = Some _ =>
          destruct a as [[?live ?sz]|] eqn:Ha; [|discriminate H]
      end;
      inversion H; subst;
      eapply accept_within;
        [exact Ha | exact Hin | eapply trial_within; [exact Ht|]]
  end.

(** What one round of the main loop does to the longest replacement. *)
Lemma optimize_round_within m datafile size rnd :
  well_formed dictionarysize datafile -> bits_within m datafile ->
  (Z.of_nat m + 10 < 2 ^ 31)%Z ->
  exists datafile' size' rnd',
    optimize_loop dictionarysize 1 datafile size rnd
      = Some (datafile', size', rnd')
    /\ well_formed dictionarysize datafile'
    /\ bits_within (2 * m + 20) datafile'.
Proof.
  intros Hwf Hin Hm. cbn [optimize_loop].
  (* worst *)
  destruct (optimize_worst_defined datafile size rnd Hwf)
    as (t1 & s1 & r1 & H1 & W1). rewrite H1.
  assert (B1 : bits_within m t1).
  { unfold optimize_worst in H1.
    operator_within worst_trial_within Hin. exact Hin. }
  (* any *)
  destruct (optimize_any_defined t1 s1 r1 W1) as (t2 & s2 & r2 & H2 & W2).
  rewrite H2.
  assert (B2 : bits_within m t2).
  { unfold optimize_any in H2.
    operator_within any_trial_within B1. exact B1. }
  (* expand *)
  destruct (optimize_expand_defined t2 s2 r2 W2) as (t3 & s3 & r3 & H3 & W3).
  rewrite H3.
  assert (B2' : bits_within (m + 10) t2)
    by (eapply bits_within_le; [|exact B2]; lia).
  assert (B3 : bits_within (m + 10) t3).
  { unfold optimize_expand in H3.
    operator_within expand_trial_within B2'. exact B2. }
  (* trim *)
  assert (S3 : short_entries t3).
  { destruct B3 as [Hd _]. unfold short_entries.
    eapply Forall_impl; [|exact Hd]. simpl. intros d Hlen.
    change (2 ^ 31)%Z with 2147483648%Z in *. lia. }
  destruct (optimize_trim_defined t3 s3 r3 W3 S3)
    as (t4 & s4 & r4 & H4 & W4). rewrite H4.
  assert (B4 : bits_within (m + 10) t4).
  { unfold optimize_trim in H4.
    destruct (trim_trial dictionarysize t3 r3)
      as [[[[[[[trial index] d] start] end_]|] rnd1]|] eqn:Ht;
      [| |discriminate].
    - destruct (accept t3 trial s3 index d) as [[live sz]|] eqn:Ha;
        [|discriminate].
      inversion H4; subst.
      eapply accept_within;
        [exact Ha | exact B3 | eapply trim_trial_within; [exact Ht|exact B3]].
    - inversion H4; subst. exact B3. }
  (* refdict *)
  destruct (optimize_refdict_defined t4 s4 r4 W4)
    as (t5 & s5 & r5 & H5 & W5). rewrite H5.
  assert (B5 : bits_within (m + 10) t5).
  { unfold optimize_refdict in H5.
    operator_within refdict_trial_within B4. exact B4. }
  (* combine *)
  destruct (optimize_combine_defined t5 s5 r5 W5)
    as (t6 & s6 & r6 & H6 & W6). rewrite H6.
  assert (B5' : bits_within (2 * m + 20) t5)
    by (eapply bits_within_le; [|exact B5]; lia).
  assert (B6 : bits_within (2 * m + 20) t6).
  { unfold optimize_combine in H6.
    destruct (combine_trial dictionarysize t5 r5)
      as [[[[trial worst] d] rnd1]|] eqn:Ht; [|discriminate].
    destruct (accept t5 trial s5 worst d) as [[live sz]|] eqn:Ha;
      [|discriminate].
    inversion H6; subst.
    eapply accept_within; [exact Ha | exact B5' |].
    pose proof (combine_trial_within _ _ _ _ _ _ _ Ht B5). lia. }
  eauto 10.
Qed.

Lemma optimize_loop_unroll iterations : forall datafile size rnd,
  optimize_loop dictionarysize (S iterations) datafile size rnd
  = match optimize_loop dictionarysize 1 datafile size rnd with
    | Some (datafile', size', rnd') =>
        optimize_loop dictionarysize iterations datafile' size' rnd'
    | None => None
    end.
Proof.
  intros datafile size rnd. cbn [optimize_loop].
  destruct (optimize_worst datafile size rnd) as [[[t1 s1] r1]|];
    [|reflexivity].
  destruct (optimize_any dictionarysize t1 s1 r1) as [[[t2 s2] r2]|];
    [|reflexivity].
  destruct (optimize_expand dictionarysize t2 s2 r2) as [[[t3 s3] r3]|];
    [|reflexivity].
  destruct (optimize_trim dictionarysize t3 s3 r3) as [[[t4 s4] r4]|];
    [|reflexivity].
  destruct (optimize_refdict dictionarysize t4 s4 r4) as [[[t5 s5] r5]|];
    [|reflexivity].
  destruct (optimize_combine dictionarysize t5 s5 r5) as [[[t6 s6] r6]|];
    reflexivity.
Qed.

Lemma optimize_loop_defined iterations : forall m datafile size rnd,
  well_formed dictionarysize datafile -> bits_within m datafile ->
  ((Z.of_nat m + 20) * 2 ^ Z.of_nat iterations <= 2 ^ 31)%Z ->
  exists result, optimize_loop dictionarysize iterations datafile size rnd
                 = Some result.
Proof.
  induction iterations as [|iterations IH]; intros m datafile size rnd
    Hwf Hin Hm; [simpl; eauto|].
  rewrite optimize_loop_unroll.
  rewrite Nat2Z.inj_succ, Z.pow_succ_r in Hm by lia.
  assert (Hpow : (1 <= 2 ^ Z.of_nat iterations)%Z)
    by (pose proof (Z.pow_pos_nonneg 2 (Z.of_nat iterations)); lia).
  destruct (optimize_round_within m datafile size rnd Hwf Hin)
    as (t & s & r & -> & W & B); [nia|].
  apply (IH (2 * m + 20) t s r W B).
  replace (Z.of_nat (2 * m + 20) + 20)%Z with (2 * (Z.of_nat m + 20))%Z
    by lia.
  lia.
Qed.

Lemma update_score_within m oldsize datafile i datafile' :
  update_score oldsize datafile i = Some datafile' ->
  well_formed dictionarysize datafile -> bits_within m datafile ->
  well_formed dictionarysize datafile' /\ bits_within m datafile'.
Proof.
  unfold update_score. cbv zeta. intros H Hwf Hin.
  destruct (SetDictionaryEntry datafile i empty_dictentry) as [trial|]
    eqn:Htrial; [|discriminate].
  destruct (get_encoded_size_of trial) as [newsize|]; [|discriminate].
  destruct (GetDictionaryEntry datafile i) as [d|] eqn:Hget; [|discriminate].
  destruct (score (set_score d _) >? 0)%Z.
  - split; [eapply SetDictionaryEntry_well_formed; eauto|].
    eapply SetDictionaryEntry_within; [exact H | exact Hin |].
    simpl. eapply entry_within; eassumption.
  - inversion H; subst.
    split; [eapply SetDictionaryEntry_well_formed; eauto|].
    eapply SetDictionaryEntry_within; [exact Htrial | exact Hin |].
    simpl. lia.
Qed.

Lemma update_scores_loop_within m oldsize slots : forall datafile datafile',
  update_scores_loop oldsize slots datafile = Some datafile' ->
  well_formed dictionarysize datafile -> bits_within m datafile ->
  well_formed dictionarysize datafile' /\ bits_within m datafile'.
Proof.
  induction slots as [|i slots IH]; intros datafile datafile' H Hwf Hin;
    simpl in H.
  - inversion H; subst. auto.
  - destruct (update_score oldsize datafile i) as [next|] eqn:Hstep;
      [|discriminate].
    destruct (update_score_within _ _ _ _ _ Hstep Hwf Hin) as [W B].
    apply (IH next); assumption.
Qed.

(** [optimize] returns on a well-formed DataFile as long as doubling the
    longest replacement or glyph (plus 20 bits) once per iteration stays
    within the [int] of [optimize_trim]. *)
Lemma optimize_returns m datafile iterations :
  well_formed dictionarysize datafile -> bits_within m datafile ->
  ((Z.of_nat m + 20) * 2 ^ Z.of_nat iterations <= 2 ^ 31)%Z ->
  exists datafile',
    optimize dictionarysize datafile iterations = Some datafile'.
Proof.
  intros Hwf Hin Hm. unfold optimize. cbv zeta.
  destruct (update_scores_defined datafile (proj1 Hwf)) as [swept Hsweep].
  rewrite Hsweep.
  assert (Hswept : well_formed dictionarysize swept /\ bits_within m swept).
  { unfold update_scores in Hsweep.
    destruct (get_encoded_size_of datafile) as [oldsize|]; [|discriminate].
    eapply update_scores_loop_within; eassumption. }
  destruct Hswept as [W B].
  destruct (get_encoded_size_of_total swept) as [size ->].
  destruct (optimize_loop_defined iterations m swept size
              (rnd_seed (GetSeed datafile)) W B Hm) as [[[final s] rnd] ->].
  destruct (draw_some 0 (2 ^ 32 - 1) rnd) as (v & rnd' & -> & _); [lia|].
  eauto.
Qed.

(** C2.  For every DataFile and every iteration count, the encoded size
    of the DataFile [optimize] returns is at most the encoded size of the
    DataFile it was given.  [optimize] does return on a well-formed
    DataFile whose replacements and glyphs are short enough for the [int]
    of [optimize_trim] after doubling (plus 20 bits) once per iteration.
    The initial [update_scores] sweep never increases the encoded size,
    and each of the six operators of the main loop (and
    [optimize_bigjump]) keeps the tracked size equal to the encoded size
    of the live DataFile and never increases it.  The font is assumed
    small enough for sizes to fit the 32-bit [int] in which
    [update_scores] stores a size difference. *)
Theorem optimize_never_grows :
  forall (datafile : DataFile) (iterations : nat),
    (Z.of_nat (size_bound datafile) < 2 ^ 31)%Z ->
    (forall datafile',
        optimize dictionarysize datafile iterations = Some datafile' ->
        exists size size',
          get_encoded_size_of datafile = Some size
          /\ get_encoded_size_of datafile' = Some size' /\ size' <= size)
    /\ (forall m,
          well_formed dictionarysize datafile -> bits_within m datafile ->
          ((Z.of_nat m + 20) * 2 ^ Z.of_nat iterations <= 2 ^ 31)%Z ->
          exists datafile',
            optimize dictionarysize datafile iterations = Some datafile')
    /\ (forall swept,
          update_scores dictionarysize datafile = Some swept ->
          exists size size',
            get_encoded_size_of datafile = Some size
            /\ get_encoded_size_of swept = Some size' /\ size' <= size)
    /\ never_grows optimize_worst
    /\ never_grows (optimize_any dictionarysize)
    /\ never_grows (optimize_expand dictionarysize)
    /\ never_grows (optimize_trim dictionarysize)
    /\ never_grows (optimize_refdict dictionarysize)
    /\ never_grows (optimize_combine dictionarysize)
    /\ never_grows (optimize_bigjump dictionarysize).
Proof.
  intros datafile iterations Hbound.
  change (2 ^ 31)%Z with 2147483648%Z in Hbound.
  split; [|split; [intros m Hwf Hin Hm;
                   apply (optimize_returns m _ _ Hwf Hin Hm)|]];
    [|split; [intros swept Hs;
              apply (update_scores_never_grows _ _ Hbound Hs)|]].
  - intros datafile' H. unfold optimize in H. cbv zeta in H.
    destruct (update_scores dictionarysize datafile) as [swept|] eqn:Hsweep;
      [|discriminate].
    destruct (update_scores_never_grows _ _ Hbound Hsweep)
      as (size0 & size1 & Hs0 & Hs1 & Hle).
    rewrite Hs1 in H.
    destruct (optimize_loop dictionarysize iterations swept size1 _)
      as [[[final size2] rnd2]|] eqn:Hloop; [|discriminate].
    destruct (optimize_loop_never_grows _ _ _ _ _ _ _ Hloop Hs1)
      as [Hs2 Hle2].
    destruct (draw 0 (2 ^ 32 - 1) rnd2) as [[s rnd3]|]; [|discriminate].
    inversion H; subst.
    exists size0, size2. rewrite SetSeed_size.
    repeat split; auto. lia.
  - split; [apply optimize_worst_never_grows|].
    split; [apply optimize_any_never_grows|].
    split; [apply optimize_expand_never_grows|].
    split; [apply optimize_trim_never_grows|].
    split; [apply optimize_refdict_never_grows|].
    split; [apply optimize_combine_never_grows|].
    apply optimize_bigjump_never_grows.
Qed.

End Optimizer.

(** *** The theorems on sample fonts *)

Lemma optimize_never_grows_witness :
  (Z.of_nat (size_bound repeated_font) < 2 ^ 31)%Z
  /\ well_formed 2 repeated_font /\ bits_within 8 repeated_font
  /\ ((Z.of_nat 8 + 20) * 2 ^ Z.of_nat 1 <= 2 ^ 31)%Z
  /\ exists datafile',
       optimize 2 repeated_font 1 = Some datafile'
       /\ exists size size',
            get_encoded_size_of repeated_font = Some size
            /\ get_encoded_size_of datafile' = Some size'
            /\ size' <= size.
Proof.
  assert (Hbound : (Z.of_nat (size_bound repeated_font) < 2 ^ 31)%Z)
    by reflexivity.
  assert (Hwf : well_formed 2 repeated_font).
  { unfold well_formed. simpl.
    repeat split; try lia; try reflexivity.
    repeat constructor; simpl; lia. }
  assert (Hin : bits_within 8 repeated_font)
    by (split; repeat constructor; simpl; lia).
  assert (Hm : ((Z.of_nat 8 + 20) * 2 ^ Z.of_nat 1 <= 2 ^ 31)%Z)
    by (vm_compute; discriminate).
  split; [exact Hbound|]. split; [exact Hwf|]. split; [exact Hin|].
  split; [exact Hm|].
  destruct (@optimize_never_grows 2 (list Z) replay_rnd repeated_font 1
              Hbound) as (Hsize & Hreturns & _).
  destruct (Hreturns 8 Hwf Hin Hm) as [datafile' Hrun].
  exists datafile'. split; [exact Hrun|].
  apply Hsize. exact Hrun.
Defined.

Lemma optimize_zero_iterations_witness :
  length (dictionary unused_entry_font) = 1
  /\ (Z.of_nat (size_bound unused_entry_font) < 2 ^ 31)%Z
  /\ exists swept s,
       update_scores 1 unused_entry_font = Some swept
       /\ optimize 1 unused_entry_font 0 = Some (SetSeed swept s)
       /\ exists size size',
            get_encoded_size_of unused_entry_font = Some size
            /\ get_encoded_size_of swept = Some size'
            /\ get_encoded_size_of (SetSeed swept s) = Some size'
            /\ size' <= size.
Proof.
  split; [reflexivity|]. split; [reflexivity|].
  apply (@optimize_zero_iterations 1 (list Z) replay_rnd unused_entry_font).
  - reflexivity.
  - reflexivity.
Defined.

(** C7 as stated fails: on a font whose only slot holds an unused entry,
    [optimize] with no iteration lowers the encoded size from 8 to 5. *)
Lemma optimize_zero_iterations_counterexample :
  get_encoded_size_of unused_entry_font = Some 8
  /\ exists datafile',
       optimize 1 unused_entry_font 0 = Some datafile'
       /\ get_encoded_size_of datafile' = Some 5
       /\ 5 <> 8.
Proof.
  split; [vm_compute; reflexivity|].
  eexists. split; [vm_compute; reflexivity|].
  split; [vm_compute; reflexivity | discriminate].
Qed.

(** Nor does the size fall whenever an entry is dropped: every slot is
    scored against the size measured before the sweep.  Clearing slot 0 of
    [stale_score_font] brings the font from 15 to 12 bytes; slot 1, which
    saves 3 bytes, is then scored 15 - 15 = 0 and cleared as well, and the
    font is back at 15 bytes. *)
Lemma sweep_scores_against_first_size :
  get_encoded_size_of stale_score_font = Some 15
  /\ (exists cleared,
        SetDictionaryEntry stale_score_font 0 empty_dictentry = Some cleared
        /\ get_encoded_size_of cleared = Some 12)
  /\ exists swept,
       update_scores 2 stale_score_font = Some swept
       /\ dictionary swept = [empty_dictentry; empty_dictentry]
       /\ get_encoded_size_of swept = Some 15.
Proof.
  split; [vm_compute; reflexivity|]. split.
  - eexists. split; [reflexivity | vm_compute; reflexivity].
  - eexists. split; [vm_compute; reflexivity|].
    split; [reflexivity | vm_compute; reflexivity].
Qed.

Lemma trim_erasure_witness :
  exists trial d old,
    trim_trial 1 trim_font trim_script
      = Some (Some (trial, 0, d, 1%Z, 2%Z), [])
    /\ GetDictionaryEntry trim_font 0 = Some old
    /\ (Z.of_nat (length (replacement old)) < 2 ^ 31)%Z
    /\ get_encoded_size_of trial = Some 8 /\ 8 < 10
    /\ replacement d = trimmed (replacement old) (Z.to_nat 1) (Z.to_nat 2)
    /\ length (replacement d) = 4 - Z.to_nat 1 - (Z.to_nat 2 - 1)
    /\ last (replacement d) false = last (replacement old) false
    /\ ((0 < 2)%Z ->
        length (replacement d) = S (4 - Z.to_nat 1 - Z.to_nat 2)
        /\ length (replacement d) <> 4 - Z.to_nat 1 - Z.to_nat 2)
    /\ (2%Z = 1%Z ->
        replacement d = skipn (Z.to_nat 1) (replacement old)).
Proof.
  eexists. eexists. eexists.
  split; [vm_compute; reflexivity|].
  split; [reflexivity|].
  split; [reflexivity|].
  split; [vm_compute; reflexivity|].
  split; [lia|].
  refine (proj2 (proj2 (proj2 (proj2
            (@trim_erasure 1 (list Z) replay_rnd trim_font 10 trim_script
               _ 0 _ 1%Z 2%Z [] _ 8 _ _ _ _ _))))).
  - vm_compute. reflexivity.
  - reflexivity.
  - reflexivity.
  - vm_compute. reflexivity.
  - lia.
Defined.

(** C8 on an input the code mishandles: the accepted trim of [0,1,1,0]
    with [start] 1 and [end] 2 leaves the 2 bits [1,0] in the slot.
    Erasing 1 bit from the front and 2 bits from the back leaves 1 bit:
    [0] when the final bit is kept and the 2 bits in front of it go, [1]
    when the last 2 bits go.  The code erases 1 bit at the back. *)
Lemma trim_erasure_counterexample :
  let old := [false; true; true; false] in
  GetDictionaryEntry trim_font 0 = Some (mk_dictentry old 0 false)
  /\ get_encoded_size_of trim_font = Some 10
  /\ exists trial d datafile' d',
       trim_trial 1 trim_font trim_script
         = Some (Some (trial, 0, d, 1%Z, 2%Z), [])
       /\ optimize_trim 1 trim_font 10 trim_script
          = Some (datafile', 8, [])
       /\ 8 < 10
       /\ GetDictionaryEntry datafile' 0 = Some d'
       /\ replacement d' = [true; false]
       /\ last (replacement d') true = last old true
       /\ length (replacement d')
          <> length old - Z.to_nat 1 - Z.to_nat 2
       /\ replacement d'
          <> firstn (length old - Z.to_nat 1 - Z.to_nat 2 - 1)
               (skipn (Z.to_nat 1) old) ++ [last old true]
       /\ replacement d'
          <> firstn (length old - Z.to_nat 1 - Z.to_nat 2)
               (skipn (Z.to_nat 1) old).
Proof.
  split; [reflexivity|]. split; [vm_compute; reflexivity|].
  eexists. eexists. eexists. eexists.
  split; [vm_compute; reflexivity|].
  split; [vm_compute; reflexivity|].
  split; [lia|].
  split; [reflexivity|].
  split; [reflexivity|].
  split; [reflexivity|].
  split; [simpl; lia|].
  split; discriminate.
Qed.

Lemma rejection_leaves_datafile_witness :
  optimize_worst unused_entry_font 8 low_script
    = Some (unused_entry_font, 8, repeat 0%Z 9)
  /\ optimize_any 1 unused_entry_font 8 low_script
     = Some (unused_entry_font, 8, repeat 0%Z 8)
  /\ optimize_expand 1 unused_entry_font 8 low_script
     = Some (unused_entry_font, 8, repeat 0%Z 8)
  /\ optimize_trim 1 unused_entry_font 8 low_script
     = Some (unused_entry_font, 8, repeat 0%Z 11)
  /\ optimize_trim 1 trim_font 10 low_script
     = Some (trim_font, 10, repeat 0%Z 9)
  /\ optimize_refdict 1 unused_entry_font 8 low_script
     = Some (unused_entry_font, 8, repeat 0%Z 11)
  /\ optimize_combine 1 unused_entry_font 8 low_script
     = Some (unused_entry_font, 8, repeat 0%Z 10)
  /\ optimize_bigjump 1 blank_font 5 low_script
     = Some (blank_font, 5, []).
Proof.
  pose proof (@rejection_leaves_datafile 1 (list Z) replay_rnd
                unused_entry_font 8 low_script)
    as (Hworst & Hany & Hexpand & Htrim & Hrefdict & Hcombine & _).
  pose proof (@rejection_leaves_datafile 1 (list Z) replay_rnd
                trim_font 10 low_script)
    as (_ & _ & _ & Htrim' & _).
  pose proof (@rejection_leaves_datafile 1 (list Z) replay_rnd
                blank_font 5 low_script)
    as (_ & _ & _ & _ & _ & _ & Hbigjump).
  split; [eapply Hworst; [vm_compute; reflexivity | vm_compute; reflexivity
                         | lia]|].
  split; [eapply Hany; [vm_compute; reflexivity | vm_compute; reflexivity
                       | lia]|].
  split; [eapply Hexpand; [vm_compute; reflexivity | vm_compute; reflexivity
                          | lia]|].
  split; [eapply Htrim; [vm_compute; reflexivity | exact I]|].
  split; [eapply Htrim'; [vm_compute; reflexivity
                         | exists 10; split; [vm_compute; reflexivity | lia]]
         |].
  split; [eapply Hrefdict; [vm_compute; reflexivity | vm_compute; reflexivity
                           | lia]|].
  split; [eapply Hcombine; [vm_compute; reflexivity | vm_compute; reflexivity
                           | lia]|].
  eapply Hbigjump; [vm_compute; reflexivity | lia].
Defined.

Lemma random_substring_domain_witness :
  (Z.of_nat (GetGlyphCount small_font) < 2 ^ 64)%Z
  /\ (forall g, In g (glyphtable small_font) ->
        (Z.of_nat (length (data g)) < 2 ^ 64)%Z)
  /\ match random_substring small_font [1; 1; 2]%Z with
     | None =>
         GetGlyphCount small_font = 0
         \/ exists g, GetGlyphEntry small_font 1 = Some g
                      /\ length (data g) < 2
     | Some (sub, _) =>
         1 <= GetGlyphCount small_font
         /\ exists g start,
              GetGlyphEntry small_font 1 = Some g
              /\ 2 <= length (data g)
              /\ sub = firstn (length sub) (skipn start (data g))
              /\ 2 <= length sub <= length (data g)
              /\ start + length sub <= length (data g)
     end.
Proof.
  assert (Hbits : forall g, In g (glyphtable small_font) ->
            (Z.of_nat (length (data g)) < 2 ^ 64)%Z).
  { intros g [<-|[<-|[<-|[]]]]; reflexivity. }
  split; [reflexivity|]. split; [exact Hbits|].
  apply (@random_substring_domain (list Z) replay_rnd small_font
           [1; 1; 2]%Z); [reflexivity | exact Hbits].
Defined.

End OptimizeSpec.

(** ** Further properties of the encoder and the decoder *)

Module EncodeProperties.
Import Encode Samples EncodeSpec.

(** *** Run-length strings *)

Lemma rle_byte_fields bit c :
  1 <= c <= 127 ->
  (0 <= rle_byte bit c < 256)%Z
  /\ run_length (rle_byte bit c) = c /\ run_bit (rle_byte bit c) = bit.
Proof.
  intros Hc.
  pose proof rle_byte_table as Htab.
  rewrite forallb_forall in Htab.
  assert (Hin : In c (seq 1 127)) by (apply in_seq; lia).
  specialize (Htab c Hin). rewrite forallb_forall in Htab.
  assert (Hb : In bit [true; false]) by (destruct bit; simpl; auto).
  specialize (Htab bit Hb).
  apply andb_true_iff in Htab as [Hlen Hbit].
  apply Z.eqb_eq in Hlen. apply Bool.eqb_prop in Hbit.
  split; [|split].
  - unfold rle_byte, to_uint8. apply Z.mod_pos_bound. lia.
  - unfold run_length. rewrite Hlen. apply Nat2Z.id.
  - exact Hbit.
Qed.

Lemma run_count_first bits pos :
  pos < length bits ->
  1 <= run_count bits pos (nth pos bits false) 1 <= 127
  /\ pos + run_count bits pos (nth pos bits false) 1 <= length bits.
Proof.
  intros Hpos.
  assert (Hrun : forall k, k < 1 ->
                   nth (pos + k) bits false = nth pos bits false).
  { intros k Hk. replace k with 0 by lia. rewrite Nat.add_0_r. reflexivity. }
  pose proof (run_count_spec bits pos (nth pos bits false) 1) as H.
  destruct H as (H1 & H2 & _); [lia | lia | exact Hrun |].
  split; [lia | exact H2].
Qed.

Lemma encode_rle_from_fields bits pos :
  Forall (fun b => (0 <= b < 256)%Z /\ 1 <= run_length b <= 127)
    (encode_rle_from bits pos).
Proof.
  funelim (encode_rle_from bits pos).
  - constructor; [|assumption].
    destruct (run_count_first bits pos Hpos) as [Hc _].
    destruct (rle_byte_fields (nth pos bits false) _ Hc) as (Hb & Hl & _).
    rewrite Hl. split; [exact Hb | exact Hc].
  - constructor.
Qed.

Lemma decode_rle_length r :
  length (decode_rle r) = list_sum (map run_length r).
Proof.
  unfold decode_rle. induction r as [|b r IH]; simpl; [reflexivity|].
  rewrite length_app, IH. unfold decode_rle_byte at 1.
  rewrite repeat_length. reflexivity.
Qed.

(** X2.  Every byte [encode_rle] emits fits in a [uint8_t] and carries a run
    of 1 to 127 bits; the runs add up to the length of the input, so the
    string is never longer than the input and is empty only for the empty
    bit string. *)
Theorem encode_rle_runs :
  forall bits : bitstring_t,
    Forall (fun b => (0 <= b < 256)%Z /\ 1 <= run_length b <= 127)
      (encode_rle bits)
    /\ list_sum (map run_length (encode_rle bits)) = length bits
    /\ length (encode_rle bits) <= length bits
    /\ (encode_rle bits = [] <-> bits = []).
Proof.
  intros bits. split; [|split; [|split]].
  - apply encode_rle_from_fields.
  - rewrite <- decode_rle_length, decode_rle_encode_rle. reflexivity.
  - apply encode_rle_length.
  - split; intros H.
    + rewrite <- (decode_rle_encode_rle bits), H. reflexivity.
    + subst bits. reflexivity.
Qed.


Lemma encode_rle_from_unfold bits pos :
  encode_rle_from bits pos
  = if lt_dec pos (length bits)
    then rle_byte (nth pos bits false)
           (run_count bits pos (nth pos bits false) 1)
         :: encode_rle_from bits
              (pos + run_count bits pos (nth pos bits false) 1)
    else [].
Proof.
  funelim (encode_rle_from bits pos).
  - destruct (lt_dec pos (length bits)); [reflexivity | contradiction].
  - destruct (lt_dec pos (length bits)); [contradiction | reflexivity].
Qed.

(** The inner loop stops at the end of the string, at 127 bits or in front
    of a different bit. *)
Lemma run_count_stop bits pos bit count :
  count <= 127 ->
  run_count bits pos bit count = 127
  \/ length bits <= pos + run_count bits pos bit count
  \/ nth (pos + run_count bits pos bit count) bits false <> bit.
Proof.
  funelim (run_count bits pos bit count); intros Hc.
  all: try (match goal with IH : _ -> _ |- _ => apply IH; lia end).
  all: try (right; left; lia).
  all: try (left; lia).
  all: try (right; right; assumption).
Qed.

Lemma encode_rle_from_maximal bits :
  forall n pos, length bits - pos <= n ->
    forall k b1 b2,
      nth_error (encode_rle_from bits pos) k = Some b1 ->
      nth_error (encode_rle_from bits pos) (S k) = Some b2 ->
      run_bit b1 = run_bit b2 -> run_length b1 = 127.
Proof.
  induction n as [|n IH]; intros pos Hn k b1 b2;
    rewrite (encode_rle_from_unfold bits pos);
    destruct (lt_dec pos (length bits)) as [Hpos|Hpos];
    try lia; try (destruct k; discriminate).
  destruct (run_count_first bits pos Hpos) as [Hc Hend].
  destruct (rle_byte_fields (nth pos bits false) _ Hc) as (_ & Hl & Hb).
  set (c := run_count bits pos (nth pos bits false) 1) in *.
  destruct k as [|k]; cbn [nth_error].
  - intros E1 E2 Hbit. inversion E1; subst b1. rewrite Hl.
    rewrite (encode_rle_from_unfold bits (pos + c)) in E2.
    destruct (lt_dec (pos + c) (length bits)) as [Hnext|]; [|discriminate].
    cbn [nth_error] in E2. inversion E2; subst b2.
    destruct (run_count_first bits (pos + c) Hnext) as [Hc' _].
    destruct (rle_byte_fields (nth (pos + c) bits false) _ Hc')
      as (_ & _ & Hb').
    rewrite Hb, Hb' in Hbit.
    assert (Hone : 1 <= 127) by lia.
    pose proof (run_count_stop bits pos (nth pos bits false) 1 Hone)
      as Hstop.
    fold c in Hstop.
    destruct Hstop as [Hfull|[Hlast|Hdiff]];
      [exact Hfull | lia | congruence].
  - apply IH. lia.
Qed.

(** X3.  The runs are maximal: when two neighbouring bytes of
    [encode_rle bits] stand for the same bit value, the first one carries
    the full 127 bits. *)
Theorem encode_rle_runs_maximal :
  forall (bits : bitstring_t) (k : nat) (b1 b2 : Z),
    nth_error (encode_rle bits) k = Some b1 ->
    nth_error (encode_rle bits) (S k) = Some b2 ->
    run_bit b1 = run_bit b2 -> run_length b1 = 127.
Proof.
  intros bits k b1 b2.
  apply (encode_rle_from_maximal bits (length bits) 0). lia.
Qed.

Lemma encode_rle_runs_maximal_witness :
  exists b2,
    nth_error (encode_rle (repeat true 130)) 0 = Some 255%Z
    /\ nth_error (encode_rle (repeat true 130)) 1 = Some b2
    /\ run_bit 255 = run_bit b2
    /\ run_length 255 = 127.
Proof.
  exists 131%Z.
  assert (E0 : nth_error (encode_rle (repeat true 130)) 0 = Some 255%Z)
    by (vm_compute; reflexivity).
  assert (E1 : nth_error (encode_rle (repeat true 130)) 1 = Some 131%Z)
    by (vm_compute; reflexivity).
  assert (Hb : run_bit 255 = run_bit 131) by reflexivity.
  exact (conj E0 (conj E1 (conj Hb
           (encode_rle_runs_maximal (repeat true 130) 0 255 131 E0 E1 Hb)))).
Defined.

(** *** The order of the dictionary *)

(** X4.  [cmp_dict_coding] is a strict weak ordering, as [std::stable_sort]
    requires of its comparator: it is irreflexive and transitive, and
    entries it does not order either way form classes. *)
Theorem cmp_dict_coding_strict_weak_order :
  (forall a, cmp_dict_coding a a = false)
  /\ (forall a b c,
        cmp_dict_coding a b = true -> cmp_dict_coding b c = true ->
        cmp_dict_coding a c = true)
  /\ (forall a b c,
        cmp_dict_coding a b = false -> cmp_dict_coding b a = false ->
        cmp_dict_coding b c = false -> cmp_dict_coding c b = false ->
        cmp_dict_coding a c = false /\ cmp_dict_coding c a = false).
Proof.
  split; [|split].
  - intros a. rewrite cmp_dict_coding_class. apply Nat.ltb_irrefl.
  - intros a b c. rewrite !cmp_dict_coding_class, !Nat.ltb_lt. lia.
  - intros a b c. rewrite !cmp_dict_coding_class, !Nat.ltb_ge. lia.
Qed.

Section StableSortPermutation.
Context {A : Type}.
Variable less : A -> A -> bool.

Lemma stable_insert_permutation x l :
  Permutation (x :: l) (stable_insert less x l).
Proof.
  induction l as [|y l IH]; simpl; [reflexivity|].
  destruct (less y x); [|reflexivity].
  rewrite perm_swap. apply perm_skip. exact IH.
Qed.

Lemma stable_sort_permutation l : Permutation l (stable_sort less l).
Proof.
  induction l as [|x l IH]; simpl; [reflexivity|].
  rewrite <- stable_insert_permutation. apply perm_skip. exact IH.
Qed.

End StableSortPermutation.

Lemma of_class_filter l :
  of_class 0 l = filter (fun d => used d && negb (ref_encode d)) l
  /\ of_class 1 l = filter (fun d => used d && ref_encode d) l
  /\ of_class 2 l = filter (fun d => negb (used d) && negb (ref_encode d)) l
  /\ of_class 3 l = filter (fun d => negb (used d) && ref_encode d) l.
Proof.
  unfold of_class.
  repeat split; apply filter_ext; intros d; unfold coding_class, used;
    destruct (length (replacement d) =? 0), (ref_encode d); reflexivity.
Qed.

(** X5.  The sort of [encode_font] rearranges the dictionary into the RLE
    coded entries, then the ref coded entries, then the empty slots (those
    with the flag clear first), each group in dictionary order. *)
Theorem sorted_dictionary_groups :
  forall l : list dictentry_t,
    stable_sort cmp_dict_coding l
    = filter (fun d => used d && negb (ref_encode d)) l
      ++ filter (fun d => used d && ref_encode d) l
      ++ filter (fun d => negb (used d) && negb (ref_encode d)) l
      ++ filter (fun d => negb (used d) && ref_encode d) l
    /\ Permutation l (stable_sort cmp_dict_coding l).
Proof.
  intros l. split; [|apply stable_sort_permutation].
  destruct (of_class_filter l) as (H0 & H1 & H2 & H3).
  rewrite <- H0, <- H1, <- H2, <- H3. apply stable_sort_classes.
Qed.

(** *** walk_tree *)

Lemma walk_tree_loop_greedy bits : forall node g len best idx,
  (walk_tree_loop node bits g len best idx = (best, idx)
   /\ forall k n, 1 <= k <= length bits ->
        descend node (firstn k bits) = Some n -> eligible g n = false)
  \/ exists k n,
       1 <= k <= length bits
       /\ descend node (firstn k bits) = Some n
       /\ eligible g n = true
       /\ walk_tree_loop node bits g len best idx = (len + k, index n)
       /\ forall k' n', k < k' <= length bits ->
            descend node (firstn k' bits) = Some n' ->
            eligible g n' = false.
Proof.
  induction bits as [|b bits IH]; intros node g len best idx.
  - left. split; [reflexivity|]. simpl. intros k n Hk. lia.
  - cbn [walk_tree_loop].
    destruct (walk node b) as [node'|] eqn:Hw.
    + fold (eligible g node').
      assert (Hstep : forall k n,
                descend node (firstn (S k) (b :: bits)) = Some n ->
                descend node' (firstn k bits) = Some n).
      { intros k n. cbn [firstn descend]. rewrite Hw. auto. }
      destruct (eligible g node') eqn:He.
      * right.
        destruct (IH node' g (S len) (S len) (index node'))
          as [[Hr Hnone]|(k & n & Hk & Hd & Hn & Hr & Hmax)].
        -- exists 1, node'. repeat split.
           ++ lia.
           ++ simpl; lia.
           ++ cbn [firstn descend]. rewrite Hw. reflexivity.
           ++ exact He.
           ++ rewrite Hr. f_equal. lia.
           ++ intros k' n' Hk' Hd'. destruct k' as [|k']; [lia|].
              apply (Hnone k' n'); [simpl in Hk'; lia | auto].
        -- exists (S k), n. repeat split.
           ++ lia.
           ++ simpl; lia.
           ++ cbn [firstn descend]. rewrite Hw. exact Hd.
           ++ exact Hn.
           ++ rewrite Hr. f_equal. lia.
           ++ intros k' n' Hk' Hd'. destruct k' as [|k']; [lia|].
              apply (Hmax k' n'); [simpl in Hk'; lia | auto].
      * destruct (IH node' g (S len) best idx)
          as [[Hr Hnone]|(k & n & Hk & Hd & Hn & Hr & Hmax)].
        -- left. split; [exact Hr|].
           intros k n Hk Hd. destruct k as [|k]; [lia|].
           destruct k as [|k].
           ++ cbn [firstn descend] in Hd. rewrite Hw in Hd.
              inversion Hd; subst. exact He.
           ++ apply (Hnone (S k) n); [simpl in Hk; lia | auto].
        -- right. exists (S k), n. repeat split.
           ++ lia.
           ++ simpl; lia.
           ++ cbn [firstn descend]. rewrite Hw. exact Hd.
           ++ exact Hn.
           ++ rewrite Hr. f_equal. lia.
           ++ intros k' n' Hk' Hd'. destruct k' as [|k']; [lia|].
              apply (Hmax k' n'); [simpl in Hk'; lia | auto].
    + left. split; [reflexivity|].
      intros k n Hk Hd. destruct k as [|k]; [lia|].
      cbn [firstn descend] in Hd. rewrite Hw in Hd. discriminate.
Qed.

Lemma eligible_index g n : eligible g n = true -> (0 <= index n)%Z.
Proof.
  unfold eligible. intros H. apply andb_true_iff in H as [_ H].
  apply Z.leb_le. exact H.
Qed.

(** X6.  [walk_tree] is a longest-match search: the length it returns is
    that of the longest prefix of the bits that leads to a node it may
    report, and the index is the one of that node; no longer prefix leads
    to such a node. *)
Theorem walk_tree_longest_match :
  forall (tree : dicttree_t) (bits : bitstring_t) (is_glyph : bool)
         (len : nat) (idx : Z),
    walk_tree tree bits is_glyph = Some (len, idx) ->
    1 <= len <= length bits
    /\ (exists n,
          descend tree (firstn len bits) = Some n
          /\ eligible is_glyph n = true /\ index n = idx)
    /\ forall k n,
         len < k <= length bits ->
         descend tree (firstn k bits) = Some n ->
         eligible is_glyph n = false.
Proof.
  intros tree bits g len idx. unfold walk_tree.
  destruct (walk_tree_loop_greedy bits tree g 0 0 (-1)%Z)
    as [[Hr _]|(k & n & Hk & Hd & Hn & Hr & Hmax)]; rewrite Hr.
  - simpl. discriminate.
  - pose proof (eligible_index g n Hn) as Hi.
    destruct (Z.ltb_spec (index n) 0); [lia|].
    intros E. inversion E; subst len idx. simpl.
    split; [exact Hk|]. split; [|exact Hmax].
    exists n. auto.
Qed.

Lemma walk_tree_longest_match_witness :
  walk_tree (construct_tree (dictionary small_font))
    [true; false; true; false] true = Some (2, 5%Z)
  /\ 1 <= 2 <= length [true; false; true; false]
  /\ (exists n,
        descend (construct_tree (dictionary small_font))
          (firstn 2 [true; false; true; false]) = Some n
        /\ eligible true n = true /\ index n = 5%Z)
  /\ forall k n,
       2 < k <= length [true; false; true; false] ->
       descend (construct_tree (dictionary small_font))
         (firstn k [true; false; true; false]) = Some n ->
       eligible true n = false.
Proof.
  assert (E : walk_tree (construct_tree (dictionary small_font))
                [true; false; true; false] true = Some (2, 5%Z))
    by reflexivity.
  exact (conj E (walk_tree_longest_match _ _ _ _ _ E)).
Defined.

(** X7.  [walk_tree] throws exactly when no prefix of the bits leads to a
    node it may report; in particular on an empty range of bits. *)
Theorem walk_tree_throws :
  forall (tree : dicttree_t) (bits : bitstring_t) (is_glyph : bool),
    (walk_tree tree bits is_glyph = None
     <-> forall k n,
           1 <= k <= length bits ->
           descend tree (firstn k bits) = Some n ->
           eligible is_glyph n = false)
    /\ walk_tree tree [] is_glyph = None.
Proof.
  intros tree bits g. split; [|reflexivity]. split.
  - intros Hnone k n Hk Hd.
    destruct (eligible g n) eqn:He; [|reflexivity].
    unfold walk_tree in Hnone.
    destruct (walk_tree_loop_greedy bits tree g 0 0 (-1)%Z)
      as [[_ Hall]|(k' & n' & _ & _ & Hn' & Hr & _)].
    + rewrite (Hall k n Hk Hd) in He. discriminate.
    + rewrite Hr in Hnone. apply eligible_index in Hn'.
      destruct (Z.ltb_spec (index n') 0); [lia | discriminate].
  - intros Hall. unfold walk_tree.
    destruct (walk_tree_loop_greedy bits tree g 0 0 (-1)%Z)
      as [[Hr _]|(k & n & Hk & Hd & Hn & _)].
    + rewrite Hr. reflexivity.
    + rewrite (Hall k n Hk Hd) in Hn. discriminate.
Qed.

(** *** construct_tree *)

Lemma insert_entry_keeps bits t i r p idx rf :
  label t p = Some (idx, rf) -> (0 <= idx)%Z ->
  label (fst (insert_entry t bits i r)) p = Some (idx, rf).
Proof.
  intros Hl Hidx.
  destruct (list_eq_dec bool_dec p bits) as [->|Hne].
  - rewrite label_insert_at, Hl. unfold relabel.
    destruct (Z.ltb_spec idx 0); [lia | reflexivity].
  - rewrite (label_insert_other bits t i r p Hne), Hl. reflexivity.
Qed.

Lemma construct_fold_keeps l : forall st p idx rf,
  label (fst st) p = Some (idx, rf) -> (0 <= idx)%Z ->
  label (fst (fold_left construct_step l st)) p = Some (idx, rf).
Proof.
  induction l as [|d l IH]; intros st p idx rf Hl Hidx; [exact Hl|].
  cbn [fold_left]. apply IH; [|exact Hidx].
  unfold construct_step. apply insert_entry_keeps; assumption.
Qed.

(** X8.  [construct_tree] never renumbers a bit string: the index and the
    coding flag a dictionary gives to a bit string are kept when further
    entries follow, so of two entries with the same bits the first one
    names the node, and the single bits keep their hardcoded codes. *)
Theorem construct_tree_first_wins :
  forall (l1 l2 : list dictentry_t) (p : list bool) (idx : Z) (rf : bool),
    label (construct_tree l1) p = Some (idx, rf) -> (0 <= idx)%Z ->
    label (construct_tree (l1 ++ l2)) p = Some (idx, rf).
Proof.
  intros l1 l2 p idx rf Hl Hidx. unfold construct_tree.
  rewrite fold_left_app. apply construct_fold_keeps; assumption.
Qed.

Lemma construct_tree_first_wins_witness :
  label (construct_tree [mk_dictentry [true; true] 0 false]) [true; true]
  = Some (4%Z, false)
  /\ (0 <= 4)%Z
  /\ label (construct_tree ([mk_dictentry [true; true] 0 false]
                            ++ [mk_dictentry [true; true] 0 true]))
       [true; true]
     = Some (4%Z, false).
Proof.
  assert (E : label (construct_tree [mk_dictentry [true; true] 0 false])
                [true; true] = Some (4%Z, false)) by reflexivity.
  assert (H : (0 <= 4)%Z) by lia.
  exact (conj E (conj H
           (construct_tree_first_wins _ [mk_dictentry [true; true] 0 true]
              _ _ _ E H))).
Defined.

(** A bit string of at least 2 bits that no inserted entry holds has no
    index in the tree. *)
Lemma fresh_label entries t bits :
  tree_inv entries t -> 2 <= length bits ->
  ~ In bits (map replacement entries) ->
  match label t bits with
  | Some (idx, _) => (idx < 0)%Z
  | None => True
  end.
Proof.
  intros Hinv Hlen Hnew.
  destruct (label t bits) as [[idx rf]|] eqn:Hl; [|exact I].
  destruct (Z.ltb_spec idx 0) as [|Hidx]; [assumption|].
  exfalso.
  assert (Hne : bits <> []) by (intros ->; simpl in Hlen; lia).
  destruct (Hinv bits idx rf Hne Hl Hidx)
    as [(E & _)|[(E & _)|(j & d & Hj & _ & E & _)]].
  - subst bits. simpl in Hlen. lia.
  - subst bits. simpl in Hlen. lia.
  - apply Hnew. rewrite <- E. apply in_map.
    eapply nth_error_In. exact Hj.
Qed.

Lemma NoDup_app_fresh (A : Type) (l1 l2 : list A) x :
  NoDup (l1 ++ x :: l2) -> ~ In x l1.
Proof.
  intros H Hin. apply NoDup_remove_2 in H. apply H.
  apply in_or_app. left. exact Hin.
Qed.

Lemma construct_fold_counter l : forall entries t,
  tree_inv entries t ->
  Forall (fun d => 2 <= length (replacement d)) l ->
  NoDup (map replacement (entries ++ l)) ->
  length (entries ++ l) <= 252 ->
  snd (fold_left construct_step l (t, length entries))
  = length (entries ++ l).
Proof.
  induction l as [|d l IH]; intros entries t Hinv Hbits Hnd Hlen.
  - rewrite app_nil_r. reflexivity.
  - cbn [fold_left]. unfold construct_step at 2. cbn [fst snd].
    inversion Hbits as [|? ? Hd Hl]; subst.
    assert (Hfresh : ~ In (replacement d) (map replacement entries)).
    { rewrite map_app in Hnd. cbn [map] in Hnd.
      eapply NoDup_app_fresh. exact Hnd. }
    pose proof (fresh_label entries t (replacement d) Hinv Hd Hfresh) as Hf.
    pose proof (insert_entry_next (replacement d) t (length entries)
                  (ref_encode d)) as Hnext.
    assert (Hone : tree_inv (entries ++ [d])
                     (fst (insert_entry t (replacement d) (length entries)
                             (ref_encode d)))).
    { apply (construct_fold_inv [d] entries t Hinv).
      - constructor; [exact Hd | constructor].
      - rewrite map_app in *. cbn [map] in *.
        replace (map replacement entries ++ replacement d
                   :: map replacement l)
          with ((map replacement entries ++ [replacement d])
                  ++ map replacement l) in Hnd
          by (rewrite <- app_assoc; reflexivity).
        eapply NoDup_app_remove_r. exact Hnd.
      - rewrite length_app in *. simpl in *. lia. }
    destruct (insert_entry t (replacement d) (length entries) (ref_encode d))
      as [t' i'] eqn:Hins.
    cbn [fst snd] in *.
    assert (Hi : i' = length (entries ++ [d])).
    { rewrite length_app. simpl. rewrite Hnext.
      destruct (label t (replacement d)) as [[idx rf]|]; [|lia].
      destruct (Z.ltb_spec idx 0); lia. }
    clear Hnext Hins. subst i'.
    replace (entries ++ d :: l) with ((entries ++ [d]) ++ l)
      by (rewrite <- app_assoc; reflexivity).
    apply IH; try assumption.
    + rewrite <- app_assoc. exact Hnd.
    + rewrite <- app_assoc. exact Hlen.
Qed.

(** X9.  Looking up what was inserted.  When every entry has at least 2
    bits, no two entries hold the same bits and there are at most 252 of
    them, the path of entry [j] in the tree of [construct_tree] ends in a
    node with index [4 + j] and the entry's coding flag. *)
Theorem construct_tree_numbers_entries :
  forall (entries : list dictentry_t) (j : nat) (d : dictentry_t),
    Forall (fun d => 2 <= length (replacement d)) entries ->
    NoDup (map replacement entries) ->
    length entries <= 252 ->
    nth_error entries j = Some d ->
    label (construct_tree entries) (replacement d)
    = Some ((4 + Z.of_nat j)%Z, ref_encode d).
Proof.
  intros entries j d Hbits Hnd Hlen Hj.
  destruct (nth_error_split entries j Hj) as (pre & post & -> & Hpre).
  unfold construct_tree. rewrite fold_left_app. cbn [fold_left].
  apply Forall_app in Hbits as [Hpre_bits Hpost_bits].
  inversion Hpost_bits as [|? ? Hd _]; subst.
  assert (Hnd_pre : NoDup (map replacement ([] ++ pre))).
  { rewrite map_app in Hnd. simpl. eapply NoDup_app_remove_r. exact Hnd. }
  assert (Hlen_pre : length ([] ++ pre) <= 252).
  { rewrite length_app in Hlen. simpl. lia. }
  pose proof (construct_fold_inv pre [] hardcoded_root hardcoded_root_inv
                Hpre_bits Hnd_pre Hlen_pre) as Hinv.
  pose proof (construct_fold_counter pre [] hardcoded_root hardcoded_root_inv
                Hpre_bits Hnd_pre Hlen_pre) as Hcount.
  cbn [length app] in Hinv, Hcount.
  destruct (fold_left construct_step pre (hardcoded_root, 0)) as [t i].
  cbn [fst snd] in Hinv, Hcount. subst i.
  apply construct_fold_keeps; [|lia].
  unfold construct_step. cbn [fst snd].
  rewrite label_insert_at.
  assert (Hfresh : ~ In (replacement d) (map replacement pre)).
  { rewrite map_app in Hnd. cbn [map] in Hnd.
    eapply NoDup_app_fresh. exact Hnd. }
  pose proof (fresh_label pre t (replacement d) Hinv Hd Hfresh) as Hf.
  assert (Hcode : to_int (Z.of_nat (length pre) + 4)
                  = (4 + Z.of_nat (length pre))%Z).
  { rewrite to_int_small; [lia|].
    rewrite length_app in Hlen. simpl in Hlen. lia. }
  unfold relabel.
  destruct (label t (replacement d)) as [[idx rf]|].
  - destruct (Z.ltb_spec idx 0); [|lia]. rewrite Hcode. reflexivity.
  - rewrite Hcode. reflexivity.
Qed.

Lemma construct_tree_numbers_entries_witness :
  Forall (fun d => 2 <= length (replacement d))
    [mk_dictentry [true; false] 0 false;
     mk_dictentry [false; true; false] 0 true]
  /\ NoDup (map replacement
       [mk_dictentry [true; false] 0 false;
        mk_dictentry [false; true; false] 0 true])
  /\ label (construct_tree
              [mk_dictentry [true; false] 0 false;
               mk_dictentry [false; true; false] 0 true])
       [false; true; false]
     = Some (5%Z, true).
Proof.
  assert (Hbits : Forall (fun d => 2 <= length (replacement d))
            [mk_dictentry [true; false] 0 false;
             mk_dictentry [false; true; false] 0 true])
    by (repeat constructor).
  assert (Hnd : NoDup (map replacement
            [mk_dictentry [true; false] 0 false;
             mk_dictentry [false; true; false] 0 true])).
  { repeat constructor; simpl; intuition discriminate. }
  assert (Hlen : length [mk_dictentry [true; false] 0 false;
                         mk_dictentry [false; true; false] 0 true] <= 252)
    by (simpl; lia).
  exact (conj Hbits (conj Hnd
           (construct_tree_numbers_entries _ 1
              (mk_dictentry [false; true; false] 0 true)
              Hbits Hnd Hlen eq_refl))).
Defined.

(** *** encode_font *)

Lemma encode_rle_nonempty bits : bits <> [] -> encode_rle bits <> [].
Proof.
  intros Hne H. apply Hne.
  rewrite <- (decode_rle_encode_rle bits), H. reflexivity.
Qed.

Lemma encode_ref_nonempty bits tree r :
  bits <> [] -> encode_ref bits tree false = Some r -> r <> [].
Proof.
  intros Hne. unfold encode_ref.
  rewrite encode_ref_loop_unfold.
  destruct (lt_dec 0 (length bits)) as [_|Hlen].
  - destruct (walk_tree tree (skipn 0 bits) false) as [[len idx]|];
      [|discriminate].
    destruct (encode_ref_loop tree bits false (length bits) (0 + len))
      as [[codes j]|]; [|discriminate].
    cbn [option_map fst snd]. intros E. inversion E.
    destruct (j <? length bits); discriminate.
  - destruct bits; [contradiction | simpl in Hlen; lia].
Qed.

Lemma encode_font_strings_nonempty datafile encoded :
  encode_font datafile = Some encoded ->
  Forall (fun r => r <> []) (rle_dictionary encoded)
  /\ Forall (fun r => r <> []) (ref_dictionary encoded).
Proof.
  intros Henc.
  destruct (encode_font_spec datafile encoded Henc) as (Hrle & Href & _).
  split.
  - rewrite Hrle. apply Forall_map.
    eapply Forall_impl; [|apply (of_class_flag 0); lia].
    intros d [_ Hd]. apply encode_rle_nonempty. exact Hd.
  - apply Forall_forall. intros r Hr.
    destruct (Forall2_in_right _ _ _ _ Href Hr) as (d & Hd & Hcode).
    pose proof (of_class_flag 1 (dictionary datafile)) as Hflag.
    rewrite Forall_forall in Hflag.
    destruct (Hflag ltac:(lia) d Hd) as [_ Hne].
    eapply encode_ref_nonempty; eassumption.
Qed.

(** X10.  [encode_font] never throws, whatever the DataFile.  It emits one
    reference string per glyph, one RLE string per non-empty slot with the
    flag clear and one reference string per non-empty slot with the flag
    set, and no emitted dictionary string is empty. *)
Theorem encode_font_shape :
  forall datafile : DataFile,
    exists encoded,
      encode_font datafile = Some encoded
      /\ length (glyphs encoded) = length (glyphtable datafile)
      /\ length (rle_dictionary encoded)
         = length (filter (fun d => used d && negb (ref_encode d))
                     (dictionary datafile))
      /\ length (ref_dictionary encoded)
         = length (filter (fun d => used d && ref_encode d)
                     (dictionary datafile))
      /\ Forall (fun r => r <> []) (rle_dictionary encoded)
      /\ Forall (fun r => r <> []) (ref_dictionary encoded).
Proof.
  intros datafile.
  destruct (encode_font_total datafile) as [encoded Henc].
  exists encoded. split; [exact Henc|].
  destruct (encode_font_spec datafile encoded Henc) as (Hrle & Href & Hgl).
  destruct (of_class_filter (dictionary datafile)) as (H0 & H1 & _).
  rewrite <- H0, <- H1.
  split; [|split; [|split]].
  - symmetry. eapply Forall2_length. exact Hgl.
  - rewrite Hrle. apply length_map.
  - symmetry. eapply Forall2_length. exact Href.
  - apply (encode_font_strings_nonempty datafile). exact Henc.
Qed.

Lemma stored_size_nonempty l :
  Forall (fun r : list Z => r <> []) l ->
  list_sum (map stored_size l) = total_length l + 2 * length l
  /\ length l <= total_length l.
Proof.
  unfold total_length.
  induction 1 as [|r l Hr _ [IH1 IH2]]; simpl; [lia|].
  unfold stored_size at 1.
  destruct r as [|z r]; [contradiction|]. simpl. lia.
Qed.

Lemma glyph_strings_size (l : list refstring_t) :
  list_sum (map (fun r : refstring_t => length r + 3) l)
  = total_length l + 3 * length l.
Proof.
  unfold total_length. induction l as [|r l IH]; simpl; lia.
Qed.

(** X11.  The size [get_encoded_size] reports for a font [encode_font]
    produced: the bytes of all strings, two bytes per dictionary string and
    three per glyph.  It is at least three bytes per emitted string and at
    most one byte per bit of the DataFile plus the table entries. *)
Theorem encoded_size_bounds :
  forall (datafile : DataFile) (encoded : encoded_font_t),
    encode_font datafile = Some encoded ->
    get_encoded_size encoded
    = total_length (rle_dictionary encoded)
      + total_length (ref_dictionary encoded)
      + total_length (glyphs encoded)
      + 2 * (length (rle_dictionary encoded)
             + length (ref_dictionary encoded))
      + 3 * length (glyphs encoded)
    /\ 3 * (length (rle_dictionary encoded)
            + length (ref_dictionary encoded) + length (glyphs encoded))
       <= get_encoded_size encoded
    /\ get_encoded_size encoded <= size_bound datafile.
Proof.
  intros datafile encoded Henc.
  destruct (encode_font_strings_nonempty datafile encoded Henc)
    as [Hrle Href].
  destruct (stored_size_nonempty _ Hrle) as [Hr1 Hr2].
  destruct (stored_size_nonempty _ Href) as [Hf1 Hf2].
  pose proof (get_encoded_size_sum encoded) as Hsum.
  rewrite Hr1, Hf1, glyph_strings_size in Hsum.
  unfold rlestring_t, refstring_t in *.
  split; [lia|]. split; [lia|].
  apply encoded_size_bound. exact Henc.
Qed.

Lemma encoded_size_bounds_witness :
  exists encoded,
    encode_font small_font = Some encoded
    /\ get_encoded_size encoded
       = total_length (rle_dictionary encoded)
         + total_length (ref_dictionary encoded)
         + total_length (glyphs encoded)
         + 2 * (length (rle_dictionary encoded)
                + length (ref_dictionary encoded))
         + 3 * length (glyphs encoded)
    /\ 3 * (length (rle_dictionary encoded)
            + length (ref_dictionary encoded) + length (glyphs encoded))
       <= get_encoded_size encoded
    /\ get_encoded_size encoded <= size_bound small_font.
Proof.
  eexists. split; [vm_compute; reflexivity|].
  apply (encoded_size_bounds small_font). vm_compute. reflexivity.
Defined.

Lemma encode_glyphs_data tree t1 : forall t2 out,
  map data t1 = map data t2 ->
  encode_glyphs tree t1 out = encode_glyphs tree t2 out.
Proof.
  induction t1 as [|g1 t1 IH]; intros [|g2 t2] out H; try discriminate;
    [reflexivity|].
  cbn [map] in H. inversion H as [[Hd Ht]]. cbn [encode_glyphs].
  rewrite Hd. destruct (encode_ref (data g2) tree true); [|reflexivity].
  apply IH. exact Ht.
Qed.

Lemma map_strip_fields l1 : forall l2,
  map replacement l1 = map replacement l2 ->
  map ref_encode l1 = map ref_encode l2 ->
  map strip l1 = map strip l2.
Proof.
  induction l1 as [|a l1 IH]; intros [|b l2] Hr Hf; try discriminate;
    [reflexivity|].
  cbn [map] in *. inversion Hr. inversion Hf.
  unfold strip at 1 3. f_equal; [congruence|]. apply IH; assumption.
Qed.

(** X12.  [encode_font] reads the replacement and the coding flag of the
    slots and the bits of the glyphs, and nothing else: DataFiles that
    agree on these are encoded alike, whatever their scores, glyph widths,
    font info and seed. *)
Theorem encode_font_ignores_scores :
  forall d1 d2 : DataFile,
    map replacement (dictionary d1) = map replacement (dictionary d2) ->
    map ref_encode (dictionary d1) = map ref_encode (dictionary d2) ->
    map data (glyphtable d1) = map data (glyphtable d2) ->
    encode_font d1 = encode_font d2.
Proof.
  intros d1 d2 Hr Hf Hg.
  rewrite (encode_font_coding d1
             (mk_DataFile (dictionary d2) (glyphtable d1) (fontinfo d1)
                (seed d1)));
    [|apply map_strip_fields; assumption | reflexivity].
  unfold encode_font. cbn [dictionary glyphtable].
  destruct (encode_dictionary _ _ [] []) as [[rle refd]|]; [|reflexivity].
  rewrite (encode_glyphs_data _ _ _ _ Hg). reflexivity.
Qed.

Lemma encode_font_ignores_scores_witness :
  encode_font small_font
  = encode_font
      (mk_DataFile
         [mk_dictentry [false; true; false] 9 true;
          mk_dictentry [true; false] (-3) false;
          mk_dictentry [] 5 false]
         [mk_glyphentry [false; true; false; false] 1;
          mk_glyphentry [true; false; true; false] 3;
          mk_glyphentry [false; false; false; false] 0]
         (mk_fontinfo 1 4) 99).
Proof.
  apply encode_font_ignores_scores; reflexivity.
Defined.

Lemma of_class_used k l :
  k < 2 -> of_class k (used_slots l) = of_class k l.
Proof.
  intros Hk. unfold of_class, used_slots.
  induction l as [|d l IH]; [reflexivity|]. cbn [filter].
  assert (Hc : (coding_class d =? k) = true ->
               negb (length (replacement d) =? 0) = true).
  { unfold coding_class.
    destruct (length (replacement d) =? 0), (ref_encode d);
      cbn [negb]; intros H; try reflexivity; apply Nat.eqb_eq in H; lia. }
  destruct (negb (length (replacement d) =? 0)) eqn:Hu.
  - cbn [filter]. rewrite IH. reflexivity.
  - destruct (coding_class d =? k);
      [specialize (Hc eq_refl); discriminate | exact IH].
Qed.

(** [encode_font] on the DataFile without its empty slots. *)
Lemma encode_font_used_slots datafile :
  encode_font datafile
  = encode_font (mk_DataFile (used_slots (dictionary datafile))
                   (glyphtable datafile) (fontinfo datafile)
                   (seed datafile)).
Proof.
  rewrite (encode_font_nonempty datafile),
          (encode_font_nonempty (mk_DataFile _ _ _ _)).
  cbn [dictionary glyphtable].
  rewrite !of_class_used by lia. reflexivity.
Qed.

(** X13.  Empty slots do not take part in the encoding: DataFiles with the
    same glyphs whose non-empty slots are the same, in the same order, are
    encoded alike, wherever their empty slots lie. *)
Theorem encode_font_ignores_empty_slots :
  forall d1 d2 : DataFile,
    used_slots (dictionary d1) = used_slots (dictionary d2) ->
    glyphtable d1 = glyphtable d2 ->
    encode_font d1 = encode_font d2.
Proof.
  intros d1 d2 Hu Hg.
  rewrite (encode_font_used_slots d1), (encode_font_used_slots d2).
  apply encode_font_coding; cbn [dictionary glyphtable]; congruence.
Qed.

Lemma encode_font_ignores_empty_slots_witness :
  encode_font small_font
  = encode_font
      (mk_DataFile
         [empty_dictentry; mk_dictentry [false; true; false] 0 true;
          mk_dictentry [] 4 true; mk_dictentry [true; false] 0 false]
         (glyphtable small_font) (fontinfo small_font) (seed small_font)).
Proof.
  apply encode_font_ignores_empty_slots; reflexivity.
Defined.

(** *** decode_glyph on emitted fonts *)

Lemma decode_refs_emitted recurse encoded fontinfo rs :
  length (rle_dictionary encoded) + length (ref_dictionary encoded) <= 252 ->
  (forall sub, In sub (ref_dictionary encoded) ->
     exists bits, recurse sub = Ok bits) ->
  Forall (ref_ok (length (rle_dictionary encoded))
            (length (rle_dictionary encoded)
             + length (ref_dictionary encoded)) true) rs ->
  forall acc, exists bits,
    decode_refs recurse encoded fontinfo rs acc = Ok bits.
Proof.
  intros Hsize Hrec. induction 1 as [|r rs Hr _ IH]; intros acc.
  - exists acc. reflexivity.
  - cbn [decode_refs].
    assert (Hint : to_int (Z.of_nat (length (rle_dictionary encoded)))
                   = Z.of_nat (length (rle_dictionary encoded))).
    { apply to_int_small. lia. }
    rewrite Hint.
    destruct Hr as [[->|[->|[Hrange _]]]|[_ ->]]; try apply IH.
    destruct (Z.eqb_spec r 0); [lia|]. destruct (Z.eqb_spec r 1); [lia|].
    destruct (Z.eqb_spec r 2); [lia|]. destruct (Z.eqb_spec r 3); [lia|].
    destruct (Z.ltb_spec (r - 4)
                (Z.of_nat (length (rle_dictionary encoded)))) as [Hlt|Hge].
    + destruct (nth_error (rle_dictionary encoded) (Z.to_nat (r - 4)))
        as [rle|] eqn:Hn; [apply IH|].
      apply nth_error_None in Hn. lia.
    + destruct (nth_error (ref_dictionary encoded)
                  (Z.to_nat (r - 4
                             - Z.of_nat (length (rle_dictionary encoded)))))
        as [sub|] eqn:Hn.
      * destruct (Hrec sub (nth_error_In _ _ Hn)) as [part Hpart].
        rewrite Hpart. apply IH.
      * apply nth_error_None in Hn. rewrite Nat2Z.inj_add in Hrange. lia.
Qed.

(** X14.  The decoder accepts what the encoder emits.  For a dictionary of
    at most 252 slots, [decode_glyph] on a glyph of the encoded font never
    throws and needs one nested call at most, whatever the font info; only
    an index that is not one of a glyph makes it throw. *)
Theorem decode_emitted_glyphs :
  forall datafile : DataFile,
    length (dictionary datafile) <= 252 ->
    exists encoded,
      encode_font datafile = Some encoded
      /\ forall (fontinfo : fontinfo_t) (depth i : nat),
           (i < length (glyphtable datafile) ->
            exists bits,
              decode_glyph_at (S (S depth)) encoded i fontinfo = Ok bits)
           /\ (length (glyphtable datafile) <= i ->
               decode_glyph_at depth encoded i fontinfo = OutOfRange).
Proof.
  intros datafile Hsize.
  destruct (encode_font_total datafile) as [encoded Henc].
  exists encoded. split; [exact Henc|].
  destruct (encode_font_codes datafile encoded Hsize Henc)
    as (Hused & Href & Hgl).
  destruct (encode_font_spec datafile encoded Henc) as (_ & _ & Hglyphs).
  apply Forall2_length in Hglyphs.
  intros fontinfo depth i. unfold decode_glyph_at. split; intros Hi.
  - destruct (nth_error (glyphs encoded) i) as [rs|] eqn:Hrs.
    + cbn [decode_glyph].
      apply decode_refs_emitted; [exact Hused | | apply Hgl].
      * intros sub Hsub. cbn [decode_glyph].
        apply decode_refs_flat; [lia|].
        intros r Hr. specialize (Href sub Hsub).
        rewrite Forall_forall in Href.
        destruct (Href r Hr) as [->|[->|[Hrange Hrle]]]; auto.
        right; right. specialize (Hrle eq_refl). lia.
      * eapply nth_error_In. exact Hrs.
    + apply nth_error_None in Hrs. lia.
  - destruct (nth_error (glyphs encoded) i) as [rs|] eqn:Hrs;
      [|reflexivity].
    assert (i < length (glyphs encoded))
      by (apply nth_error_Some; congruence).
    lia.
Qed.

Lemma decode_emitted_glyphs_witness :
  length (dictionary single_bit_font) <= 252
  /\ exists encoded,
       encode_font single_bit_font = Some encoded
       /\ forall (fontinfo : fontinfo_t) (depth i : nat),
            (i < length (glyphtable single_bit_font) ->
             exists bits,
               decode_glyph_at (S (S depth)) encoded i fontinfo = Ok bits)
            /\ (length (glyphtable single_bit_font) <= i ->
                decode_glyph_at depth encoded i fontinfo = OutOfRange).
Proof.
  assert (H : length (dictionary single_bit_font) <= 252) by (simpl; lia).
  exact (conj H (decode_emitted_glyphs single_bit_font H)).
Defined.

(** X15.  The codes of the dictionary.  When every non-empty slot has at
    least 2 bits, no two of them hold the same bits and there are at most
    252 slots, code [4 + k] decodes to the bits of the [k]-th RLE coded
    slot and code [4 + R + k], with [R] RLE strings, to the bits of the
    [k]-th ref coded slot, through one nested call. *)
Theorem dictionary_codes_roundtrip :
  forall datafile : DataFile,
    length (dictionary datafile) <= 252 ->
    Forall (fun d => 2 <= length (replacement d))
      (used_slots (dictionary datafile)) ->
    NoDup (map replacement (used_slots (dictionary datafile))) ->
    exists encoded,
      encode_font datafile = Some encoded
      /\ (forall k d fontinfo depth,
            nth_error (filter (fun d => used d && negb (ref_encode d))
                         (dictionary datafile)) k = Some d ->
            decode_glyph (S depth) encoded [(4 + Z.of_nat k)%Z] fontinfo
            = Ok (replacement d))
      /\ (forall k d fontinfo depth,
            nth_error (filter (fun d => used d && ref_encode d)
                         (dictionary datafile)) k = Some d ->
            decode_glyph (S (S depth)) encoded
              [(4 + Z.of_nat (length (rle_dictionary encoded))
                + Z.of_nat k)%Z] fontinfo
            = Ok (replacement d)).
Proof.
  intros datafile Hsize Hbits Hnd.
  destruct (encode_font_total datafile) as [encoded Henc].
  exists encoded. split; [exact Henc|].
  destruct (of_class_filter (dictionary datafile)) as (H0 & H1 & _).
  rewrite <- H0, <- H1.
  set (rle_entries := of_class 0 (dictionary datafile)).
  set (ref_entries := of_class 1 (dictionary datafile)).
  pose proof (used_slots_classes (dictionary datafile)) as Hperm.
  fold rle_entries ref_entries in Hperm.
  pose proof Henc as Hspec. rewrite encode_font_nonempty in Hspec.
  cbv zeta in Hspec. fold rle_entries ref_entries in Hspec.
  destruct (encode_dictionary (construct_tree (rle_entries ++ ref_entries))
              (rle_entries ++ ref_entries) [] [])
    as [[rle refd]|] eqn:Hd; [|discriminate].
  destruct (encode_glyphs (construct_tree (rle_entries ++ ref_entries))
              (glyphtable datafile) [])
    as [gl|] eqn:Hg; [|discriminate].
  inversion Hspec; subst encoded. clear Hspec Hg.
  apply encode_dictionary_spec in Hd as (Hrle & suffix & Hrefd & Href).
  simpl in Hrle, Hrefd.
  subst rle_entries ref_entries.
  rewrite !of_class_app, !of_class_of_class in Hrle, Href.
  simpl in Hrle, Href. rewrite app_nil_r in Hrle.
  subst rle refd.
  set (rle_entries := of_class 0 (dictionary datafile)) in *.
  set (ref_entries := of_class 1 (dictionary datafile)) in *.
  assert (Hflag : Forall (fun d => ref_encode d = true) ref_entries).
  { eapply Forall_impl; [|apply (of_class_flag 1); lia].
    intros d [H _]. exact H. }
  assert (Hlen : length (rle_entries ++ ref_entries) <= 252).
  { rewrite length_app.
    pose proof (of_class_lengths (dictionary datafile)). subst rle_entries
      ref_entries. lia. }
  assert (Hinv : tree_inv (rle_entries ++ ref_entries)
                   (construct_tree (rle_entries ++ ref_entries))).
  { apply construct_tree_inv; [| |exact Hlen].
    - eapply Permutation_Forall; [exact Hperm | exact Hbits].
    - eapply Permutation_NoDup; [|exact Hnd].
      apply Permutation_map. exact Hperm. }
  set (encoded := mk_encoded_font
                    (map (fun d => encode_rle (replacement d)) rle_entries)
                    suffix gl).
  rewrite length_app in Hlen.
  assert (Hint : to_int (Z.of_nat (length (rle_dictionary encoded)))
                 = Z.of_nat (length rle_entries)).
  { cbn [encoded rle_dictionary]. rewrite length_map.
    apply to_int_small. lia. }
  split.
  - intros k d fontinfo depth Hk.
    assert (Hlt : k < length rle_entries)
      by (apply nth_error_Some; congruence).
    cbn [decode_glyph decode_refs]. rewrite Hint.
    destruct (Z.eqb_spec (4 + Z.of_nat k) 0); [lia|].
    destruct (Z.eqb_spec (4 + Z.of_nat k) 1); [lia|].
    destruct (Z.eqb_spec (4 + Z.of_nat k) 2); [lia|].
    destruct (Z.eqb_spec (4 + Z.of_nat k) 3); [lia|].
    destruct (Z.ltb_spec (4 + Z.of_nat k - 4) (Z.of_nat (length rle_entries)));
      [|lia].
    replace (Z.to_nat (4 + Z.of_nat k - 4)) with k by lia.
    cbn [encoded rle_dictionary].
    rewrite nth_error_map, Hk. cbn [option_map app].
    rewrite decode_rle_encode_rle. reflexivity.
  - intros k d fontinfo depth Hk.
    destruct (Forall2_nth_error _ _ _ _ _ Href k d Hk) as (rs & Hrs & Hcode).
    cbn [decode_glyph decode_refs]. rewrite Hint.
    cbn [encoded rle_dictionary ref_dictionary]. rewrite length_map.
    set (r := (4 + Z.of_nat (length rle_entries) + Z.of_nat k)%Z).
    destruct (Z.eqb_spec r 0); [lia|]. destruct (Z.eqb_spec r 1); [lia|].
    destruct (Z.eqb_spec r 2); [lia|]. destruct (Z.eqb_spec r 3); [lia|].
    destruct (Z.ltb_spec (r - 4) (Z.of_nat (length rle_entries))); [lia|].
    replace (Z.to_nat (r - 4 - Z.of_nat (length rle_entries))) with k by lia.
    rewrite Hrs.
    rewrite (decode_ref_entry rle_entries ref_entries encoded fontinfo
               Hflag ltac:(rewrite length_app; lia) Hinv eq_refl Href
               _ (replacement d) rs Hcode).
    reflexivity.
Qed.

Lemma dictionary_codes_roundtrip_witness :
  exists encoded,
    encode_font small_font = Some encoded
    /\ (forall k d fontinfo depth,
          nth_error (filter (fun d => used d && negb (ref_encode d))
                       (dictionary small_font)) k = Some d ->
          decode_glyph (S depth) encoded [(4 + Z.of_nat k)%Z] fontinfo
          = Ok (replacement d))
    /\ (forall k d fontinfo depth,
          nth_error (filter (fun d => used d && ref_encode d)
                       (dictionary small_font)) k = Some d ->
          decode_glyph (S (S depth)) encoded
            [(4 + Z.of_nat (length (rle_dictionary encoded))
              + Z.of_nat k)%Z] fontinfo
          = Ok (replacement d)).
Proof.
  apply dictionary_codes_roundtrip.
  - simpl. lia.
  - repeat constructor.
  - repeat constructor; simpl; intuition discriminate.
Defined.

(** *** decode_glyph on any reference string *)

(** What follows a result that is not a value. *)
Definition and_then {A B : Type} (r : result A) (k : A -> result B)
  : result B :=
  match r with
  | Ok a => k a
  | OutOfRange => OutOfRange
  | OutOfDepth => OutOfDepth
  end.

Ltac decode_step :=
  cbn [decode_refs];
  repeat match goal with
         | |- context [if ?c then _ else _] => destruct c
         | |- context [match nth_error ?l ?i with _ => _ end] =>
             destruct (nth_error l i)
         | |- context [match ?rec ?sub with Ok _ => _ | _ => _ end] =>
             destruct (rec sub)
         end.

Lemma decode_refs_app recurse encoded fontinfo r1 r2 : forall acc,
  decode_refs recurse encoded fontinfo (r1 ++ r2) acc
  = and_then (decode_refs recurse encoded fontinfo r1 acc)
      (decode_refs recurse encoded fontinfo r2).
Proof.
  induction r1 as [|r r1 IH]; intros acc; [reflexivity|].
  rewrite <- app_comm_cons. decode_step; try apply IH; reflexivity.
Qed.

Lemma decode_refs_acc recurse encoded fontinfo rs :
  ~ In 2%Z rs ->
  forall acc,
    decode_refs recurse encoded fontinfo rs acc
    = and_then (decode_refs recurse encoded fontinfo rs [])
        (fun bits => Ok (acc ++ bits)).
Proof.
  induction rs as [|r rs IH]; intros Hno acc.
  - simpl. rewrite app_nil_r. reflexivity.
  - assert (Hr : r <> 2%Z) by (intros ->; apply Hno; left; reflexivity).
    assert (Hrs : ~ In 2%Z rs) by (intros H; apply Hno; right; exact H).
    specialize (IH Hrs).
    assert (Hshift : forall x,
              decode_refs recurse encoded fontinfo rs (acc ++ x)
              = and_then (decode_refs recurse encoded fontinfo rs ([] ++ x))
                  (fun bits => Ok (acc ++ bits))).
    { intros x. rewrite (IH (acc ++ x)), (IH ([] ++ x)).
      destruct (decode_refs recurse encoded fontinfo rs []); simpl;
        [rewrite app_assoc|..]; reflexivity. }
    cbn [decode_refs].
    destruct (Z.eqb_spec r 0); [apply Hshift|].
    destruct (Z.eqb_spec r 1); [apply Hshift|].
    destruct (Z.eqb_spec r 2); [contradiction|].
    destruct (Z.eqb_spec r 3); [apply IH|].
    destruct (r - 4 <? to_int (Z.of_nat (length (rle_dictionary encoded))))%Z.
    + destruct (nth_error (rle_dictionary encoded) (Z.to_nat (r - 4)));
        [apply Hshift | reflexivity].
    + destruct (nth_error (ref_dictionary encoded) _); [|reflexivity].
      destruct (recurse r0); [apply Hshift | reflexivity | reflexivity].
Qed.

(** X16.  Decoding is sequential: a reference string followed by a second
    one without the fill code 2 decodes to the bits of the first followed
    by the bits of the second. *)
Theorem decode_glyph_app :
  forall (depth : nat) (encoded : encoded_font_t) (r1 r2 : refstring_t)
         (fontinfo : fontinfo_t) (b1 b2 : bitstring_t),
    decode_glyph depth encoded r1 fontinfo = Ok b1 ->
    decode_glyph depth encoded r2 fontinfo = Ok b2 ->
    ~ In 2%Z r2 ->
    decode_glyph depth encoded (r1 ++ r2) fontinfo = Ok (b1 ++ b2).
Proof.
  intros [|depth] encoded r1 r2 fontinfo b1 b2; [discriminate|].
  cbn [decode_glyph]. intros H1 H2 Hno.
  rewrite decode_refs_app, H1. cbn [and_then].
  rewrite (decode_refs_acc _ _ _ _ Hno), H2. reflexivity.
Qed.

Lemma decode_glyph_app_witness :
  decode_glyph 1 (mk_encoded_font [[130%Z]] [] []) [0%Z; 2%Z]
    (mk_fontinfo 3 1) = Ok [false; false; false]
  /\ decode_glyph 1 (mk_encoded_font [[130%Z]] [] []) [4%Z; 1%Z]
       (mk_fontinfo 3 1) = Ok [true; true; true]
  /\ ~ In 2%Z [4%Z; 1%Z]
  /\ decode_glyph 1 (mk_encoded_font [[130%Z]] [] [])
       ([0%Z; 2%Z] ++ [4%Z; 1%Z]) (mk_fontinfo 3 1)
     = Ok ([false; false; false] ++ [true; true; true]).
Proof.
  assert (H1 : decode_glyph 1 (mk_encoded_font [[130%Z]] [] []) [0%Z; 2%Z]
                 (mk_fontinfo 3 1) = Ok [false; false; false])
    by reflexivity.
  assert (H2 : decode_glyph 1 (mk_encoded_font [[130%Z]] [] []) [4%Z; 1%Z]
                 (mk_fontinfo 3 1) = Ok [true; true; true])
    by reflexivity.
  assert (Hno : ~ In 2%Z [4%Z; 1%Z]) by (simpl; intuition discriminate).
  exact (conj H1 (conj H2 (conj Hno
           (decode_glyph_app _ _ _ _ _ _ _ H1 H2 Hno)))).
Defined.

Lemma resize_length n bits : length (resize n bits) = n.
Proof.
  unfold resize. rewrite length_app, length_firstn, repeat_length. lia.
Qed.

(** X17.  The fill code 2 brings the bits decoded so far to exactly
    [max_width * max_height] bits: a shorter result is padded with zero
    bits, a longer one is cut. *)
Theorem decode_glyph_fill :
  forall (depth : nat) (encoded : encoded_font_t) (r : refstring_t)
         (fontinfo : fontinfo_t) (b : bitstring_t),
    decode_glyph depth encoded r fontinfo = Ok b ->
    let size := max_width fontinfo * max_height fontinfo in
    exists b',
      decode_glyph depth encoded (r ++ [2%Z]) fontinfo = Ok b'
      /\ length b' = size
      /\ (length b <= size -> b' = b ++ repeat false (size - length b))
      /\ (size <= length b -> b' = firstn size b).
Proof.
  intros [|depth] encoded r fontinfo b; [discriminate|].
  cbn [decode_glyph]. intros H. cbv zeta.
  set (size := max_width fontinfo * max_height fontinfo).
  exists (resize size b). split; [|split; [|split]].
  - rewrite decode_refs_app, H. reflexivity.
  - apply resize_length.
  - intros Hle. unfold resize. rewrite firstn_all2 by exact Hle. reflexivity.
  - intros Hge. unfold resize.
    replace (size - length b) with 0 by lia. apply app_nil_r.
Qed.

Lemma decode_glyph_fill_witness :
  decode_glyph 1 (mk_encoded_font [] [] []) [1%Z; 0%Z; 1%Z]
    (mk_fontinfo 2 1) = Ok [true; false; true]
  /\ exists b',
       decode_glyph 1 (mk_encoded_font [] [] []) ([1%Z; 0%Z; 1%Z] ++ [2%Z])
         (mk_fontinfo 2 1) = Ok b'
       /\ length b' = 2
       /\ (length [true; false; true] <= 2 ->
           b' = [true; false; true]
                ++ repeat false (2 - length [true; false; true]))
       /\ (2 <= length [true; false; true] ->
           b' = firstn 2 [true; false; true]).
Proof.
  assert (H : decode_glyph 1 (mk_encoded_font [] [] []) [1%Z; 0%Z; 1%Z]
                (mk_fontinfo 2 1) = Ok [true; false; true])
    by reflexivity.
  exact (conj H (decode_glyph_fill _ _ _ _ _ H)).
Defined.

(** X18.  A code beyond both dictionaries makes [decode_glyph] throw, at
    any place of a reference string whose earlier codes decode. *)
Theorem decode_glyph_unknown_code :
  forall (depth : nat) (encoded : encoded_font_t) (r1 rest : refstring_t)
         (r : Z) (fontinfo : fontinfo_t) (b1 : bitstring_t),
    decode_glyph depth encoded r1 fontinfo = Ok b1 ->
    (Z.of_nat (length (rle_dictionary encoded)) < 2 ^ 31)%Z ->
    (4 + Z.of_nat (length (rle_dictionary encoded))
     + Z.of_nat (length (ref_dictionary encoded)) <= r)%Z ->
    decode_glyph depth encoded (r1 ++ r :: rest) fontinfo = OutOfRange.
Proof.
  intros [|depth] encoded r1 rest r fontinfo b1; [discriminate|].
  cbn [decode_glyph]. intros H Hsmall Hr.
  rewrite decode_refs_app, H. cbn [and_then decode_refs].
  rewrite to_int_small
    by (change 2147483648%Z with (2 ^ 31)%Z; lia).
  destruct (Z.eqb_spec r 0); [lia|]. destruct (Z.eqb_spec r 1); [lia|].
  destruct (Z.eqb_spec r 2); [lia|]. destruct (Z.eqb_spec r 3); [lia|].
  destruct (Z.ltb_spec (r - 4) (Z.of_nat (length (rle_dictionary encoded))));
    [lia|].
  destruct (nth_error (ref_dictionary encoded) _) eqn:Hn; [|reflexivity].
  assert (Hlt : Z.to_nat (r - 4 - Z.of_nat (length (rle_dictionary encoded)))
                < length (ref_dictionary encoded))
    by (apply nth_error_Some; congruence).
  lia.
Qed.

Lemma decode_glyph_unknown_code_witness :
  decode_glyph 1 (mk_encoded_font [[130%Z]] [] []) [4%Z]
    (mk_fontinfo 2 1) = Ok [true; true]
  /\ decode_glyph 1 (mk_encoded_font [[130%Z]] [] []) ([4%Z] ++ 5%Z :: [0%Z])
       (mk_fontinfo 2 1) = OutOfRange.
Proof.
  assert (H : decode_glyph 1 (mk_encoded_font [[130%Z]] [] []) [4%Z]
                (mk_fontinfo 2 1) = Ok [true; true])
    by reflexivity.
  refine (conj H (decode_glyph_unknown_code _ _ _ _ _ _ _ H _ _));
    simpl; lia.
Defined.

Lemma decode_refs_reserved recurse encoded fontinfo rs : forall acc,
  decode_refs recurse encoded fontinfo
    (filter (fun r => negb (r =? 3)%Z) rs) acc
  = decode_refs recurse encoded fontinfo rs acc.
Proof.
  induction rs as [|r rs IH]; intros acc; [reflexivity|].
  cbn [filter].
  destruct (Z.eqb_spec r 3) as [->|Hr]; cbn [negb].
  - rewrite IH. reflexivity.
  - cbn [decode_refs].
    repeat match goal with
           | |- context [if ?c then _ else _] => destruct c
           end; try apply IH.
    + destruct (nth_error _ _); [apply IH | reflexivity].
    + destruct (nth_error _ _); [|reflexivity].
      destruct (recurse r0); [apply IH | reflexivity | reflexivity].
Qed.

(** X19.  The reserved code 3 decodes to nothing: a reference string and
    the same string without its codes 3 decode alike. *)
Theorem decode_glyph_skips_reserved :
  forall (depth : nat) (encoded : encoded_font_t) (refstring : refstring_t)
         (fontinfo : fontinfo_t),
    decode_glyph depth encoded
      (filter (fun r => negb (r =? 3)%Z) refstring) fontinfo
    = decode_glyph depth encoded refstring fontinfo.
Proof.
  intros [|depth] encoded refstring fontinfo; [reflexivity|].
  cbn [decode_glyph]. apply decode_refs_reserved.
Qed.

Lemma strip_zeroes_blank n : forall e,
  strip_zeroes (repeat false n) e = 0.
Proof.
  induction e as [|e IH]; [reflexivity|]. cbn [strip_zeroes].
  replace (nth e (repeat false n) false) with false; [exact IH|].
  symmetry. destruct (Nat.lt_ge_cases e n).
  - apply nth_repeat_lt. assumption.
  - apply nth_overflow. rewrite repeat_length. assumption.
Qed.

(** X20.  A glyph without a set bit is emitted as the single fill code 2,
    whatever its size and whatever the dictionary, and an empty bit string
    as the empty reference string; the decoder turns the fill code into
    [max_width * max_height] zero bits. *)
Theorem blank_glyph_coding :
  forall (tree : dicttree_t) (n : nat) (is_glyph : bool)
         (encoded : encoded_font_t) (fontinfo : fontinfo_t) (depth : nat),
    encode_ref (repeat false (S n)) tree true = Some [2%Z]
    /\ encode_ref [] tree is_glyph = Some []
    /\ decode_glyph (S depth) encoded [2%Z] fontinfo
       = Ok (repeat false (max_width fontinfo * max_height fontinfo)).
Proof.
  intros tree n g encoded fontinfo depth. split; [|split].
  - unfold encode_ref. rewrite strip_zeroes_blank.
    rewrite encode_ref_loop_unfold. cbn [lt_dec].
    destruct (lt_dec 0 0); [lia|]. rewrite repeat_length. reflexivity.
  - unfold encode_ref.
    replace (if g then strip_zeroes [] (length (@nil bool))
             else length (@nil bool)) with 0 by (destruct g; reflexivity).
    rewrite encode_ref_loop_unfold.
    destruct (lt_dec 0 0); [lia | reflexivity].
  - cbn [decode_glyph decode_refs]. cbn. unfold resize. simpl.
    rewrite Nat.sub_0_r, firstn_nil. reflexivity.
Qed.

End EncodeProperties.

(** ** Further properties of the optimizer *)

Module OptimizeProperties.
Import Encode Optimize Samples EncodeSpec OptimizeSpec EncodeProperties.

Lemma same_font_refl a : same_font a a.
Proof. repeat split. Qed.

Lemma same_font_trans a b c : same_font a b -> same_font b c -> same_font a c.
Proof.
  intros (A1 & A2 & A3 & A4) (B1 & B2 & B3 & B4).
  repeat split; congruence.
Qed.

Lemma SetDictionaryEntry_same_font datafile i d datafile' :
  SetDictionaryEntry datafile i d = Some datafile' ->
  same_font datafile datafile'.
Proof.
  intros H. pose proof (SetDictionaryEntry_length _ _ _ _ H) as Hlen.
  apply SetDictionaryEntry_some in H as (_ & _ & Hg & Hf & Hs).
  repeat split; congruence.
Qed.

Ltac unbind H :=
  repeat match type of H with
         | context [match ?c with Some _ => _ | None => _ end] =>
             let E := fresh "E" in destruct c eqn:E; [|try discriminate H]
         | context [let (_, _) := ?p in _] => destruct p
         end.

Lemma nth_error_set_nth_other (A : Type) (l : list A) i j x :
  i < length l -> j <> i -> nth_error (set_nth l i x) j = nth_error l j.
Proof.
  intros Hi Hj. unfold set_nth.
  assert (Hlen : length (firstn i l) = i)
    by (rewrite length_firstn; lia).
  destruct (Nat.lt_ge_cases j i) as [Hlt|Hge].
  - rewrite nth_error_app1 by lia. rewrite nth_error_firstn.
    destruct (Nat.ltb_spec j i); [reflexivity | lia].
  - rewrite nth_error_app2 by lia. rewrite Hlen.
    destruct (j - i) as [|k] eqn:Hk; [lia|]. cbn [nth_error].
    rewrite nth_error_skipn. f_equal. lia.
Qed.

Lemma used_slots_clear l : forall i d,
  nth_error l i = Some d -> replacement d = [] ->
  used_slots (set_nth l i empty_dictentry) = used_slots l.
Proof.
  intros i d Hi Hd. unfold set_nth, used_slots.
  rewrite <- (firstn_skipn i l) at 3.
  rewrite !filter_app. f_equal.
  assert (Hs : skipn i l = d :: skipn (S i) l).
  { clear Hd. revert i Hi.
    induction l as [|a l IH]; intros [|i] Hi; try discriminate.
    - inversion Hi. reflexivity.
    - simpl. apply IH. exact Hi. }
  rewrite Hs. cbn [filter]. rewrite Hd. reflexivity.
Qed.

Section Optimizer.
Variable dictionarysize : nat.
Context {rnd_t : Type} {RND : UniformRandom rnd_t}.

Lemma accept_same_font datafile trial size index d datafile' size' :
  accept datafile trial size index d = Some (datafile', size') ->
  same_font datafile datafile'.
Proof.
  unfold accept. intros H.
  destruct (get_encoded_size_of trial) as [newsize|]; [|discriminate].
  destruct (newsize <? size).
  - destruct (SetDictionaryEntry datafile index _) as [live|] eqn:Hlive;
      [|discriminate].
    inversion H; subst. eapply SetDictionaryEntry_same_font. exact Hlive.
  - inversion H; subst. apply same_font_refl.
Qed.

Ltac single_slot :=
  let H := fresh "H" in
  intros ? ? ? ? ? ? H;
  match type of H with
  | match ?t with Some _ => _ | None => _ end = Some _ =>
      destruct t as [[[[? ?] ?] ?]|]; [|discriminate H]
  end;
  match type of H with
  | match ?a with Some _ => _ | None => _ end = Some _ =>
      let Ha := fresh "Ha" in
      destruct a as [[? ?]|] eqn:Ha; [|discriminate H];
      inversion H; subst; eapply accept_same_font; exact Ha
  end.

Lemma optimize_worst_keeps_font : keeps_font optimize_worst.
Proof. unfold keeps_font, optimize_worst. single_slot. Qed.

Lemma optimize_any_keeps_font : keeps_font (optimize_any dictionarysize).
Proof. unfold keeps_font, optimize_any. single_slot. Qed.

Lemma optimize_expand_keeps_font :
  keeps_font (optimize_expand dictionarysize).
Proof. unfold keeps_font, optimize_expand. single_slot. Qed.

Lemma optimize_refdict_keeps_font :
  keeps_font (optimize_refdict dictionarysize).
Proof. unfold keeps_font, optimize_refdict. single_slot. Qed.

Lemma optimize_combine_keeps_font :
  keeps_font (optimize_combine dictionarysize).
Proof. unfold keeps_font, optimize_combine. single_slot. Qed.

Lemma optimize_trim_keeps_font : keeps_font (optimize_trim dictionarysize).
Proof.
  intros datafile size rnd datafile' size' rnd' H.
  unfold optimize_trim in H.
  destruct (trim_trial dictionarysize datafile rnd)
    as [[[[[[[trial index] d] start] end_]|] rnd1]|]; [| |discriminate].
  - destruct (accept datafile trial size index d) as [[live size1]|] eqn:Ha;
      [|discriminate].
    inversion H; subst. eapply accept_same_font. exact Ha.
  - inversion H; subst. apply same_font_refl.
Qed.

Lemma optimize_loop_keeps_font iterations :
  keeps_font (optimize_loop dictionarysize iterations).
Proof.
  induction iterations as [|n IH];
    intros datafile size rnd datafile' size' rnd' H; simpl in H.
  - inversion H; subst. apply same_font_refl.
  - destruct (optimize_worst datafile size rnd) as [[[t1 s1] r1]|] eqn:H1;
      [|discriminate].
    destruct (optimize_any dictionarysize t1 s1 r1) as [[[t2 s2] r2]|] eqn:H2;
      [|discriminate].
    destruct (optimize_expand dictionarysize t2 s2 r2)
      as [[[t3 s3] r3]|] eqn:H3; [|discriminate].
    destruct (optimize_trim dictionarysize t3 s3 r3)
      as [[[t4 s4] r4]|] eqn:H4; [|discriminate].
    destruct (optimize_refdict dictionarysize t4 s4 r4)
      as [[[t5 s5] r5]|] eqn:H5; [|discriminate].
    destruct (optimize_combine dictionarysize t5 s5 r5)
      as [[[t6 s6] r6]|] eqn:H6; [|discriminate].
    apply optimize_worst_keeps_font in H1.
    apply optimize_any_keeps_font in H2.
    apply optimize_expand_keeps_font in H3.
    apply optimize_trim_keeps_font in H4.
    apply optimize_refdict_keeps_font in H5.
    apply optimize_combine_keeps_font in H6.
    apply IH in H.
    repeat (eapply same_font_trans; [eassumption|]). apply same_font_refl.
Qed.

Lemma bigjump_drop_same_font dropcount : forall trial rnd trial' rnd',
  bigjump_drop dictionarysize dropcount trial rnd = Some (trial', rnd') ->
  same_font trial trial'.
Proof.
  induction dropcount as [|n IH]; intros trial rnd trial' rnd' H;
    cbn [bigjump_drop] in H.
  - inversion H; subst. apply same_font_refl.
  - destruct (draw 0 _ rnd) as [[index r1]|]; [|discriminate].
    cbv zeta in H.
    destruct (GetDictionaryEntry trial (Z.to_nat index)) as [d|];
      [|discriminate].
    destruct (SetDictionaryEntry trial (Z.to_nat index) _) as [t1|] eqn:Hset;
      [|discriminate].
    eapply same_font_trans;
      [eapply SetDictionaryEntry_same_font; exact Hset | eapply IH; exact H].
Qed.

Lemma bigjump_search_keeps_font rounds :
  keeps_font (bigjump_search dictionarysize rounds).
Proof.
  induction rounds as [|n IH];
    intros datafile size rnd datafile' size' rnd' H; simpl in H.
  - inversion H; subst. apply same_font_refl.
  - destruct (optimize_worst datafile size rnd) as [[[t1 s1] r1]|] eqn:H1;
      [|discriminate].
    destruct (optimize_any dictionarysize t1 s1 r1) as [[[t2 s2] r2]|] eqn:H2;
      [|discriminate].
    destruct (optimize_expand dictionarysize t2 s2 r2)
      as [[[t3 s3] r3]|] eqn:H3; [|discriminate].
    destruct (optimize_refdict dictionarysize t3 s3 r3)
      as [[[t4 s4] r4]|] eqn:H4; [|discriminate].
    destruct (optimize_combine dictionarysize t4 s4 r4)
      as [[[t5 s5] r5]|] eqn:H5; [|discriminate].
    apply optimize_worst_keeps_font in H1.
    apply optimize_any_keeps_font in H2.
    apply optimize_expand_keeps_font in H3.
    apply optimize_refdict_keeps_font in H4.
    apply optimize_combine_keeps_font in H5.
    apply IH in H.
    repeat (eapply same_font_trans; [eassumption|]). apply same_font_refl.
Qed.

Lemma optimize_bigjump_keeps_font :
  keeps_font (optimize_bigjump dictionarysize).
Proof.
  intros datafile size rnd datafile' size' rnd' H.
  unfold optimize_bigjump in H.
  destruct (bigjump_trial dictionarysize datafile rnd)
    as [[[trial newsize] rnd1]|] eqn:Ht; [|discriminate].
  destruct (newsize <? size).
  - inversion H; subst.
    unfold bigjump_trial in Ht. cbv zeta in Ht.
    destruct (draw 1 20 rnd) as [[dropcount r0]|]; [|discriminate].
    destruct (bigjump_drop dictionarysize _ datafile r0) as [[t0 r1]|]
      eqn:Hdrop; [|discriminate].
    destruct (get_encoded_size_of t0) as [s0|]; [|discriminate].
    eapply same_font_trans;
      [eapply bigjump_drop_same_font; exact Hdrop
      |eapply bigjump_search_keeps_font; exact Ht].
  - inversion H; subst. apply same_font_refl.
Qed.

(** X21.  None of the seven operators touches anything but dictionary
    slots: glyph table, font info, seed and the number of slots of the
    DataFile an operator returns are those it was given. *)
Theorem operators_keep_font :
  keeps_font optimize_worst
  /\ keeps_font (optimize_any dictionarysize)
  /\ keeps_font (optimize_expand dictionarysize)
  /\ keeps_font (optimize_trim dictionarysize)
  /\ keeps_font (optimize_refdict dictionarysize)
  /\ keeps_font (optimize_combine dictionarysize)
  /\ keeps_font (optimize_bigjump dictionarysize).
Proof.
  split; [apply optimize_worst_keeps_font|].
  split; [apply optimize_any_keeps_font|].
  split; [apply optimize_expand_keeps_font|].
  split; [apply optimize_trim_keeps_font|].
  split; [apply optimize_refdict_keeps_font|].
  split; [apply optimize_combine_keeps_font|].
  apply optimize_bigjump_keeps_font.
Qed.

Lemma update_score_same_font oldsize datafile i datafile' :
  update_score oldsize datafile i = Some datafile' ->
  same_font datafile datafile'.
Proof.
  unfold update_score. cbv zeta. intros H.
  destruct (SetDictionaryEntry datafile i empty_dictentry) as [trial|]
    eqn:Htrial; [|discriminate].
  destruct (get_encoded_size_of trial); [|discriminate].
  destruct (GetDictionaryEntry datafile i); [|discriminate].
  destruct (score _ >? 0)%Z.
  - eapply SetDictionaryEntry_same_font. exact H.
  - inversion H; subst. eapply SetDictionaryEntry_same_font. exact Htrial.
Qed.

Lemma update_scores_loop_same_font oldsize slots : forall datafile datafile',
  update_scores_loop oldsize slots datafile = Some datafile' ->
  same_font datafile datafile'.
Proof.
  induction slots as [|i slots IH]; intros datafile datafile' H; simpl in H.
  - inversion H; subst. apply same_font_refl.
  - destruct (update_score oldsize datafile i) as [d1|] eqn:H1;
      [|discriminate].
    eapply same_font_trans;
      [eapply update_score_same_font; exact H1 | apply IH; exact H].
Qed.

(** X22.  [optimize] only works on the dictionary: the glyph table, the
    font info and the number of slots of the DataFile it returns are those
    it was given, and the seed it stores is a 32-bit value. *)
Theorem optimize_keeps_font :
  forall (datafile : DataFile) (iterations : nat) (datafile' : DataFile),
    optimize dictionarysize datafile iterations = Some datafile' ->
    glyphtable datafile' = glyphtable datafile
    /\ fontinfo datafile' = fontinfo datafile
    /\ length (dictionary datafile') = length (dictionary datafile)
    /\ (0 <= seed datafile' < 2 ^ 32)%Z.
Proof.
  intros datafile iterations datafile' H. unfold optimize in H.
  cbv zeta in H.
  destruct (update_scores dictionarysize datafile) as [swept|] eqn:Hs;
    [|discriminate].
  destruct (get_encoded_size_of swept) as [size|]; [|discriminate].
  destruct (optimize_loop dictionarysize iterations swept size _)
    as [[[live size'] rnd']|] eqn:Hl; [|discriminate].
  destruct (draw 0 (2 ^ 32 - 1) rnd') as [[s rnd'']|]; [|discriminate].
  inversion H; subst datafile'. clear H.
  unfold update_scores in Hs.
  destruct (get_encoded_size_of datafile) as [oldsize|]; [|discriminate].
  apply update_scores_loop_same_font in Hs.
  apply optimize_loop_keeps_font in Hl.
  destruct (same_font_trans _ _ _ Hs Hl) as (Hg & Hf & _ & Hn).
  unfold SetSeed. cbn [glyphtable fontinfo dictionary seed].
  repeat split; try congruence; apply Z.mod_pos_bound; lia.
Qed.

(** *** What an accepted trial leaves in the DataFile *)

Lemma accept_gain datafile trial size index d datafile' size' :
  accept datafile trial size index d = Some (datafile', size') ->
  (Z.of_nat size < 2 ^ 31)%Z ->
  (datafile' = datafile /\ size' = size)
  \/ (size' < size
      /\ exists index d,
           nth_error (dictionary datafile') index = Some d
           /\ score d = (Z.of_nat size - Z.of_nat size')%Z
           /\ forall j, j <> index ->
                nth_error (dictionary datafile') j
                = nth_error (dictionary datafile) j).
Proof.
  unfold accept. intros H Hsize.
  destruct (get_encoded_size_of trial) as [newsize|]; [|discriminate].
  destruct (Nat.ltb_spec newsize size) as [Hlt|Hge].
  - destruct (SetDictionaryEntry datafile index _) as [live|] eqn:Hlive;
      [|discriminate].
    inversion H; subst live size'. right. split; [exact Hlt|].
    apply SetDictionaryEntry_some in Hlive as (Hi & Hd & _).
    eexists index, _. rewrite Hd. split; [|split].
    + apply nth_error_set_nth. exact Hi.
    + cbn [set_score score]. apply to_int_size_sub;
        change 2147483648%Z with (2 ^ 31)%Z; lia.
    + intros j Hj. apply nth_error_set_nth_other; assumption.
  - inversion H; subst. left. split; reflexivity.
Qed.

Ltac single_slot_gain :=
  let H := fresh "H" in
  intros ? ? ? ? ? ? H;
  match type of H with
  | match ?t with Some _ => _ | None => _ end = Some _ =>
      destruct t as [[[[? ?] ?] ?]|]; [|discriminate H]
  end;
  match type of H with
  | match ?a with Some _ => _ | None => _ end = Some _ =>
      let Ha := fresh "Ha" in
      destruct a as [[? ?]|] eqn:Ha; [|discriminate H];
      inversion H; subst; eapply accept_gain; exact Ha
  end.

(** X23.  Each of the six operators of the main loop either returns the
    DataFile and the tracked size as they were, or has lowered the size and
    rewritten exactly one slot, in which it stores the number of bytes
    gained as the score; all other slots are as before.  (Sizes are
    assumed to fit the [int] score.) *)
Theorem operators_record_gain :
  records_gain optimize_worst
  /\ records_gain (optimize_any dictionarysize)
  /\ records_gain (optimize_expand dictionarysize)
  /\ records_gain (optimize_trim dictionarysize)
  /\ records_gain (optimize_refdict dictionarysize)
  /\ records_gain (optimize_combine dictionarysize).
Proof.
  split; [|split; [|split; [|split; [|split]]]].
  - unfold records_gain, optimize_worst. single_slot_gain.
  - unfold records_gain, optimize_any. single_slot_gain.
  - unfold records_gain, optimize_expand. single_slot_gain.
  - intros datafile size rnd datafile' size' rnd' H.
    unfold optimize_trim in H.
    destruct (trim_trial dictionarysize datafile rnd)
      as [[[[[[[trial index] d] start] end_]|] rnd1]|]; [| |discriminate].
    + destruct (accept datafile trial size index d) as [[live size1]|]
        eqn:Ha; [|discriminate].
      inversion H; subst. eapply accept_gain. exact Ha.
    + inversion H; subst. left. split; reflexivity.
  - unfold records_gain, optimize_refdict. single_slot_gain.
  - unfold records_gain, optimize_combine. single_slot_gain.
Qed.

(** *** The slots after update_scores *)

Lemma update_score_slot oldsize datafile i datafile' :
  update_score oldsize datafile i = Some datafile' ->
  i < length (dictionary datafile)
  /\ exists d x,
       nth_error (dictionary datafile) i = Some d
       /\ dictionary datafile' = set_nth (dictionary datafile) i x
       /\ (x = empty_dictentry
           \/ (replacement x = replacement d
               /\ ref_encode x = ref_encode d /\ (0 < score x)%Z
               /\ exists newsize trial,
                    SetDictionaryEntry datafile i empty_dictentry
                    = Some trial
                    /\ get_encoded_size_of trial = Some newsize
                    /\ score x
                       = to_int (size_sub (Z.of_nat newsize)
                                   (Z.of_nat oldsize)))).
Proof.
  unfold update_score. cbv zeta. intros H.
  destruct (SetDictionaryEntry datafile i empty_dictentry) as [trial|]
    eqn:Htrial; [|discriminate].
  destruct (get_encoded_size_of trial) as [newsize|] eqn:Hnew;
    [|discriminate].
  destruct (GetDictionaryEntry datafile i) as [d|] eqn:Hget; [|discriminate].
  pose proof (SetDictionaryEntry_some _ _ _ _ Htrial) as (Hi & Ht & _).
  split; [exact Hi|]. exists d.
  destruct (Z.gtb_spec (score (set_score d
              (to_int (size_sub (Z.of_nat newsize) (Z.of_nat oldsize))))) 0)
    as [Hpos|Hneg].
  - apply SetDictionaryEntry_some in H as (_ & Hd & _).
    eexists. split; [exact Hget|]. split; [exact Hd|]. right.
    cbn [set_score replacement ref_encode score] in *.
    repeat split; try lia. exists newsize, trial. auto.
  - inversion H; subst datafile'.
    exists empty_dictentry. split; [exact Hget|]. split; [exact Ht|].
    left. reflexivity.
Qed.

(** The sweep over the slots [slots], each visited once. *)
Lemma update_scores_loop_slots oldsize slots :
  NoDup slots ->
  forall datafile datafile',
    update_scores_loop oldsize slots datafile = Some datafile' ->
    (forall i, In i slots -> i < length (dictionary datafile))
    /\ (forall i d',
          In i slots -> nth_error (dictionary datafile') i = Some d' ->
          d' = empty_dictentry
          \/ exists d,
               nth_error (dictionary datafile) i = Some d
               /\ replacement d' = replacement d
               /\ ref_encode d' = ref_encode d /\ (0 < score d')%Z)
    /\ (forall i, ~ In i slots ->
          nth_error (dictionary datafile') i
          = nth_error (dictionary datafile) i).
Proof.
  induction 1 as [|i slots Hi Hnd IH]; intros datafile datafile' H.
  - simpl in H. inversion H; subst. repeat split; intros; contradiction.
  - cbn [update_scores_loop] in H.
    destruct (update_score oldsize datafile i) as [d1|] eqn:H1;
      [|discriminate].
    pose proof (update_score_slot _ _ _ _ H1)
      as (Hlt & d & x & Hd & Hset & Hx).
    assert (Hlen : length (dictionary d1) = length (dictionary datafile)).
    { rewrite Hset. apply set_nth_length. exact Hlt. }
    destruct (IH d1 datafile' H) as (Hin & Hpost & Hrest).
    split; [|split].
    + intros j [<-|Hj]; [exact Hlt|]. rewrite <- Hlen. apply Hin. exact Hj.
    + intros j d' [<-|Hj] Hd'.
      * rewrite (Hrest i Hi), Hset, nth_error_set_nth in Hd' by exact Hlt.
        inversion Hd'; subst d'.
        destruct Hx as [->|(Hr & Hf & Hpos & _)]; [left; reflexivity|].
        right. exists d. auto.
      * destruct (Hpost j d' Hj Hd') as [->|(d0 & Hd0 & Hrest0)];
          [left; reflexivity|].
        right. exists d0. split; [|exact Hrest0].
        rewrite Hset, nth_error_set_nth_other in Hd0;
          [exact Hd0 | exact Hlt | intros ->; contradiction].
    + intros j Hj. rewrite (Hrest j) by (intros Hn; apply Hj; right; exact Hn).
      rewrite Hset. apply nth_error_set_nth_other; [exact Hlt|].
      intros ->. apply Hj. left. reflexivity.
Qed.

(** A slot without replacement costs nothing, so the sweep blanks it. *)
Lemma update_score_used oldsize datafile i datafile' size :
  update_score oldsize datafile i = Some datafile' ->
  get_encoded_size_of datafile = Some size -> size <= oldsize ->
  (Z.of_nat (size_bound datafile) < 2 ^ 31)%Z ->
  (Z.of_nat oldsize < 2 ^ 31)%Z ->
  forall d', nth_error (dictionary datafile') i = Some d' ->
    replacement d' = [] -> d' = empty_dictentry.
Proof.
  intros H Hs Hle Hb Ho d' Hd' Hempty.
  pose proof (update_score_slot _ _ _ _ H) as (Hlt & d & x & Hd & Hset & Hx).
  rewrite Hset, nth_error_set_nth in Hd' by exact Hlt.
  inversion Hd'; subst d'.
  destruct Hx as [->|(Hr & _ & Hpos & newsize & trial & Ht & Hn & Hscore)];
    [reflexivity|].
  exfalso.
  assert (Hsame : get_encoded_size_of trial = get_encoded_size_of datafile).
  { unfold get_encoded_size_of.
    rewrite (encode_font_used_slots trial),
            (encode_font_used_slots datafile).
    apply SetDictionaryEntry_some in Ht as (_ & Hdict & Hg & Hf & Hsd).
    rewrite Hdict, Hg, Hf, Hsd.
    rewrite (used_slots_clear _ i d Hd) by congruence. reflexivity. }
  rewrite Hsame, Hs in Hn. inversion Hn; subst newsize.
  rewrite to_int_size_sub in Hscore;
    change 2147483648%Z with (2 ^ 31)%Z;
    [lia | | lia].
  pose proof (get_encoded_size_of_bound _ _ Hs). lia.
Qed.

Lemma update_scores_loop_used oldsize slots :
  NoDup slots ->
  forall datafile datafile' size,
    update_scores_loop oldsize slots datafile = Some datafile' ->
    get_encoded_size_of datafile = Some size -> size <= oldsize ->
    (Z.of_nat (size_bound datafile) < 2 ^ 31)%Z ->
    (Z.of_nat oldsize < 2 ^ 31)%Z ->
    forall i d', In i slots ->
      nth_error (dictionary datafile') i = Some d' ->
      replacement d' = [] -> d' = empty_dictentry.
Proof.
  induction 1 as [|i slots Hi Hnd IH];
    intros datafile datafile' size H Hs Hle Hb Ho j d' Hj Hd' Hempty;
    [contradiction|].
  cbn [update_scores_loop] in H.
  destruct (update_score oldsize datafile i) as [d1|] eqn:H1;
    [|discriminate].
  destruct (update_score_spec oldsize datafile i d1 size H1 Hs Hle)
    as (Hb1 & size1 & Hs1 & Hle1);
    try (change 2147483648%Z with (2 ^ 31)%Z; assumption).
  destruct Hj as [<-|Hj].
  - destruct (update_scores_loop_slots oldsize slots Hnd d1 datafile' H)
      as (_ & _ & Hrest).
    rewrite (Hrest i Hi) in Hd'.
    eapply update_score_used; eassumption.
  - eapply (IH d1 datafile' size1); try eassumption. lia.
Qed.

(** X24.  After [update_scores], every slot below [dictionarysize] is
    either the blank entry or keeps its replacement and coding flag with a
    score above zero; the slots beyond, the glyphs, the font info and the
    seed are untouched.  When sizes fit the [int] score, a slot is blank
    exactly when it holds no replacement. *)
Theorem update_scores_slots :
  forall datafile datafile' : DataFile,
    update_scores dictionarysize datafile = Some datafile' ->
    same_font datafile datafile'
    /\ dictionarysize <= length (dictionary datafile)
    /\ (forall i d',
          i < dictionarysize ->
          nth_error (dictionary datafile') i = Some d' ->
          d' = empty_dictentry
          \/ exists d,
               nth_error (dictionary datafile) i = Some d
               /\ replacement d' = replacement d
               /\ ref_encode d' = ref_encode d /\ (0 < score d')%Z)
    /\ (forall i,
          dictionarysize <= i ->
          nth_error (dictionary datafile') i
          = nth_error (dictionary datafile) i)
    /\ ((Z.of_nat (size_bound datafile) < 2 ^ 31)%Z ->
        forall i d',
          i < dictionarysize ->
          nth_error (dictionary datafile') i = Some d' ->
          replacement d' = [] -> d' = empty_dictentry).
Proof.
  intros datafile datafile' H. unfold update_scores in H.
  destruct (get_encoded_size_of datafile) as [oldsize|] eqn:Hs;
    [|discriminate].
  pose proof (seq_NoDup dictionarysize 0) as Hnd.
  destruct (update_scores_loop_slots oldsize _ Hnd datafile datafile' H)
    as (Hin & Hpost & Hrest).
  split; [eapply update_scores_loop_same_font; exact H|].
  split; [|split; [|split]].
  - destruct dictionarysize as [|n]; [lia|].
    assert (Hlast : In n (seq 0 (S n))) by (apply in_seq; lia).
    apply Hin in Hlast. lia.
  - intros i d' Hi. apply Hpost. apply in_seq. lia.
  - intros i Hi. apply Hrest. rewrite in_seq. lia.
  - intros Hb i d' Hi.
    pose proof (get_encoded_size_of_bound _ _ Hs) as Hold.
    eapply (update_scores_loop_used oldsize _ Hnd datafile datafile' oldsize);
      try eassumption; try lia.
    apply in_seq. lia.
Qed.

(** *** optimize_expand *)

Lemma expand_bits_infix count : forall r rnd r' rnd',
  expand_bits count r rnd = Some (r', rnd') ->
  exists front back,
    r' = front ++ r ++ back /\ length front + length back = count.
Proof.
  induction count as [|count IH]; intros r rnd r' rnd' H;
    cbn [expand_bits] in H.
  - inversion H; subst. exists [], []. rewrite app_nil_r. auto.
  - destruct (draw 0 1 rnd) as [[bit r1]|]; [|discriminate].
    destruct (draw 0 1 r1) as [[prepend r2]|]; [|discriminate].
    cbv zeta in H.
    destruct (negb (prepend =? 0)%Z).
    + apply IH in H as (front & back & -> & Hlen).
      exists (front ++ [negb (bit =? 0)%Z]), back.
      rewrite <- app_assoc, length_app. simpl. split; [reflexivity | lia].
    + apply IH in H as (front & back & -> & Hlen).
      exists front, ([negb (bit =? 0)%Z] ++ back).
      rewrite <- !app_assoc, length_app. simpl. split; [reflexivity | lia].
Qed.

(** X25.  The trial of [optimize_expand] keeps the bits of the slot it
    draws as a contiguous part of the new replacement and adds between 1
    and 10 bits around them; score and coding flag of the slot are kept,
    and no other slot of the trial differs from the DataFile. *)
Theorem expand_keeps_old_bits :
  forall (datafile : DataFile) (rnd : rnd_t) (trial : DataFile)
         (index : nat) (d : dictentry_t) (rnd' : rnd_t),
    expand_trial dictionarysize datafile rnd = Some (trial, index, d, rnd') ->
    exists old front back,
      GetDictionaryEntry datafile index = Some old
      /\ replacement d = front ++ replacement old ++ back
      /\ 1 <= length front + length back <= 10
      /\ score d = score old /\ ref_encode d = ref_encode old
      /\ SetDictionaryEntry datafile index d = Some trial.
Proof.
  intros datafile rnd trial index d rnd' H.
  pose proof (expand_trial_set _ _ _ _ _ _ _ H) as Hset.
  unfold expand_trial in H. cbv zeta in H.
  destruct (draw 0 (size_sub (Z.of_nat dictionarysize) 1) rnd)
    as [[i r1]|]; [|discriminate].
  destruct (GetDictionaryEntry datafile (Z.to_nat i)) as [old|] eqn:Hold;
    [|discriminate].
  destruct (draw 1 10 r1) as [[count r2]|] eqn:Hcount; [|discriminate].
  destruct (expand_bits (Z.to_nat count) (replacement old) r2)
    as [[r r3]|] eqn:Hexp; [|discriminate].
  match type of H with
  | match ?c with Some _ => _ | None => _ end = _ =>
      destruct c; [|discriminate H]
  end.
  inversion H; subst. clear H.
  apply draw_range in Hcount as [Hcount _].
  apply expand_bits_infix in Hexp as (front & back & Hr & Hlen).
  exists old, front, back. cbn [set_replacement replacement score ref_encode].
  repeat split; try assumption; lia.
Qed.

(** *** init_dictionary *)

Lemma glyph_slice_same_glyphs a b sub :
  glyphtable a = glyphtable b -> glyph_slice a sub -> glyph_slice b sub.
Proof. unfold glyph_slice. intros ->. auto. Qed.

Lemma random_substring_slice datafile rnd sub rnd' :
  random_substring datafile rnd = Some (sub, rnd') ->
  glyph_slice datafile sub.
Proof.
  unfold random_substring. intros H.
  destruct (draw 0 _ rnd) as [[index r1]|]; [|discriminate].
  destruct (GetGlyphEntry datafile (Z.to_nat index)) as [g|] eqn:Hg;
    [|discriminate].
  cbv zeta in H.
  destruct (draw 2 _ r1) as [[len r2]|] eqn:Hlen; [|discriminate].
  destruct (draw 0 _ r2) as [[start r3]|] eqn:Hstart; [|discriminate].
  inversion H; subst sub rnd'. clear H.
  apply draw_range in Hlen as [Hlen _].
  apply draw_range in Hstart as [Hstart _].
  assert (Hsub : (size_sub (Z.of_nat (length (data g))) len
                  <= Z.of_nat (length (data g)) - len)%Z).
  { unfold size_sub. apply Z.mod_le; lia. }
  assert (Hl : length (firstn (Z.to_nat len)
                         (skipn (Z.to_nat start) (data g)))
               = Z.to_nat len).
  { rewrite length_firstn, length_skipn. lia. }
  unfold glyph_slice. rewrite Hl. split; [lia|].
  exists g, (Z.to_nat start). split; [|split].
  - eapply nth_error_In. exact Hg.
  - lia.
  - reflexivity.
Qed.

(** What the loop of [init_dictionary] keeps true, for the DataFile
    [initial] it started from: the slots below [i] hold the added
    substrings in the order they were added, with score 0, and the slots
    from [i] on are as they were. *)
Definition init_inv (initial : DataFile) (st : @init_state rnd_t)
  : Prop :=
  same_font initial (init_datafile st)
  /\ init_i st = length (added_substrings st)
  /\ NoDup (added_substrings st)
  /\ Forall (glyph_slice initial) (added_substrings st)
  /\ map replacement (firstn (init_i st) (dictionary (init_datafile st)))
     = rev (added_substrings st)
  /\ Forall (fun d => score d = 0%Z)
       (firstn (init_i st) (dictionary (init_datafile st)))
  /\ skipn (init_i st) (dictionary (init_datafile st))
     = skipn (init_i st) (dictionary initial).

Lemma set_count_zero s x : (set_count s x =? 0) = true -> ~ In x s.
Proof.
  unfold set_count.
  destruct (in_dec (list_eq_dec bool_dec) x s); [discriminate | auto].
Qed.

Lemma set_insert_new s x : ~ In x s -> set_insert s x = x :: s.
Proof.
  unfold set_insert. intros H.
  destruct (in_dec (list_eq_dec bool_dec) x s); [contradiction | auto].
Qed.

Lemma firstn_set_nth (A : Type) (l : list A) i x :
  i < length l ->
  firstn (S i) (set_nth l i x) = firstn i l ++ [x]
  /\ skipn (S i) (set_nth l i x) = skipn (S i) l.
Proof.
  intros Hi. unfold set_nth.
  assert (Hlen : length (firstn i l) = i) by (rewrite length_firstn; lia).
  rewrite firstn_app, skipn_app, Hlen.
  replace (S i - i) with 1 by lia.
  rewrite (firstn_all2 (n := S i) (firstn i l)) by lia.
  rewrite (skipn_all2 (n := S i) (firstn i l)) by lia.
  split; reflexivity.
Qed.

Lemma init_dictionary_step_inv initial st st' :
  init_inv initial st ->
  init_dictionary_step st = Some st' ->
  init_inv initial st'
  /\ (init_i st' = init_i st \/ init_i st' = S (init_i st)).
Proof.
  intros (Hfont & Hi & Hnd & Hslices & Hmap & Hscore & Hrest) H.
  unfold init_dictionary_step in H. cbv zeta in H.
  destruct (random_substring (init_datafile st) (init_rnd st))
    as [[sub rnd]|] eqn:Hsub; [|discriminate].
  destruct (set_count (seen_substrings st) sub =? 0).
  { inversion H; subst st'. cbn. split; [|left; reflexivity].
    repeat split; assumption || apply Hfont. }
  destruct (set_count (added_substrings st) sub =? 0) eqn:Hadded.
  2:{ inversion H; subst st'. cbn. split; [|left; reflexivity].
      repeat split; assumption || apply Hfont. }
  destruct (SetDictionaryEntry (init_datafile st) (init_i st) _)
    as [datafile|] eqn:Hset; [|discriminate].
  inversion H; subst st'. clear H.
  split; [|right; reflexivity].
  unfold init_inv.
  cbn [init_datafile init_i added_substrings seen_substrings init_rnd].
  apply set_count_zero in Hadded.
  rewrite (set_insert_new _ _ Hadded).
  pose proof (SetDictionaryEntry_same_font _ _ _ _ Hset) as Hfont'.
  apply SetDictionaryEntry_some in Hset as (Hlt & Hdict & _).
  destruct (firstn_set_nth _ (dictionary (init_datafile st)) (init_i st)
              (set_replacement (set_score empty_dictentry 0) sub) Hlt)
    as [Hfirst Hskip].
  rewrite Hdict, Hfirst, Hskip.
  split; [eapply same_font_trans; eassumption|].
  split; [simpl; congruence|].
  split; [constructor; assumption|].
  split.
  { constructor; [|exact Hslices].
    eapply glyph_slice_same_glyphs;
      [|eapply random_substring_slice; exact Hsub].
    symmetry. apply Hfont. }
  split; [rewrite map_app, Hmap; reflexivity|].
  split; [apply Forall_app; split; [exact Hscore | repeat constructor]|].
  replace (S (init_i st)) with (1 + init_i st) by lia.
  rewrite <- !skipn_skipn, Hrest. reflexivity.
Qed.

Lemma init_dictionary_loop_inv initial fuel : forall st st',
  init_inv initial st -> init_i st <= dictionarysize ->
  init_dictionary_loop dictionarysize fuel st = Some (Some st') ->
  init_inv initial st' /\ init_i st' = dictionarysize.
Proof.
  induction fuel as [|fuel IH]; intros st st' Hinv Hle H;
    cbn [init_dictionary_loop] in H;
    destruct (Nat.ltb_spec (init_i st) dictionarysize) as [Hlt|Hge];
    try discriminate;
    try (inversion H; subst st'; split; [exact Hinv | lia]).
  destruct (init_dictionary_step st) as [st1|] eqn:Hstep; [|discriminate].
  destruct (init_dictionary_step_inv initial st st1 Hinv Hstep)
    as [Hinv1 Hi1].
  apply (IH st1 st' Hinv1); [lia | exact H].
Qed.

Lemma init_inv_start datafile :
  init_inv datafile
    (mk_init_state datafile (rnd_seed (GetSeed datafile)) [] [] 0).
Proof.
  unfold init_inv. cbn.
  repeat split; constructor.
Qed.

(** What [init_inv] says once the loop has left. *)
Lemma init_inv_final initial st :
  init_inv initial st -> init_i st = dictionarysize ->
  same_font initial (init_datafile st)
  /\ dictionarysize <= length (dictionary initial)
  /\ NoDup (map replacement
              (firstn dictionarysize (dictionary (init_datafile st))))
  /\ Forall (fun d => score d = 0%Z /\ glyph_slice initial (replacement d))
       (firstn dictionarysize (dictionary (init_datafile st)))
  /\ skipn dictionarysize (dictionary (init_datafile st))
     = skipn dictionarysize (dictionary initial).
Proof.
  intros (Hfont & Hi & Hnd & Hslices & Hmap & Hscore & Hrest) Hn.
  rewrite Hn in *.
  split; [exact Hfont|]. split; [|split; [|split]].
  - pose proof (f_equal (@length _) Hmap) as Hlen.
    rewrite length_map, length_firstn, length_rev in Hlen.
    destruct Hfont as (_ & _ & _ & Hsame). lia.
  - rewrite Hmap. apply NoDup_rev. exact Hnd.
  - apply Forall_forall. intros d Hd. split.
    + rewrite Forall_forall in Hscore. apply Hscore. exact Hd.
    + rewrite Forall_forall in Hslices. apply Hslices.
      apply in_rev. rewrite <- Hmap. apply in_map. exact Hd.
  - exact Hrest.
Qed.

Lemma init_dictionary_final fuel datafile datafile' :
  init_dictionary dictionarysize fuel datafile = Some (Some datafile') ->
  exists st,
    init_inv datafile st /\ init_i st = dictionarysize
    /\ init_datafile st = datafile'.
Proof.
  unfold init_dictionary. cbv zeta. intros H.
  destruct (init_dictionary_loop dictionarysize fuel _) as [[st|]|] eqn:Hloop;
    try discriminate.
  inversion H; subst datafile'. exists st.
  destruct (init_dictionary_loop_inv datafile fuel _ st
              (init_inv_start datafile) (Nat.le_0_l _) Hloop).
  auto.
Qed.

(** X26.  When [init_dictionary] returns, the first [dictionarysize] slots
    hold pairwise different bit strings, each a run of at least 2
    consecutive bits of some glyph, with score 0; the slots beyond, the
    glyphs, the font info and the seed are as before. *)
Theorem init_dictionary_fills_slots :
  forall (fuel : nat) (datafile datafile' : DataFile),
    init_dictionary dictionarysize fuel datafile = Some (Some datafile') ->
    same_font datafile datafile'
    /\ dictionarysize <= length (dictionary datafile)
    /\ NoDup (map replacement
                (firstn dictionarysize (dictionary datafile')))
    /\ Forall (fun d => score d = 0%Z
                        /\ glyph_slice datafile (replacement d))
         (firstn dictionarysize (dictionary datafile'))
    /\ skipn dictionarysize (dictionary datafile')
       = skipn dictionarysize (dictionary datafile).
Proof.
  intros fuel datafile datafile' H.
  destruct (init_dictionary_final fuel datafile datafile' H)
    as (st & Hinv & Hi & <-).
  apply init_inv_final; assumption.
Qed.

Lemma filter_all (A : Type) (f : A -> bool) (l : list A) :
  Forall (fun x => f x = true) l -> filter f l = l.
Proof.
  induction 1 as [|x l Hx _ IH]; [reflexivity|].
  cbn [filter]. rewrite Hx, IH. reflexivity.
Qed.

(** X27.  A dictionary filled by [init_dictionary] is one the encoder
    handles: with [dictionarysize] slots, at most 252, and glyphs of
    [max_width * max_height] bits, every glyph of the DataFile that
    [init_dictionary] returns is decoded bit for bit from its encoding. *)
Theorem init_dictionary_roundtrip :
  forall (fuel : nat) (datafile datafile' : DataFile),
    init_dictionary dictionarysize fuel datafile = Some (Some datafile') ->
    length (dictionary datafile) = dictionarysize ->
    dictionarysize <= 252 ->
    Forall (fun g => length (data g)
                     = max_width (fontinfo datafile)
                       * max_height (fontinfo datafile))
      (glyphtable datafile) ->
    exists encoded,
      encode_font datafile' = Some encoded
      /\ forall i g depth,
           nth_error (glyphtable datafile') i = Some g ->
           decode_glyph_at (S (S depth)) encoded i (fontinfo datafile')
           = Ok (data g).
Proof.
  intros fuel datafile datafile' H Hlen Hsize Hdim.
  destruct (init_dictionary_final fuel datafile datafile' H)
    as (st & Hinv & Hi & <-).
  destruct (init_inv_final datafile st Hinv Hi)
    as ((Hg & Hf & _ & Hn) & _ & Hnd & Hall & _).
  rewrite firstn_all2 in Hnd, Hall by lia.
  assert (Hused : used_slots (dictionary (init_datafile st))
                  = dictionary (init_datafile st)).
  { apply filter_all. eapply Forall_impl; [|exact Hall].
    intros d (_ & Hd & _). cbv beta.
    destruct (Nat.eqb_spec (length (replacement d)) 0); [lia | reflexivity]. }
  destruct (decode_encode_font (init_datafile st))
    as (encoded & Henc & Hdecode).
  - lia.
  - rewrite Hused. eapply Forall_impl; [|exact Hall].
    intros d (_ & Hd & _). exact Hd.
  - rewrite Hused. exact Hnd.
  - exists encoded. split; [exact Henc|].
    intros k g depth Hk. apply Hdecode; [exact Hk|].
    rewrite <- Hg in Hk. rewrite <- Hf.
    rewrite Forall_forall in Hdim. apply Hdim.
    eapply nth_error_In. exact Hk.
Qed.

(** X28.  [init_dictionary] does not end on a font that is too small: when
    the glyphs have fewer different runs of at least 2 bits than there are
    slots to fill, the loop is still running after any number of turns,
    whatever the generator draws. *)
Theorem init_dictionary_spins :
  forall (datafile : DataFile) (pool : list bitstring_t),
    well_formed dictionarysize datafile ->
    (forall sub, glyph_slice datafile sub -> In sub pool) ->
    length pool < dictionarysize ->
    forall fuel : nat,
      init_dictionary dictionarysize fuel datafile = Some None.
Proof.
  intros datafile pool Hwf Hpool Hshort fuel.
  unfold init_dictionary. cbv zeta.
  assert (Hloop : forall st,
            well_formed dictionarysize (init_datafile st) ->
            glyphtable (init_datafile st) = glyphtable datafile ->
            NoDup (added_substrings st) ->
            incl (added_substrings st) pool ->
            init_i st = length (added_substrings st) ->
            init_dictionary_loop dictionarysize fuel st = Some None).
  { induction fuel as [|fuel IH]; intros st Hwf' Hgl Hnd Hincl Hi;
      cbn [init_dictionary_loop];
      pose proof (NoDup_incl_length Hnd Hincl) as Hcard;
      destruct (Nat.ltb_spec (init_i st) dictionarysize) as [Hlt|Hge];
      try lia; [reflexivity|].
    unfold init_dictionary_step. cbv zeta.
    destruct (random_substring_defined dictionarysize (init_datafile st)
                (init_rnd st) Hwf') as (sub & rnd & Hsub).
    rewrite Hsub.
    assert (Hin : In sub pool).
    { apply Hpool. eapply glyph_slice_same_glyphs; [exact Hgl|].
      eapply random_substring_slice. exact Hsub. }
    destruct (set_count (seen_substrings st) sub =? 0);
      [apply IH; assumption|].
    destruct (set_count (added_substrings st) sub =? 0) eqn:Hadded;
      [|apply IH; assumption].
    destruct (SetDictionaryEntry_defined (init_datafile st) (init_i st)
                (set_replacement (set_score empty_dictentry 0) sub))
      as [live Hlive].
    { destruct Hwf' as (Hlen & _). lia. }
    rewrite Hlive.
    apply set_count_zero in Hadded.
    apply IH; cbn [init_datafile added_substrings init_i];
      try rewrite (set_insert_new _ _ Hadded).
    - eapply SetDictionaryEntry_well_formed; eassumption.
    - apply SetDictionaryEntry_some in Hlive as (_ & _ & Hg & _). congruence.
    - constructor; assumption.
    - intros x [<-|Hx]; [exact Hin | apply Hincl; exact Hx].
    - simpl. congruence. }
  rewrite Hloop; try reflexivity;
    cbn [init_datafile added_substrings init_i length].
  - exact Hwf.
  - constructor.
  - intros x [].
Qed.

End Optimizer.

Lemma optimize_keeps_font_witness :
  exists datafile',
    optimize 2 repeated_font 1 = Some datafile'
    /\ glyphtable datafile' = glyphtable repeated_font
    /\ fontinfo datafile' = fontinfo repeated_font
    /\ length (dictionary datafile') = length (dictionary repeated_font)
    /\ (0 <= seed datafile' < 2 ^ 32)%Z.
Proof.
  eexists. split; [vm_compute; reflexivity|].
  apply (optimize_keeps_font 2 repeated_font 1). vm_compute. reflexivity.
Defined.

Lemma operators_record_gain_witness :
  exists datafile',
    optimize_trim 1 trim_font 10 trim_script = Some (datafile', 8, [])
    /\ (Z.of_nat 10 < 2 ^ 31)%Z
    /\ ((datafile' = trim_font /\ 8 = 10)
        \/ (8 < 10
            /\ exists index d,
                 nth_error (dictionary datafile') index = Some d
                 /\ score d = (Z.of_nat 10 - Z.of_nat 8)%Z
                 /\ forall j, j <> index ->
                      nth_error (dictionary datafile') j
                      = nth_error (dictionary trim_font) j)).
Proof.
  eexists. split; [vm_compute; reflexivity|].
  assert (Hsize : (Z.of_nat 10 < 2 ^ 31)%Z) by (vm_compute; reflexivity).
  split; [exact Hsize|].
  refine (proj1 (proj2 (proj2 (proj2 (operators_record_gain 1))))
            trim_font 10 trim_script _ 8 [] _ Hsize).
  vm_compute. reflexivity.
Defined.

Lemma update_scores_slots_witness :
  exists datafile',
    update_scores 1 unused_entry_font = Some datafile'
    /\ same_font unused_entry_font datafile'
    /\ 1 <= length (dictionary unused_entry_font)
    /\ (forall i d',
          i < 1 -> nth_error (dictionary datafile') i = Some d' ->
          d' = empty_dictentry
          \/ exists d,
               nth_error (dictionary unused_entry_font) i = Some d
               /\ replacement d' = replacement d
               /\ ref_encode d' = ref_encode d /\ (0 < score d')%Z)
    /\ (forall i,
          1 <= i ->
          nth_error (dictionary datafile') i
          = nth_error (dictionary unused_entry_font) i)
    /\ ((Z.of_nat (size_bound unused_entry_font) < 2 ^ 31)%Z ->
        forall i d',
          i < 1 -> nth_error (dictionary datafile') i = Some d' ->
          replacement d' = [] -> d' = empty_dictentry).
Proof.
  eexists. split; [vm_compute; reflexivity|].
  apply (update_scores_slots 1 unused_entry_font). vm_compute. reflexivity.
Defined.

Lemma expand_keeps_old_bits_witness :
  exists trial d old front back,
    expand_trial 1 unused_entry_font [0; 2; 1; 1; 0; 0]%Z
    = Some (trial, 0, d, [])
    /\ GetDictionaryEntry unused_entry_font 0 = Some old
    /\ replacement d = front ++ replacement old ++ back
    /\ 1 <= length front + length back <= 10
    /\ score d = score old /\ ref_encode d = ref_encode old
    /\ SetDictionaryEntry unused_entry_font 0 d = Some trial.
Proof.
  do 2 eexists.
  assert (E : expand_trial 1 unused_entry_font [0; 2; 1; 1; 0; 0]%Z
              = Some (mk_DataFile
                        [mk_dictentry [true; true; true; false; false] 0
                           false]
                        (glyphtable unused_entry_font)
                        (fontinfo unused_entry_font)
                        (seed unused_entry_font), 0,
                      mk_dictentry [true; true; true; false; false] 0 false,
                      [])) by (vm_compute; reflexivity).
  destruct (expand_keeps_old_bits 1 _ _ _ _ _ _ E)
    as (old & front & back & H).
  exists old, front, back. exact (conj E H).
Defined.

Lemma init_dictionary_fills_slots_witness :
  exists datafile',
    init_dictionary 1 4 repeated_font = Some (Some datafile')
    /\ same_font repeated_font datafile'
    /\ 1 <= length (dictionary repeated_font)
    /\ NoDup (map replacement (firstn 1 (dictionary datafile')))
    /\ Forall (fun d => score d = 0%Z
                        /\ glyph_slice repeated_font (replacement d))
         (firstn 1 (dictionary datafile'))
    /\ skipn 1 (dictionary datafile') = skipn 1 (dictionary repeated_font).
Proof.
  eexists. split; [vm_compute; reflexivity|].
  apply (init_dictionary_fills_slots 1 4 repeated_font).
  vm_compute. reflexivity.
Defined.

Lemma init_dictionary_roundtrip_witness :
  exists datafile',
    init_dictionary 1 2 unused_entry_font = Some (Some datafile')
    /\ length (dictionary unused_entry_font) = 1
    /\ 1 <= 252
    /\ exists encoded,
         encode_font datafile' = Some encoded
         /\ forall i g depth,
              nth_error (glyphtable datafile') i = Some g ->
              decode_glyph_at (S (S depth)) encoded i (fontinfo datafile')
              = Ok (data g).
Proof.
  eexists. split; [vm_compute; reflexivity|].
  split; [reflexivity|]. split; [lia|].
  apply (init_dictionary_roundtrip 1 2 unused_entry_font).
  - vm_compute. reflexivity.
  - reflexivity.
  - lia.
  - repeat constructor.
Defined.

Lemma init_dictionary_spins_witness :
  well_formed 2 narrow_font
  /\ (forall sub, glyph_slice narrow_font sub -> In sub [[true; false]])
  /\ length [[true; false]] < 2
  /\ forall fuel : nat, init_dictionary 2 fuel narrow_font = Some None.
Proof.
  assert (Hwf : well_formed 2 narrow_font).
  { unfold well_formed, narrow_font. cbn.
    repeat split; try lia; repeat constructor; cbn; lia. }
  assert (Hpool : forall sub,
            glyph_slice narrow_font sub -> In sub [[true; false]]).
  { intros sub (Hlen & g & start & [<-|[]] & Hend & Hsub).
    cbn [data length] in Hend.
    assert (Hs : start = 0) by lia.
    assert (Hl : length sub = 2) by lia.
    rewrite Hs, Hl in Hsub. left. symmetry. exact Hsub. }
  assert (Hshort : length [[true; false]] < 2) by (simpl; lia).
  exact (conj Hwf (conj Hpool (conj Hshort
           (init_dictionary_spins 2 narrow_font [[true; false]]
              Hwf Hpool Hshort)))).
Defined.

End OptimizeProperties.
